(** * Deployment-manifest validation and merge (bin/config-schema.ts, bin/config-loader.ts)

    A shallow embedding of the configuration loader: the Zod schema
    [DeploymentManifestSchema] with the parsing discipline of Zod 3 that
    decides which issues are reported, the override routine
    [applyManifestOverrides], the manifest locator and [loadConfig].

    Conventions of the model.
    - A JavaScript value is a [json] tree; [undefined] is [None] of
      [option json].  An object never stores an [undefined] property: reading
      a missing property and reading one that holds [undefined] give the same
      result in the source, and nothing in the loader enumerates keys.
    - An object is an association list in insertion order.
    - A string is a Rocq [string]; one character stands for one code unit.
    - A number is a rational; NaN and the infinities are not represented.
    - [console.log] output is kept only for [logOverride]: one [ChangeRecord]
      per call, in call order. *)

From Stdlib Require Import String Ascii List Bool Arith Lia.
From Stdlib Require Import ZArith QArith_base DecimalString.
Import ListNotations.

Close Scope Q_scope.
Open Scope string_scope.
Open Scope list_scope.

Set Implicit Arguments.
Set Warnings "-register-all".

(* ================================================================= *)
(** ** JavaScript values *)

Inductive json : Type :=
| JNull
| JBool (b : bool)
| JNum (q : Q)
| JStr (s : string)
| JArr (items : list json)
| JObj (props : list (string * json)).

(** [obj[k]] on the property list of an object. *)
Fixpoint assoc (k : string) (o : list (string * json)) : option json :=
  match o with
  | [] => None
  | (k', v) :: o' => if String.eqb k k' then Some v else assoc k o'
  end.

(** [obj[k] = v]: an existing property keeps its position, a new one is
    appended. *)
Fixpoint assoc_put (k : string) (v : json) (o : list (string * json))
  : list (string * json) :=
  match o with
  | [] => [(k, v)]
  | (k', v') :: o' =>
      if String.eqb k k' then (k, v) :: o' else (k', v') :: assoc_put k v o'
  end.

(** An object literal [{ k1: e1, ..., kn: en }] with distinct keys; the
    members that evaluate to [undefined] are left out. *)
Fixpoint object_literal (members : list (string * option json))
  : list (string * json) :=
  match members with
  | [] => []
  | (k, Some v) :: ms => (k, v) :: object_literal ms
  | (_, None) :: ms => object_literal ms
  end.

(** JavaScript truthiness, [!!v]. *)
Definition truthy (v : option json) : bool :=
  match v with
  | None => false
  | Some JNull => false
  | Some (JBool b) => b
  | Some (JNum q) => negb (Z.eqb (Qnum q) 0)
  | Some (JStr s) => negb (String.eqb s "")
  | Some (JArr _) => true
  | Some (JObj _) => true
  end.

(** [v !== undefined]. *)
Definition defined (v : option json) : bool :=
  match v with Some _ => true | None => false end.

(** [v ?? d]. *)
Definition nullish_or (v : option json) (d : json) : json :=
  match v with
  | None | Some JNull => d
  | Some x => x
  end.

(** Optional-chaining read [v?.k1?.k2...]: [undefined] as soon as a step
    is not an object.  Used to state properties, never by the loader. *)
Fixpoint get_path (p : list string) (v : option json) : option json :=
  match p with
  | [] => v
  | k :: p' =>
      match v with
      | Some (JObj o) => get_path p' (assoc k o)
      | _ => None
      end
  end.

(* ================================================================= *)
(** ** Property access as the loader performs it *)

(** A statement either completes or throws a [TypeError]. *)
Inductive outcome (A : Type) : Type :=
| Ok (a : A)
| TypeError.
Arguments Ok {A} a.
Arguments TypeError {A}.

Definition bind {A B : Type} (x : outcome A) (f : A -> outcome B) : outcome B :=
  match x with
  | Ok a => f a
  | TypeError => TypeError
  end.

Notation "x <- e1 ;; e2" := (bind e1 (fun x => e2))
  (at level 61, e1 at next level, right associativity).

(** [v.k]: throws on [undefined] and [null]; a primitive or an array has
    none of the property names the loader reads. *)
Definition getProp (v : option json) (k : string) : outcome (option json) :=
  match v with
  | None => TypeError
  | Some JNull => TypeError
  | Some (JObj o) => Ok (assoc k o)
  | Some _ => Ok None
  end.

(** [v.k = x] in strict mode: throws unless [v] is an object.  (An array
    would take the property; no group of the configuration is an array and
    the model rejects that case.) *)
Definition setProp (v : option json) (k : string) (x : json) : outcome json :=
  match v with
  | Some (JObj o) => Ok (JObj (assoc_put k x o))
  | _ => TypeError
  end.

(** [v.k1.k2...kn]. *)
Fixpoint readPath (p : list string) (v : option json) : outcome (option json) :=
  match p with
  | [] => Ok v
  | k :: p' => x <- getProp v k ;; readPath p' x
  end.

(** [v.k1.k2...kn = x]; the source mutates the innermost object, the model
    rebuilds the spine. *)
Fixpoint assignPath (p : list string) (x : json) (v : option json) : outcome json :=
  match p with
  | [] => Ok x
  | k :: p' =>
      match p' with
      | [] => setProp v k x
      | _ :: _ =>
          child <- getProp v k ;;
          child' <- assignPath p' x child ;;
          setProp v k child'
      end
  end.

(** The dotted spelling of a path, as passed to [logOverride]. *)
Definition dotted (p : list string) : string := String.concat "." p.

(* ================================================================= *)
(** ** Regular expressions

    Every pattern of the schema is anchored at both ends and uses only
    classes, concatenation, alternation and repetition, so [RegExp.test]
    is membership in the language of the pattern; it is decided with
    derivatives. *)

Inductive regex : Type :=
| RNone
| REps
| RClass (c : ascii -> bool)
| RCat (r1 r2 : regex)
| RAlt (r1 r2 : regex)
| RStar (r : regex).

Fixpoint nullable (r : regex) : bool :=
  match r with
  | RNone => false
  | REps => true
  | RClass _ => false
  | RCat r1 r2 => nullable r1 && nullable r2
  | RAlt r1 r2 => nullable r1 || nullable r2
  | RStar _ => true
  end.

Definition rcat (r1 r2 : regex) : regex :=
  match r1, r2 with
  | RNone, _ => RNone
  | _, RNone => RNone
  | REps, _ => r2
  | _, REps => r1
  | _, _ => RCat r1 r2
  end.

Definition ralt (r1 r2 : regex) : regex :=
  match r1, r2 with
  | RNone, _ => r2
  | _, RNone => r1
  | _, _ => RAlt r1 r2
  end.

Fixpoint deriv (a : ascii) (r : regex) : regex :=
  match r with
  | RNone => RNone
  | REps => RNone
  | RClass c => if c a then REps else RNone
  | RCat r1 r2 =>
      if nullable r1
      then ralt (rcat (deriv a r1) r2) (deriv a r2)
      else rcat (deriv a r1) r2
  | RAlt r1 r2 => ralt (deriv a r1) (deriv a r2)
  | RStar r1 => rcat (deriv a r1) (RStar r1)
  end.

Fixpoint regex_test (r : regex) (s : string) : bool :=
  match s with
  | EmptyString => nullable r
  | String a s' => regex_test (deriv a r) s'
  end.

(** Pattern syntax. *)
Definition in_range (lo hi : ascii) (a : ascii) : bool :=
  Nat.leb (nat_of_ascii lo) (nat_of_ascii a)
  && Nat.leb (nat_of_ascii a) (nat_of_ascii hi).
Definition is_char (c : ascii) (a : ascii) : bool := Ascii.eqb c a.
Definition cls_or (c1 c2 : ascii -> bool) (a : ascii) : bool := c1 a || c2 a.

Definition lower : ascii -> bool := in_range "a"%char "z"%char.
Definition upper : ascii -> bool := in_range "A"%char "Z"%char.
Definition digit : ascii -> bool := in_range "0"%char "9"%char.       (* \d *)
Definition hexlow : ascii -> bool := cls_or (in_range "a"%char "f"%char) digit.
Definition alnum : ascii -> bool := cls_or lower (cls_or upper digit).
(** [.]: any code unit but a line terminator. *)
Definition anychar (a : ascii) : bool :=
  negb (is_char "010"%char a || is_char "013"%char a).

Fixpoint rlit (s : string) : regex :=
  match s with
  | EmptyString => REps
  | String a s' => RCat (RClass (is_char a)) (rlit s')
  end.
Definition rplus (r : regex) : regex := RCat r (RStar r).
Definition ropt (r : regex) : regex := RAlt REps r.
(** [r{n}] *)
Fixpoint rexact (n : nat) (r : regex) : regex :=
  match n with
  | 0 => REps
  | S n' => RCat r (rexact n' r)
  end.
(** [r{0,n}] *)
Fixpoint rupto (n : nat) (r : regex) : regex :=
  match n with
  | 0 => REps
  | S n' => ropt (RCat r (rupto n' r))
  end.
(** [r{n,m}] with [n <= m] *)
Definition rrange (n m : nat) (r : regex) : regex :=
  RCat (rexact n r) (rupto (m - n) r).
(** [r{n,}] *)
Definition ratleast (n : nat) (r : regex) : regex :=
  RCat (rexact n r) (RStar r).
Fixpoint rseq (rs : list regex) : regex :=
  match rs with
  | [] => REps
  | r :: rs' => RCat r (rseq rs')
  end.

(* ================================================================= *)
(** ** The schema language (Zod 3) and its synchronous parser

    [parse] follows [ZodType._parse]: every parser pushes its issues on the
    shared issue list and returns a status.  [aborted] is Zod's [INVALID]
    (a value of the wrong primitive type, an enum or literal mismatch),
    [dirty] a value of the right type that failed a check or a refinement.
    An object parses all its fields before it merges their statuses, and a
    refinement runs unless the refined value is [aborted]. *)

Inductive pelem : Type :=
| PKey (k : string)
| PIdx (i : nat).

Inductive issue_code : Type :=
| invalid_type
| invalid_literal
| invalid_enum_value
| invalid_union
| invalid_string
| too_small
| too_big
| custom.

(** [imessage] is the message given in the schema, [None] where Zod's
    error map supplies the text. *)
Record issue : Type := {
  code : issue_code;
  ipath : list pelem;
  imessage : option string
}.

Inductive string_check : Type :=
| CMin (n : nat) (msg : option string)
| CMax (n : nat) (msg : option string)
| CLength (n : nat) (msg : option string)
| CRegex (r : regex) (msg : option string)
| CUrl (msg : option string)
| CEmail (msg : option string).

Inductive number_check : Type :=
| NPositive (msg : option string).

Inductive schema : Type :=
| ZString (checks : list string_check)
| ZBoolean
| ZNumber (checks : list number_check)
| ZEnum (values : list string)
| ZLiteral (value : string)
| ZArray (element : schema) (minLength : option (nat * option string))
| ZObject (shape : list (string * schema))
| ZOptional (inner : schema)
| ZDefault (inner : schema) (defaultValue : json)
| ZUnion (first second : schema)
| ZRefine (inner : schema) (check : option json -> bool)
          (message : string) (rpath : list pelem).

Inductive status : Type := valid | dirty | aborted.

Record parsed : Type := {
  pstatus : status;
  pvalue : option json;
  pissues : list issue
}.

Definition OK (v : option json) : parsed :=
  {| pstatus := valid; pvalue := v; pissues := [] |}.
Definition INVALID (issues : list issue) : parsed :=
  {| pstatus := aborted; pvalue := None; pissues := issues |}.
Definition mkIssue (c : issue_code) (p : list pelem) (m : option string) : issue :=
  {| code := c; ipath := p; imessage := m |}.

Definition merge_status (a b : status) : status :=
  match a, b with
  | aborted, _ => aborted
  | _, aborted => aborted
  | dirty, _ => dirty
  | _, dirty => dirty
  | valid, valid => valid
  end.

Definition dirty_if_issues (issues : list issue) : status :=
  match issues with [] => valid | _ :: _ => dirty end.

(** [ParseStatus.mergeObjectSync]: a key is set in the result when its
    parsed value is not [undefined]. *)
Fixpoint merged_status (rs : list parsed) : status :=
  match rs with
  | [] => valid
  | r :: rs' => merge_status (pstatus r) (merged_status rs')
  end.

Fixpoint merged_props (fs : list (string * parsed)) : list (string * json) :=
  match fs with
  | [] => []
  | (k, r) :: fs' =>
      match pvalue r with
      | Some v => (k, v) :: merged_props fs'
      | None => merged_props fs'
      end
  end.

Definition mergeObjectSync (fs : list (string * parsed)) : parsed :=
  let issues := flat_map (fun f => pissues (snd f)) fs in
  match merged_status (map snd fs) with
  | aborted => INVALID issues
  | st => {| pstatus := st; pvalue := Some (JObj (merged_props fs));
             pissues := issues |}
  end.

(** [ParseStatus.mergeArray], started from the status of the length check. *)
Fixpoint merged_items (rs : list parsed) : list json :=
  match rs with
  | [] => []
  | r :: rs' =>
      match pvalue r with
      | Some v => v :: merged_items rs'
      | None => merged_items rs'
      end
  end.

Definition mergeArray (lengthIssues : list issue) (rs : list parsed) : parsed :=
  let issues := lengthIssues ++ flat_map pissues rs in
  match merge_status (dirty_if_issues lengthIssues) (merged_status rs) with
  | aborted => INVALID issues
  | st => {| pstatus := st; pvalue := Some (JArr (merged_items rs));
             pissues := issues |}
  end.

Section Zod.

(** [new URL(s)] succeeds, and Zod's e-mail pattern matches: two tests of
    the platform and of the library that the schema only refers to. *)
Variable is_url : string -> bool.
Variable is_email : string -> bool.

Definition run_string_check (p : list pelem) (s : string) (c : string_check)
  : list issue :=
  match c with
  | CMin n msg =>
      if Nat.ltb (String.length s) n then [mkIssue too_small p msg] else []
  | CMax n msg =>
      if Nat.ltb n (String.length s) then [mkIssue too_big p msg] else []
  | CLength n msg =>
      if Nat.ltb n (String.length s) then [mkIssue too_big p msg]
      else if Nat.ltb (String.length s) n then [mkIssue too_small p msg]
      else []
  | CRegex r msg =>
      if regex_test r s then [] else [mkIssue invalid_string p msg]
  | CUrl msg => if is_url s then [] else [mkIssue invalid_string p msg]
  | CEmail msg => if is_email s then [] else [mkIssue invalid_string p msg]
  end.

Definition run_number_check (p : list pelem) (q : Q) (c : number_check)
  : list issue :=
  match c with
  | NPositive msg =>
      if Z.ltb 0 (Qnum q) then [] else [mkIssue too_small p msg]
  end.

Fixpoint parse (s : schema) (p : list pelem) (d : option json) {struct s}
  : parsed :=
  match s with
  | ZString checks =>
      match d with
      | Some (JStr x) =>
          let issues := flat_map (run_string_check p x) checks in
          {| pstatus := dirty_if_issues issues; pvalue := d; pissues := issues |}
      | _ => INVALID [mkIssue invalid_type p None]
      end
  | ZBoolean =>
      match d with
      | Some (JBool _) => OK d
      | _ => INVALID [mkIssue invalid_type p None]
      end
  | ZNumber checks =>
      match d with
      | Some (JNum q) =>
          let issues := flat_map (run_number_check p q) checks in
          {| pstatus := dirty_if_issues issues; pvalue := d; pissues := issues |}
      | _ => INVALID [mkIssue invalid_type p None]
      end
  | ZEnum values =>
      match d with
      | Some (JStr x) =>
          if existsb (String.eqb x) values then OK d
          else INVALID [mkIssue invalid_enum_value p None]
      | _ => INVALID [mkIssue invalid_type p None]
      end
  | ZLiteral value =>
      match d with
      | Some (JStr x) =>
          if String.eqb x value then OK d
          else INVALID [mkIssue invalid_literal p None]
      | _ => INVALID [mkIssue invalid_literal p None]
      end
  | ZArray element minLength =>
      match d with
      | Some (JArr items) =>
          let lengthIssues :=
            match minLength with
            | Some (n, msg) =>
                if Nat.ltb (List.length items) n
                then [mkIssue too_small p msg] else []
            | None => []
            end in
          mergeArray lengthIssues
            ((fix each (i : nat) (xs : list json) {struct xs} : list parsed :=
                match xs with
                | [] => []
                | x :: xs' =>
                    parse element (p ++ [PIdx i]) (Some x) :: each (S i) xs'
                end) 0 items)
      | _ => INVALID [mkIssue invalid_type p None]
      end
  | ZObject shape =>
      match d with
      | Some (JObj o) =>
          mergeObjectSync
            ((fix each (sh : list (string * schema)) : list (string * parsed) :=
                match sh with
                | [] => []
                | (k, fs) :: sh' =>
                    (k, parse fs (p ++ [PKey k]) (assoc k o)) :: each sh'
                end) shape)
      | _ => INVALID [mkIssue invalid_type p None]
      end
  | ZOptional inner =>
      match d with
      | None => OK None
      | Some _ => parse inner p d
      end
  | ZDefault inner defaultValue =>
      match d with
      | None => parse inner p (Some defaultValue)
      | Some _ => parse inner p d
      end
  | ZUnion first second =>
      let r1 := parse first p d in
      match pstatus r1 with
      | valid => r1
      | _ =>
          let r2 := parse second p d in
          match pstatus r2 with
          | valid => r2
          | _ =>
              match pstatus r1, pstatus r2 with
              | dirty, _ => r1
              | _, dirty => r2
              | _, _ => INVALID [mkIssue invalid_union p None]
              end
          end
      end
  | ZRefine inner check message rpath =>
      let r := parse inner p d in
      match pstatus r with
      | aborted => INVALID (pissues r)
      | _ =>
          if check (pvalue r) then r
          else {| pstatus := dirty; pvalue := pvalue r;
                  pissues := pissues r
                             ++ [mkIssue custom (p ++ rpath) (Some message)] |}
      end
  end.

(** [schema.safeParse(data)]. *)
Inductive SafeParseReturn : Type :=
| Success (data : option json)
| Failure (errors : list issue).

Definition safeParse (s : schema) (data : option json) : SafeParseReturn :=
  let r := parse s [] data in
  match pstatus r with
  | valid => Success (pvalue r)
  | _ => Failure (pissues r)
  end.

End Zod.

(* ================================================================= *)
(** ** bin/config-schema.ts *)

Definition msg (s : string) : option string := Some s.

(** [data.k] on a parsed group. *)
Definition field (data : option json) (k : string) : option json :=
  get_path [k] data.

(** [v.length > 0] *)
Definition length_positive (v : option json) : bool :=
  match v with
  | Some (JArr items) => Nat.ltb 0 (List.length items)
  | Some (JStr s) => Nat.ltb 0 (String.length s)
  | _ => false
  end.

(** [v === s] for a string constant [s]. *)
Definition is_string (v : option json) (s : string) : bool :=
  match v with
  | Some (JStr x) => String.eqb x s
  | _ => false
  end.

(** [url.startsWith("https://")] *)
Definition starts_with_https (v : option json) : bool :=
  match v with
  | Some (JStr x) => String.prefix "https://" x
  | _ => false
  end.

Definition cls (cs : list (ascii -> bool)) : regex :=
  RClass (fun a => existsb (fun c => c a) cs).
Definition ch (c : ascii) : ascii -> bool := is_char c.

Definition SupportedRegionSchema : schema :=
  ZEnum [ "af-south-1"; "ap-east-1"; "ap-northeast-1"; "ap-northeast-2";
          "ap-northeast-3"; "ap-south-1"; "ap-south-2"; "ap-southeast-1";
          "ap-southeast-2"; "ap-southeast-3"; "ap-southeast-4"; "ca-central-1";
          "eu-central-1"; "eu-central-2"; "eu-north-1"; "eu-south-1";
          "eu-south-2"; "eu-west-1"; "eu-west-2"; "eu-west-3"; "il-central-1";
          "me-central-1"; "me-south-1"; "sa-east-1"; "us-east-1"; "us-east-2";
          "us-west-1"; "us-west-2" ].

(** *** VPC *)

(** [/^vpc-[a-f0-9]{8,17}$/] *)
Definition re_vpc_id : regex := rseq [rlit "vpc-"; rrange 8 17 (RClass hexlow)].
(** [/^subnet-[a-f0-9]{8,17}$/] *)
Definition re_subnet_id : regex :=
  rseq [rlit "subnet-"; rrange 8 17 (RClass hexlow)].
(** [/^vpce-[a-f0-9]+$/] *)
Definition re_vpce_id : regex := rseq [rlit "vpce-"; rplus (RClass hexlow)].
(** [/^(\d{1,3}\.){3}\d{1,3}$/] *)
Definition re_ipv4 : regex :=
  rseq [rexact 3 (RCat (rrange 1 3 (RClass digit)) (rlit "."));
        rrange 1 3 (RClass digit)].

(** If s3VpcEndpointIps is provided, s3VpcEndpointId must also be provided *)
Definition vpc_companion_rule (data : option json) : bool :=
  if truthy (field data "s3VpcEndpointIps")
     && length_positive (field data "s3VpcEndpointIps")
  then truthy (field data "s3VpcEndpointId")
  else true.

Definition VpcConfigShape : list (string * schema) :=
  [ ("vpcId",
     ZOptional (ZString [CRegex re_vpc_id
       (msg "Invalid VPC ID format. Expected: vpc-xxxxxxxx or vpc-xxxxxxxxxxxxxxxxx")]));
    ("subnetIds",
     ZOptional (ZArray
       (ZString [CRegex re_subnet_id
          (msg "Invalid subnet ID format. Expected: subnet-xxxxxxxx")])
       (Some (1, msg "At least one subnet ID is required when specifying subnetIds"))));
    ("executeApiVpcEndpointId",
     ZOptional (ZString [CRegex re_vpce_id
       (msg "Invalid VPC endpoint ID format. Expected: vpce-xxxxxxxx")]));
    ("s3VpcEndpointId",
     ZOptional (ZString [CRegex re_vpce_id
       (msg "Invalid S3 VPC endpoint ID format. Expected: vpce-xxxxxxxx")]));
    ("s3VpcEndpointIps",
     ZOptional (ZArray
       (ZString [CRegex re_ipv4
          (msg "Invalid IP address format. Expected: x.x.x.x")])
       None)) ].

Definition VpcConfigSchema : schema :=
  ZRefine (ZObject VpcConfigShape) vpc_companion_rule
    "s3VpcEndpointId is required when s3VpcEndpointIps is provided"
    [PKey "s3VpcEndpointId"].

(** *** Cognito federation *)

(** [/^[a-zA-Z0-9_-]+$/] *)
Definition re_name : regex := rplus (cls [alnum; ch "_"; ch "-"]).
(** [/^arn:aws:secretsmanager:[a-z0-9-]+:\d{12}:secret:.+$/] *)
Definition re_secret_arn : regex :=
  rseq [rlit "arn:aws:secretsmanager:"; rplus (cls [lower; digit; ch "-"]);
        rlit ":"; rexact 12 (RClass digit); rlit ":secret:";
        rplus (RClass anychar)].
(** [/^[a-z0-9-]+$/] *)
Definition re_cognito_domain : regex := rplus (cls [lower; digit; ch "-"]).

Definition CognitoFederationSAMLSchema : schema :=
  ZObject
    [ ("metadataDocumentUrl",
       ZRefine (ZString [CUrl (msg "Invalid SAML metadata URL")])
         starts_with_https "SAML metadata URL must use HTTPS" []) ].

Definition CognitoFederationOIDCSchema : schema :=
  ZObject
    [ ("OIDCClient",
       ZString [CMin 1 (msg "OIDC Client ID is required");
                CMax 255 (msg "OIDC Client ID must be at most 255 characters");
                CRegex re_name
                  (msg "OIDC Client ID must contain only alphanumeric characters, hyphens, and underscores")]);
      ("OIDCSecret",
       ZString [CRegex re_secret_arn
         (msg "Invalid Secrets Manager ARN format. Expected: arn:aws:secretsmanager:region:account-id:secret:name")]);
      ("OIDCIssuerURL",
       ZRefine (ZString [CUrl (msg "Invalid OIDC Issuer URL")])
         starts_with_https "OIDC Issuer URL must use HTTPS" []) ].

(** If enabled and type is SAML, customSAML must be provided *)
Definition saml_rule (data : option json) : bool :=
  if truthy (field data "enabled")
     && is_string (field data "customProviderType") "SAML"
  then truthy (get_path ["customSAML"; "metadataDocumentUrl"] data)
  else true.

(** If enabled and type is OIDC, customOIDC must be provided *)
Definition oidc_rule (data : option json) : bool :=
  if truthy (field data "enabled")
     && is_string (field data "customProviderType") "OIDC"
  then truthy (get_path ["customOIDC"; "OIDCClient"] data)
       && truthy (get_path ["customOIDC"; "OIDCSecret"] data)
       && truthy (get_path ["customOIDC"; "OIDCIssuerURL"] data)
  else true.

(** If enabled, customProviderName must be provided *)
Definition provider_name_rule (data : option json) : bool :=
  if truthy (field data "enabled")
     && negb (is_string (field data "customProviderType") "later")
  then truthy (field data "customProviderName")
  else true.

Definition CognitoFederationShape : list (string * schema) :=
  [ ("enabled", ZOptional ZBoolean);
    ("autoRedirect", ZOptional ZBoolean);
    ("customProviderName",
     ZOptional (ZString
       [CMin 1 (msg "Provider name is required when federation is enabled");
        CMax 32 (msg "Provider name must be at most 32 characters");
        CRegex re_name
          (msg "Provider name must contain only alphanumeric characters, hyphens, and underscores")]));
    ("customProviderType", ZOptional (ZEnum ["SAML"; "OIDC"; "later"]));
    ("cognitoDomain",
     ZOptional (ZString [CRegex re_cognito_domain
       (msg "Cognito domain must contain only lowercase letters, numbers, and hyphens")]));
    ("customSAML", ZOptional CognitoFederationSAMLSchema);
    ("customOIDC", ZOptional CognitoFederationOIDCSchema) ].

Definition CognitoFederationSchema : schema :=
  ZRefine
    (ZRefine
       (ZRefine (ZObject CognitoFederationShape) saml_rule
          "SAML metadata URL is required when provider type is SAML"
          [PKey "customSAML"; PKey "metadataDocumentUrl"])
       oidc_rule
       "OIDC configuration (OIDCClient, OIDCSecret, OIDCIssuerURL) is required when provider type is OIDC"
       [PKey "customOIDC"])
    provider_name_rule
    "Provider name is required when federation is enabled"
    [PKey "customProviderName"].

(** *** Bedrock guardrails *)

(** [/^[a-z0-9]+$/] *)
Definition re_guardrail_id : regex := rplus (cls [lower; digit]).

(** If enabled, identifier and version are required *)
Definition guardrail_rule (data : option json) : bool :=
  if truthy (field data "enabled")
  then truthy (field data "identifier") && truthy (field data "version")
  else true.

Definition BedrockGuardrailsSchema : schema :=
  ZRefine
    (ZObject
       [ ("enabled", ZBoolean);
         ("identifier",
          ZOptional (ZString [CRegex re_guardrail_id
            (msg "Guardrail identifier must contain only lowercase alphanumeric characters")]));
         ("version", ZOptional (ZString [])) ])
    guardrail_rule
    "Guardrail identifier and version are required when guardrails are enabled"
    [PKey "identifier"].

(** *** RAG (OpenSearch and Knowledge Base) *)

(** [/^[A-Z0-9]+$/] *)
Definition re_kb_id : regex := rplus (cls [upper; digit]).
(** [/^arn:aws:iam::\d{12}:role\/.+$/] *)
Definition re_role_arn : regex :=
  rseq [rlit "arn:aws:iam::"; rexact 12 (RClass digit); rlit ":role/";
        rplus (RClass anychar)].

Definition ExternalKnowledgeBaseSchema : schema :=
  ZObject
    [ ("name",
       ZString [CMin 1 (msg "Knowledge Base name is required");
                CRegex re_name
                  (msg "Name must contain only alphanumeric characters, hyphens, and underscores")]);
      ("knowledgeBaseId",
       ZString [CLength 10 (msg "Knowledge Base ID must be exactly 10 characters");
                CRegex re_kb_id (msg "Knowledge Base ID must be uppercase alphanumeric")]);
      ("region", ZOptional SupportedRegionSchema);
      ("roleArn",
       ZOptional (ZString [CRegex re_role_arn (msg "Invalid IAM role ARN format")]));
      ("enabled", ZDefault (ZOptional ZBoolean) (JBool true)) ].

Definition ModelConfigSchema : schema :=
  ZObject
    [ ("provider", ZEnum ["sagemaker"; "bedrock"; "openai"; "nexus"]);
      ("name", ZString [CMin 1 (msg "Model name is required")]);
      ("dimensions",
       ZOptional (ZNumber [NPositive (msg "Dimensions must be a positive number")]));
      ("default", ZOptional ZBoolean) ].

(** If RAG is enabled, at least one engine should be enabled *)
Definition rag_engine_rule (data : option json) : bool :=
  if truthy (field data "enabled")
  then truthy (get_path ["engines"; "opensearch"; "enabled"] data)
       || truthy (get_path ["engines"; "knowledgeBase"; "enabled"] data)
  else true.

Definition RagEnginesSchema : schema :=
  ZObject
    [ ("opensearch", ZOptional (ZObject [("enabled", ZBoolean)]));
      ("knowledgeBase",
       ZOptional (ZObject
         [ ("enabled", ZBoolean);
           ("external", ZOptional (ZArray ExternalKnowledgeBaseSchema None)) ])) ].

Definition RagConfigShape : list (string * schema) :=
  [ ("enabled", ZOptional ZBoolean);
    ("crossEncodingEnabled", ZOptional ZBoolean);
    ("engines", ZOptional RagEnginesSchema);
    ("embeddingsModels", ZOptional (ZArray ModelConfigSchema None));
    ("crossEncoderModels", ZOptional (ZArray ModelConfigSchema None)) ].

Definition RagConfigSchema : schema :=
  ZRefine (ZObject RagConfigShape) rag_engine_rule
    "At least one RAG engine (OpenSearch or Knowledge Base) must be enabled when RAG is enabled"
    [PKey "engines"].

(** *** CI/CD pipeline *)

(** [/^[a-zA-Z0-9._-]+$/] *)
Definition re_repo_name : regex := rplus (cls [alnum; ch "."; ch "_"; ch "-"]).

(** Must provide either existingRepositoryName OR createNew (not both) *)
Definition codecommit_exclusive_rule (data : option json) : bool :=
  let hasExisting := truthy (field data "existingRepositoryName") in
  let hasNew := truthy (field data "createNew") in
  negb (Bool.eqb hasExisting hasNew).

(** If createNew is true, newRepositoryName is required *)
Definition new_repository_rule (data : option json) : bool :=
  if truthy (field data "createNew")
  then truthy (field data "newRepositoryName")
  else true.

Definition repository_name : schema :=
  ZString [CMin 1 None; CMax 100 None;
           CRegex re_repo_name
             (msg "Invalid CodeCommit repository name. Only alphanumeric, dots, hyphens, and underscores.")].

Definition PipelineCodeCommitShape : list (string * schema) :=
  [ ("existingRepositoryName", ZOptional repository_name);
    ("createNew", ZOptional ZBoolean);
    ("newRepositoryName", ZOptional repository_name);
    ("seedOnCreate", ZDefault (ZOptional ZBoolean) (JBool false)) ].

Definition PipelineCodeCommitSchema : schema :=
  ZRefine
    (ZRefine (ZObject PipelineCodeCommitShape) codecommit_exclusive_rule
       "Provide either existingRepositoryName OR createNew: true, not both" [])
    new_repository_rule
    "newRepositoryName is required when createNew is true"
    [PKey "newRepositoryName"].

Definition PipelineConfigSchema : schema :=
  ZObject
    [ ("enabled", ZBoolean);
      ("codecommit", PipelineCodeCommitSchema);
      ("branch", ZDefault (ZString [CMin 1 None]) (JStr "main"));
      ("requireApproval", ZDefault (ZOptional ZBoolean) (JBool true));
      ("notificationEmail",
       ZOptional (ZString [CEmail (msg "Invalid email address")])) ].

(** *** The deployment manifest *)

(** [/^[a-zA-Z][a-zA-Z0-9-]*$/] *)
Definition re_prefix : regex :=
  rseq [cls [lower; upper]; RStar (cls [alnum; ch "-"])].
(** [/^[a-z0-9][a-z0-9.-]*[a-z0-9]$/] *)
Definition re_bucket_name : regex :=
  rseq [cls [lower; digit]; RStar (cls [lower; digit; ch "."; ch "-"]);
        cls [lower; digit]].
(** [/^arn:aws:acm:[a-z0-9-]+:\d{12}:certificate\/[a-f0-9-]+$/] *)
Definition re_certificate_arn : regex :=
  rseq [rlit "arn:aws:acm:"; rplus (cls [lower; digit; ch "-"]); rlit ":";
        rexact 12 (RClass digit); rlit ":certificate/";
        rplus (cls [hexlow; ch "-"])].
(** [/^([a-zA-Z0-9]([a-zA-Z0-9-]{0,61}[a-zA-Z0-9])?\.)+[a-zA-Z]{2,}$/] *)
Definition re_domain : regex :=
  rseq [rplus (rseq [cls [alnum];
                     ropt (RCat (rupto 61 (cls [alnum; ch "-"])) (cls [alnum]));
                     rlit "."]);
        ratleast 2 (cls [lower; upper])].

Definition logArchiveBucketNameSchema : schema :=
  ZUnion
    (ZOptional (ZString
       [CMin 3 (msg "S3 bucket name must be at least 3 characters");
        CMax 63 (msg "S3 bucket name must be at most 63 characters");
        CRegex re_bucket_name
          (msg "Invalid S3 bucket name format. Must start and end with lowercase letter or number.")]))
    (ZLiteral "").

Definition certificateSchema : schema :=
  ZUnion
    (ZOptional (ZString
       [CRegex re_certificate_arn (msg "Invalid ACM certificate ARN format")]))
    (ZLiteral "").

Definition domainSchema : schema :=
  ZUnion
    (ZOptional (ZString
       [CRegex re_domain (msg "Invalid domain format. Example: chat.example.com")]))
    (ZLiteral "").

Definition DeploymentManifestShape : list (string * schema) :=
  [ ("prefix",
     ZString [CMin 1 (msg "Prefix is required");
              CMax 16 (msg "Prefix must be at most 16 characters");
              CRegex re_prefix
                (msg "Prefix must start with a letter and contain only letters, numbers, and hyphens")]);
    ("enableWaf", ZOptional ZBoolean);
    ("createCMKs", ZOptional ZBoolean);
    ("advancedMonitoring", ZOptional ZBoolean);
    ("disableS3AccessLogs", ZOptional ZBoolean);
    ("logArchiveBucketName", logArchiveBucketNameSchema);
    ("privateWebsite", ZOptional ZBoolean);
    ("certificate", certificateSchema);
    ("domain", domainSchema);
    ("vpc", ZOptional VpcConfigSchema);
    ("cognitoFederation", ZOptional CognitoFederationSchema);
    ("bedrock", ZOptional (ZObject [("guardrails", ZOptional BedrockGuardrailsSchema)]));
    ("rag", ZOptional RagConfigSchema);
    ("pipeline", ZOptional PipelineConfigSchema) ].

Definition DeploymentManifestSchema : schema :=
  ZObject DeploymentManifestShape.

(** *** formatValidationErrors *)

Definition string_of_nat (n : nat) : string :=
  NilEmpty.string_of_uint (Nat.to_uint n).

Definition pelem_to_string (e : pelem) : string :=
  match e with
  | PKey k => k
  | PIdx i => string_of_nat i
  end.

(** [err.path.join(".")] *)
Definition path_join (p : list pelem) : string :=
  String.concat "." (map pelem_to_string p).

Section Format.

(** Zod's error map: the text of an issue that carries no message of the
    schema. *)
Variable errorMap : issue -> string.

Definition issue_message (e : issue) : string :=
  match imessage e with
  | Some m => m
  | None => errorMap e
  end.

Definition format_line (e : issue) : string :=
  let path := path_join (ipath e) in
  "  - " ++ (if String.eqb path "" then "root" else path) ++ ": "
         ++ issue_message e.

Definition formatValidationErrors (errors : list issue) : string :=
  String.concat (String "010"%char EmptyString) (map format_line errors).

End Format.

(* ================================================================= *)
(** ** bin/config-loader.ts: applyManifestOverrides *)

(** One call of [logOverride(path, oldValue, newValue)]. *)
Record ChangeRecord : Type := {
  cpath : string;
  oldValue : option json;
  newValue : option json
}.

(** The mutable state of [applyManifestOverrides]: the clone [config], the
    counter [overrideCount] and the lines printed by [logOverride]. *)
Record MergeState : Type := {
  config : json;
  overrideCount : nat;
  overrides : list ChangeRecord
}.

Definition step : Type := MergeState -> outcome MergeState.

Definition skip : step := fun st => Ok st.
Definition seq (s1 s2 : step) : step := fun st => st' <- s1 st ;; s2 st'.
Notation "s1 >> s2" := (seq s1 s2) (at level 62, right associativity).

Definition logOverride (path : string) (old new : option json)
                       (st : MergeState) : MergeState :=
  {| config := config st;
     overrideCount := overrideCount st;
     overrides := overrides st
                  ++ [{| cpath := path; oldValue := old; newValue := new |}] |}.

Definition is_empty_string (v : json) : bool :=
  match v with
  | JStr s => String.eqb s ""
  | _ => false
  end.

(** [v?.k] *)
Definition optionalProp (v : option json) (k : string) : outcome (option json) :=
  match v with
  | None => Ok None
  | Some JNull => Ok None
  | _ => getProp v k
  end.

Section Merge.

Variable manifest : json.

(** [logOverride(q, config.q, x); config.q = x; overrideCount++;] *)
Definition applyOverride (q : list string) (x : json) : step := fun st =>
  old <- readPath q (Some (config st)) ;;
  let st1 := logOverride (dotted q) old (Some x) st in
  c <- assignPath q x (Some (config st1)) ;;
  Ok {| config := c;
        overrideCount := S (overrideCount st1);
        overrides := overrides st1 |}.

(** [if (manifest.q !== undefined) { ... }] *)
Definition overrideField (q : list string) : step := fun st =>
  v <- readPath q (Some manifest) ;;
  match v with
  | Some x => applyOverride q x st
  | None => Ok st
  end.

(** [if (manifest.q !== undefined && manifest.q !== "") { ... }] *)
Definition overrideFieldUnlessEmpty (q : list string) : step := fun st =>
  v <- readPath q (Some manifest) ;;
  match v with
  | Some x => if is_empty_string x then Ok st else applyOverride q x st
  | None => Ok st
  end.

(** [if (manifest.g !== undefined) { body }] *)
Definition whenDefined (g : list string) (body : step) : step := fun st =>
  v <- readPath g (Some manifest) ;;
  if defined v then body st else Ok st.

(** [if (manifest.bedrock?.guardrails !== undefined) { body }] *)
Definition whenGuardrails (body : step) : step := fun st =>
  b <- getProp (Some manifest) "bedrock" ;;
  v <- optionalProp b "guardrails" ;;
  if defined v then body st else Ok st.

(** [if (!config.g) { config.g = init; }] *)
Definition ensureGroup (g : list string) (init : json) : step := fun st =>
  v <- readPath g (Some (config st)) ;;
  if truthy v then Ok st
  else
    c <- assignPath g init (Some (config st)) ;;
    Ok {| config := c;
          overrideCount := overrideCount st;
          overrides := overrides st |}.

(** The pipeline group is rebuilt from the manifest and assigned whole. *)
Definition replacePipeline : step := fun st =>
  old <- getProp (Some (config st)) "pipeline" ;;
  new <- getProp (Some manifest) "pipeline" ;;
  let st1 := logOverride "pipeline" old new st in
  enabled <- getProp new "enabled" ;;
  codecommit <- getProp new "codecommit" ;;
  existingRepositoryName <- getProp codecommit "existingRepositoryName" ;;
  createNew <- getProp codecommit "createNew" ;;
  newRepositoryName <- getProp codecommit "newRepositoryName" ;;
  seedOnCreate <- getProp codecommit "seedOnCreate" ;;
  branch <- getProp new "branch" ;;
  requireApproval <- getProp new "requireApproval" ;;
  notificationEmail <- getProp new "notificationEmail" ;;
  let pipeline :=
    JObj (object_literal
      [ ("enabled", enabled);
        ("codecommit",
         Some (JObj (object_literal
           [ ("existingRepositoryName", existingRepositoryName);
             ("createNew", createNew);
             ("newRepositoryName", newRepositoryName);
             ("seedOnCreate", seedOnCreate) ])));
        ("branch", branch);
        ("requireApproval", Some (nullish_or requireApproval (JBool true)));
        ("notificationEmail", notificationEmail) ]) in
  c <- setProp (Some (config st1)) "pipeline" pipeline ;;
  Ok {| config := c;
        overrideCount := S (overrideCount st1);
        overrides := overrides st1 |}.

Definition guardrailsDefaults : json :=
  JObj [("enabled", JBool false); ("identifier", JStr ""); ("version", JStr "")].

(** The statements of [applyManifestOverrides] after the clone, in source
    order. *)
Definition overrideStatements : step :=
  (* Core deployment settings *)
  overrideField ["prefix"] >>
  overrideField ["enableWaf"] >>
  overrideField ["createCMKs"] >>
  overrideField ["advancedMonitoring"] >>
  (* Logging *)
  overrideField ["disableS3AccessLogs"] >>
  overrideFieldUnlessEmpty ["logArchiveBucketName"] >>
  (* Website *)
  overrideField ["privateWebsite"] >>
  overrideField ["certificate"] >>
  overrideField ["domain"] >>
  (* VPC *)
  whenDefined ["vpc"]
    (ensureGroup ["vpc"] (JObj []) >>
     overrideField ["vpc"; "vpcId"] >>
     overrideField ["vpc"; "subnetIds"] >>
     overrideField ["vpc"; "executeApiVpcEndpointId"] >>
     overrideField ["vpc"; "s3VpcEndpointId"] >>
     overrideField ["vpc"; "s3VpcEndpointIps"]) >>
  (* Cognito federation *)
  whenDefined ["cognitoFederation"]
    (ensureGroup ["cognitoFederation"] (JObj []) >>
     overrideField ["cognitoFederation"; "enabled"] >>
     overrideField ["cognitoFederation"; "autoRedirect"] >>
     overrideField ["cognitoFederation"; "customProviderName"] >>
     overrideField ["cognitoFederation"; "customProviderType"] >>
     overrideField ["cognitoFederation"; "cognitoDomain"] >>
     whenDefined ["cognitoFederation"; "customSAML"]
       (ensureGroup ["cognitoFederation"; "customSAML"] (JObj []) >>
        overrideField ["cognitoFederation"; "customSAML"; "metadataDocumentUrl"]) >>
     whenDefined ["cognitoFederation"; "customOIDC"]
       (ensureGroup ["cognitoFederation"; "customOIDC"] (JObj []) >>
        overrideField ["cognitoFederation"; "customOIDC"; "OIDCClient"] >>
        overrideField ["cognitoFederation"; "customOIDC"; "OIDCSecret"] >>
        overrideField ["cognitoFederation"; "customOIDC"; "OIDCIssuerURL"])) >>
  (* Bedrock guardrails *)
  whenGuardrails
    (ensureGroup ["bedrock"] (JObj []) >>
     ensureGroup ["bedrock"; "guardrails"] guardrailsDefaults >>
     overrideField ["bedrock"; "guardrails"; "enabled"] >>
     overrideField ["bedrock"; "guardrails"; "identifier"] >>
     overrideField ["bedrock"; "guardrails"; "version"]) >>
  (* RAG *)
  whenDefined ["rag"]
    (overrideField ["rag"; "enabled"] >>
     overrideField ["rag"; "crossEncodingEnabled"] >>
     whenDefined ["rag"; "engines"]
       (whenDefined ["rag"; "engines"; "opensearch"]
          (overrideField ["rag"; "engines"; "opensearch"; "enabled"]) >>
        whenDefined ["rag"; "engines"; "knowledgeBase"]
          (overrideField ["rag"; "engines"; "knowledgeBase"; "enabled"] >>
           overrideField ["rag"; "engines"; "knowledgeBase"; "external"])) >>
     overrideField ["rag"; "embeddingsModels"] >>
     overrideField ["rag"; "crossEncoderModels"]) >>
  (* CI/CD pipeline *)
  whenDefined ["pipeline"] replacePipeline.

End Merge.

(** [JSON.parse(JSON.stringify(baseConfig))]: a [json] tree is its own
    JSON round trip. *)
Definition deepClone (v : json) : json := v.

Definition applyManifestOverrides (baseConfig manifest : json)
  : outcome MergeState :=
  overrideStatements manifest
    {| config := deepClone baseConfig; overrideCount := 0; overrides := [] |}.

(* ================================================================= *)
(** ** bin/config-loader.ts: locating and loading the manifest *)

Inductive exn : Type :=
| ReadFailed (path : string)
| YamlParseFailed (path : string)
| ValidationFailed (report : string)
| ThrownTypeError.

Inductive result (A : Type) : Type :=
| Returned (a : A)
| Thrown (e : exn).
Arguments Returned {A} a.
Arguments Thrown {A} e.

Section Loader.

(** The environment of one call. *)
Variable DEPLOYMENT_MANIFEST : option string.          (* process.env *)
Variable existsSync : string -> bool.
Variable readFileSync : string -> option string.       (* [None]: throws *)
Variable yaml_load : string -> option (option json).   (* [None]: throws *)
Variable getConfig : json.                             (* config.json *)
Variable is_url : string -> bool.
Variable is_email : string -> bool.
Variable errorMap : issue -> string.

(** [[...].filter(Boolean)] *)
Definition searchPaths : list string :=
  match DEPLOYMENT_MANIFEST with
  | Some p => if String.eqb p "" then [] else [p]
  | None => []
  end ++ ["deployment-manifest.yaml"; "deployment-manifest.yml"].

Definition findManifestFile : option string := find existsSync searchPaths.

Definition loadDeploymentManifest : result (option json) :=
  match findManifestFile with
  | None => Returned None
  | Some manifestPath =>
      match readFileSync manifestPath with
      | None => Thrown (ReadFailed manifestPath)
      | Some yamlContent =>
          match yaml_load yamlContent with
          | None => Thrown (YamlParseFailed manifestPath)
          | Some parsed =>
              match safeParse is_url is_email DeploymentManifestSchema parsed with
              | Failure errors =>
                  Thrown (ValidationFailed (formatValidationErrors errorMap errors))
              | Success data => Returned data
              end
          end
      end
  end.

(** [loadConfig] returns the configuration; the change records it printed
    on the way are returned with it. *)
Definition loadConfig : result (json * list ChangeRecord) :=
  let baseConfig := getConfig in
  match loadDeploymentManifest with
  | Thrown e => Thrown e
  | Returned manifest =>
      match manifest with
      | None => Returned (baseConfig, [])
      | Some m =>
          if truthy manifest then
            match applyManifestOverrides baseConfig m with
            | Ok st => Returned (config st, overrides st)
            | TypeError => Thrown ThrownTypeError
            end
          else Returned (baseConfig, [])
      end
  end.

(** [validateManifest]: the export used by the tests. *)
Definition validateManifest (manifest : option json)
  : SafeParseReturn * option string :=
  match safeParse is_url is_email DeploymentManifestSchema manifest with
  | Success data => (Success data, None)
  | Failure errors => (Failure errors, Some (formatValidationErrors errorMap errors))
  end.

End Loader.

(* ================================================================= *)
(** ** Vocabulary of the properties *)

Definition is_object (v : option json) : bool :=
  match v with Some (JObj _) => true | _ => false end.

(** [p] and [q] part ways at some component. *)
Fixpoint diverge (p q : list string) : bool :=
  match p, q with
  | a :: p', b :: q' => if String.eqb a b then diverge p' q' else true
  | _, _ => false
  end.

(** [p] is [q] followed by at least one more component. *)
Fixpoint extends (p q : list string) : bool :=
  match p, q with
  | _ :: _, [] => true
  | a :: p', b :: q' => String.eqb a b && extends p' q'
  | [], _ => false
  end.

(** [p] is a prefix of [q], possibly [q] itself. *)
Fixpoint prefix_of (p q : list string) : bool :=
  match p, q with
  | [], _ => true
  | a :: p', b :: q' => String.eqb a b && prefix_of p' q'
  | _ :: _, [] => false
  end.

(** The fields [applyManifestOverrides] overrides one at a time, in source
    order: the scalar ones and the list-valued ones. *)
Definition scalar_paths : list (list string) :=
  [ ["prefix"]; ["enableWaf"]; ["createCMKs"]; ["advancedMonitoring"];
    ["disableS3AccessLogs"]; ["logArchiveBucketName"];
    ["privateWebsite"]; ["certificate"]; ["domain"];
    ["vpc"; "vpcId"]; ["vpc"; "executeApiVpcEndpointId"]; ["vpc"; "s3VpcEndpointId"];
    ["cognitoFederation"; "enabled"]; ["cognitoFederation"; "autoRedirect"];
    ["cognitoFederation"; "customProviderName"];
    ["cognitoFederation"; "customProviderType"];
    ["cognitoFederation"; "cognitoDomain"];
    ["cognitoFederation"; "customSAML"; "metadataDocumentUrl"];
    ["cognitoFederation"; "customOIDC"; "OIDCClient"];
    ["cognitoFederation"; "customOIDC"; "OIDCSecret"];
    ["cognitoFederation"; "customOIDC"; "OIDCIssuerURL"];
    ["bedrock"; "guardrails"; "enabled"];
    ["bedrock"; "guardrails"; "identifier"];
    ["bedrock"; "guardrails"; "version"];
    ["rag"; "enabled"]; ["rag"; "crossEncodingEnabled"];
    ["rag"; "engines"; "opensearch"; "enabled"];
    ["rag"; "engines"; "knowledgeBase"; "enabled"] ].

Definition list_paths : list (list string) :=
  [ ["vpc"; "subnetIds"]; ["vpc"; "s3VpcEndpointIps"];
    ["rag"; "engines"; "knowledgeBase"; "external"];
    ["rag"; "embeddingsModels"]; ["rag"; "crossEncoderModels"] ].

Definition override_paths : list (list string) := scalar_paths ++ list_paths.

(** The scalar fields of the pipeline group; they are never overridden one
    at a time. *)
Definition pipeline_scalar_paths : list (list string) :=
  [ ["pipeline"; "enabled"]; ["pipeline"; "branch"];
    ["pipeline"; "requireApproval"]; ["pipeline"; "notificationEmail"];
    ["pipeline"; "codecommit"; "existingRepositoryName"];
    ["pipeline"; "codecommit"; "createNew"];
    ["pipeline"; "codecommit"; "newRepositoryName"];
    ["pipeline"; "codecommit"; "seedOnCreate"] ].


(** The three fields a guardrails group is created with. *)
Definition guardrails_fields : list (list string) :=
  [ ["bedrock"; "guardrails"; "enabled"];
    ["bedrock"; "guardrails"; "identifier"];
    ["bedrock"; "guardrails"; "version"] ].

(** A path of the configuration tree: it does not run through a field that
    the loader treats as a leaf. *)
Definition field_path (p : list string) : bool :=
  forallb (fun q => negb (extends p q)) override_paths.

(** Number of change records that name [path]. *)
Definition records_for (path : string) (log : list ChangeRecord) : nat :=
  List.length (filter (fun r => String.eqb (cpath r) path) log).

(** A statement related to the states it connects. *)
Definition rel (R : MergeState -> MergeState -> Prop) (s : step) : Prop :=
  forall st st', s st = Ok st' -> R st st'.

Definition cfg (st : MergeState) : option json := Some (config st).

(** [q] is left alone: same value, no new record. *)
Definition untouched (q : list string) (st st' : MergeState) : Prop :=
  get_path q (cfg st') = get_path q (cfg st)
  /\ records_for (dotted q) (overrides st') = records_for (dotted q) (overrides st).

(** [q] keeps the value [v] once it has it, and gets no new record. *)
Definition keeps (q : list string) (v : json) (st st' : MergeState) : Prop :=
  (get_path q (cfg st) = Some v -> get_path q (cfg st') = Some v)
  /\ records_for (dotted q) (overrides st') = records_for (dotted q) (overrides st).

(** [q] is set to [v] under exactly one new record. *)
Definition sets (q : list string) (v : json) (st st' : MergeState) : Prop :=
  get_path q (cfg st') = Some v
  /\ records_for (dotted q) (overrides st')
     = S (records_for (dotted q) (overrides st)).

Fixpoint path_eqb (p q : list string) : bool :=
  match p, q with
  | [], [] => true
  | a :: p', b :: q' => String.eqb a b && path_eqb p' q'
  | _, _ => false
  end.

Definition mem_path (q : list string) (l : list (list string)) : bool :=
  existsb (path_eqb q) l.

(** The relation a statement of the merge keeps with respect to a path [p]
    that the manifest [m] omits: a guardrails group that exists stays, and
    [p] keeps its value unless it is one of the three fields a missing
    guardrails group is created with. *)
Definition guardrails_group : list string := ["bedrock"; "guardrails"].

Definition framed (m : json) (p : list string) (st st' : MergeState) : Prop :=
  (truthy (get_path guardrails_group (cfg st)) = true ->
   truthy (get_path guardrails_group (cfg st')) = true)
  /\ (get_path guardrails_group (Some m) = None
      \/ truthy (get_path guardrails_group (cfg st)) = true
      \/ mem_path p guardrails_fields = false ->
      get_path p (cfg st') = get_path p (cfg st)).

Definition absent_or_object (v : option json) : bool :=
  match v with
  | None => true
  | Some (JObj _) => true
  | Some _ => false
  end.

(** The groups of the configuration that may be missing, and those that
    [applyManifestOverrides] dereferences without a test. *)
Definition optional_groups : list (list string) :=
  [ ["vpc"]; ["cognitoFederation"];
    ["cognitoFederation"; "customSAML"]; ["cognitoFederation"; "customOIDC"];
    ["bedrock"]; ["bedrock"; "guardrails"] ].

Definition required_groups : list (list string) :=
  [ []; ["rag"]; ["rag"; "engines"]; ["rag"; "engines"; "opensearch"];
    ["rag"; "engines"; "knowledgeBase"] ].

Definition groups_ok (objs : list (list string)) (c : json) : bool :=
  forallb (fun g => absent_or_object (get_path g (Some c))) optional_groups
  && forallb (fun g => is_object (get_path g (Some c))) objs.

(** Modelled from the spec: the type [SystemConfig] of lib/shared/types,
    which is not among the sources.  The spec describes it as a tree of
    scalar fields and named nested groups in which an absent optional group
    is undefined, never partially constructed; the groups the loader
    dereferences without a test (the configuration itself, [rag], its
    [engines] and the two engines) are the required ones. *)
Definition SystemConfig_shape (c : json) : bool := groups_ok required_groups c.

(** The groups of a manifest. *)
Definition manifest_groups : list (list string) :=
  [ ["vpc"]; ["cognitoFederation"];
    ["cognitoFederation"; "customSAML"]; ["cognitoFederation"; "customOIDC"];
    ["bedrock"]; ["bedrock"; "guardrails"];
    ["rag"]; ["rag"; "engines"]; ["rag"; "engines"; "opensearch"];
    ["rag"; "engines"; "knowledgeBase"]; ["pipeline"] ].

(** What the type [DeploymentManifest] says about groups: a manifest is an
    object, each of its groups is an object or missing, and a pipeline
    group has its [codecommit] group. *)
Definition DeploymentManifest_shape (m : json) : bool :=
  is_object (Some m)
  && forallb (fun g => absent_or_object (get_path g (Some m))) manifest_groups
  && (negb (defined (get_path ["pipeline"] (Some m)))
      || is_object (get_path ["pipeline"; "codecommit"] (Some m))).

(** A statement completes from every state that satisfies [P], in a state
    that satisfies [Q]. *)
Definition completes (P : json -> Prop) (s : step) (Q : json -> Prop) : Prop :=
  forall st, P (config st) -> exists st', s st = Ok st' /\ Q (config st').

(** The fields of an object and the items of an array, parsed in order:
    the two inner loops of [parse]. *)
Definition parse_fields (is_url is_email : string -> bool)
    (shape : list (string * schema)) (p : list pelem) (o : list (string * json))
  : list (string * parsed) :=
  map (fun ks => (fst ks,
                  parse is_url is_email (snd ks) (p ++ [PKey (fst ks)])
                        (assoc (fst ks) o)))
      shape.

Fixpoint parse_items (is_url is_email : string -> bool)
    (element : schema) (p : list pelem) (i : nat) (xs : list json)
  : list parsed :=
  match xs with
  | [] => []
  | x :: xs' =>
      parse is_url is_email element (p ++ [PIdx i]) (Some x)
      :: parse_items is_url is_email element p (S i) xs'
  end.

Definition keys (g : list string) : list pelem := map PKey g.

(** The schema without its optional, default and refinement wrappers. *)
Fixpoint strip (s : schema) : schema :=
  match s with
  | ZOptional s' => strip s'
  | ZDefault s' _ => strip s'
  | ZRefine s' _ _ _ => strip s'
  | _ => s
  end.

Fixpoint shape_lookup (k : string) (shape : list (string * schema))
  : option schema :=
  match shape with
  | [] => None
  | (k', s) :: shape' => if String.eqb k k' then Some s else shape_lookup k shape'
  end.

(** The schema of the field at path [g] below [s]. *)
Fixpoint node_at (s : schema) (g : list string) : option schema :=
  match g with
  | [] => Some s
  | k :: g' =>
      match strip s with
      | ZObject shape =>
          match shape_lookup k shape with
          | Some fs => node_at fs g'
          | None => None
          end
      | _ => None
      end
  end.

(** No object schema names a key twice (a JavaScript object literal cannot). *)
Fixpoint distinct_keys (s : schema) : bool :=
  match s with
  | ZObject shape =>
      (fix all (sh : list (string * schema)) : bool :=
         match sh with
         | [] => true
         | (k, fs) :: sh' =>
             negb (existsb (fun ks => String.eqb k (fst ks)) sh')
             && distinct_keys fs && all sh'
         end) shape
  | ZArray e _ => distinct_keys e
  | ZOptional s' => distinct_keys s'
  | ZDefault s' _ => distinct_keys s'
  | ZUnion a b => distinct_keys a && distinct_keys b
  | ZRefine s' _ _ _ => distinct_keys s'
  | _ => true
  end.

(** The object skeleton of a value parsed by [s]. *)
Fixpoint skeleton (s : schema) (v : option json) : Prop :=
  match s with
  | ZObject shape =>
      exists o, v = Some (JObj o) /\
        (fix all (sh : list (string * schema)) : Prop :=
           match sh with
           | [] => True
           | (k, fs) :: sh' => skeleton fs (assoc k o) /\ all sh'
           end) shape
  | ZOptional s' => v = None \/ skeleton s' v
  | ZDefault s' _ => skeleton s' v
  | ZRefine s' _ _ _ => skeleton s' v
  | _ => True
  end.

(** An issue reported at [p] or below. *)
Definition below (p : list pelem) (e : issue) : Prop :=
  exists r, ipath e = p ++ r.

(** A group that is there stays; a group is there afterwards. *)
Definition stays (g : list string) (st st' : MergeState) : Prop :=
  truthy (get_path g (cfg st)) = true -> truthy (get_path g (cfg st')) = true.

Definition made (g : list string) (st st' : MergeState) : Prop :=
  truthy (get_path g (cfg st')) = true.

(** [delete o[k]] *)
Fixpoint assoc_remove (k : string) (o : list (string * json))
  : list (string * json) :=
  match o with
  | [] => []
  | (k', v) :: o' =>
      if String.eqb k k' then assoc_remove k o' else (k', v) :: assoc_remove k o'
  end.

Definition succeeds (r : SafeParseReturn) : bool :=
  match r with Success _ => true | Failure _ => false end.

(** *** Sample documents *)

Definition model (provider name : string) : json :=
  JObj [("provider", JStr provider); ("name", JStr name)].

Definition sample_base : json :=
  JObj
    [ ("prefix", JStr "genai");
      ("enableWaf", JBool false);
      ("logArchiveBucketName", JStr "central-logs");
      ("certificate",
       JStr "arn:aws:acm:us-east-1:123456789012:certificate/0a1b2c3d");
      ("vpc", JObj [("vpcId", JStr "vpc-0123456789abcdef0");
                    ("subnetIds", JArr [JStr "subnet-0123456789abcdef0"])]);
      ("rag",
       JObj [ ("enabled", JBool true);
              ("engines",
               JObj [ ("opensearch", JObj [("enabled", JBool true)]);
                      ("knowledgeBase", JObj [("enabled", JBool false)]) ]);
              ("embeddingsModels",
               JArr [ model "bedrock" "amazon.titan-embed-text-v1";
                      model "bedrock" "cohere.embed-english-v3";
                      model "sagemaker" "intfloat/multilingual-e5-large" ]);
              ("crossEncoderModels", JArr []) ]);
      ("pipeline",
       JObj [ ("enabled", JBool true);
              ("codecommit", JObj [("existingRepositoryName", JStr "chatbot")]);
              ("branch", JStr "main");
              ("requireApproval", JBool true);
              ("notificationEmail", JStr "ops@example.com") ]) ].

Definition accept_all (s : string) : bool := true.

(** The refinements wrapped around a schema, innermost first. *)
Fixpoint rules_of (s : schema)
  : list ((option json -> bool) * string * list pelem) :=
  match s with
  | ZRefine s' chk message rp => rules_of s' ++ [(chk, message, rp)]
  | ZOptional s' => rules_of s'
  | ZDefault s' _ => rules_of s'
  | _ => []
  end.

(** The field at [g] is parsed: every group on the way to it is an object
    of the document [d]. *)
Definition reached (d : option json) (g : list string) : Prop :=
  g <> [] -> is_object (get_path (removelast g) d) = true.

(** *** Vocabulary of the validation claims *)

Definition string_or_absent (v : option json) : bool :=
  match v with
  | None => true
  | Some (JStr _) => true
  | Some _ => false
  end.

Definition strings_or_absent (v : option json) : bool :=
  match v with
  | None => true
  | Some (JArr items) =>
      forallb (fun x => match x with JStr _ => true | _ => false end) items
  | Some _ => false
  end.

(** Every field of a vpc group has the primitive type its schema expects. *)
Definition vpc_fields_typed (vpc : list (string * json)) : bool :=
  string_or_absent (assoc "vpcId" vpc)
  && strings_or_absent (assoc "subnetIds" vpc)
  && string_or_absent (assoc "executeApiVpcEndpointId" vpc)
  && string_or_absent (assoc "s3VpcEndpointId" vpc)
  && strings_or_absent (assoc "s3VpcEndpointIps" vpc).

(** The error of the companion rule. *)
Definition companion_issue : issue :=
  mkIssue custom [PKey "vpc"; PKey "s3VpcEndpointId"]
          (Some "s3VpcEndpointId is required when s3VpcEndpointIps is provided").

(** What a [pipeline.codecommit] section of a document supplies. *)
Definition supplies_existing (codecommit : json) : bool :=
  defined (get_path ["existingRepositoryName"] (Some codecommit)).

Definition creates_new (codecommit : json) : bool :=
  match get_path ["createNew"] (Some codecommit) with
  | Some (JBool true) => true
  | _ => false
  end.

(** The field at [g] of the document [d] is parsed and rejected by its own
    schema. *)
Definition rejected (is_url is_email : string -> bool)
    (d : option json) (g : list string) : Prop :=
  exists s', node_at DeploymentManifestSchema g = Some s'
    /\ reached d g
    /\ pstatus (parse is_url is_email s' (keys g) (get_path g d)) <> valid.

(** The group at [g] of the document [d] is parsed, none of its fields has
    a type error, and the refinement [chk] of its schema fails on it. *)
Definition rule_violated (is_url is_email : string -> bool)
    (d : option json) (g : list string)
    (chk : option json -> bool) (message : string) (rp : list pelem) : Prop :=
  exists s', node_at DeploymentManifestSchema g = Some s'
    /\ In (chk, message, rp) (rules_of s')
    /\ reached d g
    /\ get_path g d <> None
    /\ pstatus (parse is_url is_email (strip s') (keys g) (get_path g d))
       <> aborted
    /\ chk (pvalue (parse is_url is_email (strip s') (keys g) (get_path g d)))
       = false.

(** *** The exhaustiveness claim in the words of the specification

    A constraint is the own check of a field or a cross-field rule of a
    group, read on the document itself; constraints are independent when
    they bear on distinct fields. *)
Inductive constraint : Type :=
| FieldCheck (g : list string)
| GroupRule (g : list string) (chk : option json -> bool)
            (message : string) (rp : list pelem).

Definition constrained_field (c : constraint) : list pelem :=
  match c with
  | FieldCheck g => keys g
  | GroupRule g _ _ rp => keys g ++ rp
  end.

Definition violates (is_url is_email : string -> bool)
    (d : option json) (c : constraint) : Prop :=
  match c with
  | FieldCheck g => rejected is_url is_email d g
  | GroupRule g chk message rp =>
      exists s', node_at DeploymentManifestSchema g = Some s'
        /\ In (chk, message, rp) (rules_of s')
        /\ reached d g
        /\ chk (get_path g d) = false
  end.

(** The manifest that validation returns for a document, [null] if it
    returns none. *)
Definition validated (d : json) : json :=
  match safeParse accept_all accept_all DeploymentManifestSchema (Some d) with
  | Success (Some m) => m
  | _ => JNull
  end.

(** *** Sample overrides *)

Definition override_one_model : json :=
  JObj [ ("prefix", JStr "prod-cb");
         ("rag", JObj [("embeddingsModels",
                        JArr [model "bedrock" "amazon.titan-embed-text-v2"])]) ].

Definition override_same_waf : json :=
  JObj [("prefix", JStr "prod-cb"); ("enableWaf", JBool false)].

Definition override_endpoint : json :=
  JObj [ ("prefix", JStr "prod-cb");
         ("vpc", JObj [("s3VpcEndpointId", JStr "vpce-0123456789abcdef0")]) ].

Definition override_empty_bucket : json :=
  JObj [("prefix", JStr "prod-cb"); ("logArchiveBucketName", JStr "")].

Definition override_empty_certificate : json :=
  JObj [("prefix", JStr "prod-cb"); ("certificate", JStr "")].

Definition override_pipeline : json :=
  JObj [ ("prefix", JStr "prod-cb");
         ("pipeline",
          JObj [ ("enabled", JBool true);
                 ("codecommit", JObj [("existingRepositoryName", JStr "chatbot")]) ]) ].

Definition override_guardrails_off : json :=
  JObj [ ("prefix", JStr "prod-cb");
         ("bedrock", JObj [("guardrails", JObj [("enabled", JBool false)])]) ].

Definition override_rag_off : json :=
  JObj [("prefix", JStr "prod-cb"); ("rag", JObj [("enabled", JBool false)])].

Definition base_without_rag : json := JObj [("prefix", JStr "genai")].

Definition ips_without_id : json :=
  JObj [ ("prefix", JStr "test-app");
         ("vpc", JObj [("s3VpcEndpointIps", JArr [JStr "10.0.1.5"])]) ].

Definition ips_without_id_bad_vpcId : json :=
  JObj [ ("prefix", JStr "test-app");
         ("vpc", JObj [ ("vpcId", JNum (5 # 1));
                        ("s3VpcEndpointIps", JArr [JStr "10.0.1.5"]) ]) ].

Definition two_bad_fields : json :=
  JObj [ ("prefix", JStr "1-chatbot");
         ("vpc", JObj [("vpcId", JStr "invalid")]) ].


(* ================================================================= *)
(** ** bin/aws-genai-llm-chatbot.ts: the stack the application deploys *)

(** A template literal [`${value}suffix`]: the interpolated value and the
    text that follows it.  The conversion of the value to a string is not
    modelled; for a string it is the string itself. *)
Record StackId : Type := {
  interpolated : option json;
  suffix : string
}.

(** The construct that the script adds to the CDK application, and for the
    chatbot stack whether the [LambdaVpcAspect] is added to it. *)
Inductive Stack : Type :=
| PipelineStack (id : StackId)
| AwsGenAILLMChatbotStack (id : StackId) (lambdaVpcAspect : bool).

(** [process.env.CDK_PIPELINE_DEPLOY === "true"] *)
Definition isPipelineDeployStep (CDK_PIPELINE_DEPLOY : option string) : bool :=
  match CDK_PIPELINE_DEPLOY with
  | Some s => String.eqb s "true"
  | None => false
  end.

(** The body of the script after [const config = loadConfig()]. *)
Definition deployStack (config : json) (CDK_PIPELINE_DEPLOY : option string)
  : outcome Stack :=
  pipeline <- getProp (Some config) "pipeline" ;;
  enabled <- optionalProp pipeline "enabled" ;;
  if truthy enabled && negb (isPipelineDeployStep CDK_PIPELINE_DEPLOY) then
    prefix <- getProp (Some config) "prefix" ;;
    Ok (PipelineStack
          {| interpolated := prefix; suffix := "ChatBotPipelineStack" |})
  else
    prefix <- getProp (Some config) "prefix" ;;
    vpc <- getProp (Some config) "vpc" ;;
    vpcId <- optionalProp vpc "vpcId" ;;
    Ok (AwsGenAILLMChatbotStack
          {| interpolated := prefix; suffix := "GenAIChatBotStack" |}
          (truthy vpcId || negb (truthy vpc))).

(* ================================================================= *)
(** ** Vocabulary of the further properties *)

(** The change records that name [path], in the order of the log. *)
Definition records_of (path : string) (log : list ChangeRecord)
  : list ChangeRecord :=
  filter (fun r => String.eqb (cpath r) path) log.

(** Every union of the schema is [z.string()...optional().or(z.literal(s))]. *)
Fixpoint plain_unions (s : schema) : bool :=
  match s with
  | ZObject shape =>
      (fix all (sh : list (string * schema)) : bool :=
         match sh with
         | [] => true
         | (_, fs) :: sh' => plain_unions fs && all sh'
         end) shape
  | ZArray e _ => plain_unions e
  | ZOptional s' => plain_unions s'
  | ZDefault s' _ => plain_unions s'
  | ZUnion (ZOptional (ZString _)) (ZLiteral _) => true
  | ZUnion _ _ => false
  | ZRefine s' _ _ _ => plain_unions s'
  | _ => true
  end.

(** A change record is justified by the manifest [m]: it names a path that
    [m] defines and shows the value of [m] at that path as the new value;
    the path is one of the fields overridden one at a time, or the pipeline
    group. *)
Definition justified (m : json) (r : ChangeRecord) : Prop :=
  newValue r <> None
  /\ ((cpath r = "pipeline" /\ newValue r = get_path ["pipeline"] (Some m))
      \/ exists q, In q override_paths
                   /\ cpath r = dotted q
                   /\ newValue r = get_path q (Some m)
                   /\ (q = ["logArchiveBucketName"]
                       -> newValue r <> Some (JStr ""))).

(** The characters of a string. *)
Fixpoint chars (s : string) : list ascii :=
  match s with
  | EmptyString => []
  | String a s' => a :: chars s'
  end.

(** A letter, and a letter, a digit or a hyphen. *)
Definition letter (a : ascii) : bool := lower a || upper a.
Definition prefix_char (a : ascii) : bool := alnum a || is_char "-"%char a.

(** Relations between the state before a statement and the state after it,
    seen from the path [q]: the statement adds no record for [q]; it leaves
    the value at [q] alone as well; it adds exactly one record for [q], with
    the value it found and the value [v]. *)
Definition silent (q : list string) (st st' : MergeState) : Prop :=
  records_of (dotted q) (overrides st') = records_of (dotted q) (overrides st).

Definition quiet (q : list string) (st st' : MergeState) : Prop :=
  get_path q (cfg st') = get_path q (cfg st) /\ silent q st st'.

Definition logs (q : list string) (v : option json) (st st' : MergeState) : Prop :=
  records_of (dotted q) (overrides st')
  = records_of (dotted q) (overrides st)
    ++ [{| cpath := dotted q; oldValue := get_path q (cfg st); newValue := v |}].

(** The counter agrees with the log. *)
Definition counted (st : MergeState) : Prop :=
  overrideCount st = List.length (overrides st).

Definition count_kept (st st' : MergeState) : Prop := counted st -> counted st'.

(** The records of the log stay justified by [m]. *)
Definition sound_kept (m : json) (st st' : MergeState) : Prop :=
  Forall (justified m) (overrides st) -> Forall (justified m) (overrides st').

(** A record that changes nothing. *)
Definition noop (r : ChangeRecord) : Prop := oldValue r = newValue r.

(** A statement run on the configuration [c] leaves it as it is, and what
    it records are no-ops. *)
Definition fixes (c : json) (st st' : MergeState) : Prop :=
  config st = c ->
  config st' = c /\ (Forall noop (overrides st) -> Forall noop (overrides st')).

(** The pipeline group of the state after a statement is the one of [m]. *)
Definition pipeline_from (m : json) (st st' : MergeState) : Prop :=
  get_path ["pipeline"] (cfg st') = get_path ["pipeline"] (Some m).

(** A statement throws on every configuration without a [rag] group; a
    statement that completes leaves such a configuration without one. *)
Definition throws_without_rag (s : step) : Prop :=
  forall st, get_path ["rag"] (cfg st) = None -> s st = TypeError.

Definition rag_stays_absent (st st' : MergeState) : Prop :=
  get_path ["rag"] (cfg st) = None -> get_path ["rag"] (cfg st') = None.

(** The fields of the [rag] group that the merge overrides. *)
Definition rag_paths : list (list string) :=
  filter (prefix_of ["rag"]) override_paths.

(** The group at [g] stays missing; the field [q] holds [v] after a
    statement that found no group at [g]. *)
Definition stays_missing (g : list string) (st st' : MergeState) : Prop :=
  truthy (get_path g (cfg st)) = false -> truthy (get_path g (cfg st')) = false.

Definition defaulted (g q : list string) (v : json) (st st' : MergeState) : Prop :=
  truthy (get_path g (cfg st)) = false -> get_path q (cfg st') = Some v.

(** The result is the [TypeError] of a dereferenced [undefined]. *)
Definition is_TypeError {A : Type} (r : result A) : bool :=
  match r with
  | Thrown ThrownTypeError => true
  | _ => false
  end.

(** The state in which the merge of [manifest] into [base] ends; the
    initial state if it throws. *)
Definition merged (base manifest : json) : MergeState :=
  match applyManifestOverrides base manifest with
  | Ok st => st
  | TypeError => {| config := base; overrideCount := 0; overrides := [] |}
  end.

(** *** Further sample documents *)

Definition override_guardrails_on : json :=
  JObj [ ("prefix", JStr "prod-cb");
         ("bedrock",
          JObj [("guardrails",
                 JObj [ ("enabled", JBool true);
                        ("identifier", JStr "gr0abc123");
                        ("version", JStr "1") ])]) ].

Definition override_saml : json :=
  JObj [ ("prefix", JStr "prod-cb");
         ("cognitoFederation",
          JObj [ ("enabled", JBool true);
                 ("customProviderName", JStr "corp-idp");
                 ("customProviderType", JStr "SAML");
                 ("customSAML",
                  JObj [("metadataDocumentUrl",
                         JStr "https://idp.example.com/metadata.xml")]) ]) ].

Definition override_oidc : json :=
  JObj [ ("prefix", JStr "prod-cb");
         ("cognitoFederation",
          JObj [ ("enabled", JBool true);
                 ("customProviderName", JStr "corp-idp");
                 ("customProviderType", JStr "OIDC");
                 ("customOIDC",
                  JObj [ ("OIDCClient", JStr "chatbot-client");
                         ("OIDCSecret",
                          JStr "arn:aws:secretsmanager:us-east-1:123456789012:secret:oidc");
                         ("OIDCIssuerURL", JStr "https://login.example.com") ]) ]) ].

Definition override_rag_on : json :=
  JObj [ ("prefix", JStr "prod-cb");
         ("rag",
          JObj [ ("enabled", JBool true);
                 ("engines",
                  JObj [("knowledgeBase", JObj [("enabled", JBool true)])]) ]) ].

Definition override_new_repository : json :=
  JObj [ ("prefix", JStr "prod-cb");
         ("pipeline",
          JObj [ ("enabled", JBool true);
                 ("codecommit",
                  JObj [ ("createNew", JBool true);
                         ("newRepositoryName", JStr "chatbot-deploy") ]);
                 ("branch", JStr "release") ]) ].

Definition override_subnets : json :=
  JObj [ ("prefix", JStr "prod-cb");
         ("vpc", JObj [("subnetIds", JArr [JStr "subnet-0123456789abcdef0"])]) ].

Definition override_misspelled : json :=
  JObj [ ("prefix", JStr "prod-cb");
         ("enableWAF", JBool true);
         ("enableWaf", JBool false) ].

Definition base_without_vpc : json :=
  JObj [ ("prefix", JStr "genai");
         ("rag",
          JObj [ ("enabled", JBool false);
                 ("engines",
                  JObj [ ("opensearch", JObj [("enabled", JBool false)]);
                         ("knowledgeBase", JObj [("enabled", JBool false)]) ]) ]) ].

(** A file system that holds one manifest, and its YAML document. *)
Definition only_yaml (path : string) : bool :=
  String.eqb path "deployment-manifest.yaml".
Definition read_any (path : string) : option string := Some "".
Definition loads_as (document : option json) (content : string)
  : option (option json) := Some document.
Definition no_message (e : issue) : string := "".

(* ================================================================= *)
(** ** bin/config-loader.ts, the extended revision of [applyManifestOverrides]

    The second revision of the loader in the sources overrides more
    fields: further scalars of the core settings, the whole [bedrock]
    group, the [nexus] and [llms] groups and two more RAG engines.  Its
    statements are built from the same pieces. *)

Module Extended.

Definition overrideStatements (manifest : json) : step :=
  (* Core deployment settings *)
  overrideField manifest ["prefix"] >>
  overrideField manifest ["enableWaf"] >>
  overrideField manifest ["enableS3TransferAcceleration"] >>
  overrideField manifest ["directSend"] >>
  overrideField manifest ["provisionedConcurrency"] >>
  overrideField manifest ["caCerts"] >>
  overrideFieldUnlessEmpty manifest ["cloudfrontLogBucketArn"] >>
  overrideField manifest ["createCMKs"] >>
  overrideField manifest ["retainOnDelete"] >>
  overrideField manifest ["ddbDeletionProtection"] >>
  overrideField manifest ["advancedMonitoring"] >>
  overrideField manifest ["logRetention"] >>
  overrideField manifest ["rateLimitPerIP"] >>
  (* Logging *)
  overrideField manifest ["disableS3AccessLogs"] >>
  overrideFieldUnlessEmpty manifest ["logArchiveBucketName"] >>
  (* Website *)
  overrideField manifest ["privateWebsite"] >>
  overrideField manifest ["certificate"] >>
  overrideField manifest ["domain"] >>
  (* CloudFront geo-restriction *)
  overrideField manifest ["cfGeoRestrictEnable"] >>
  overrideField manifest ["cfGeoRestrictList"] >>
  (* VPC *)
  whenDefined manifest ["vpc"]
    (ensureGroup ["vpc"] (JObj []) >>
     overrideField manifest ["vpc"; "vpcId"] >>
     overrideField manifest ["vpc"; "subnetIds"] >>
     overrideField manifest ["vpc"; "executeApiVpcEndpointId"] >>
     overrideField manifest ["vpc"; "s3VpcEndpointId"] >>
     overrideField manifest ["vpc"; "s3VpcEndpointIps"] >>
     overrideField manifest ["vpc"; "createVpcEndpoints"] >>
     overrideField manifest ["vpc"; "vpcDefaultSecurityGroup"]) >>
  (* Cognito federation *)
  whenDefined manifest ["cognitoFederation"]
    (ensureGroup ["cognitoFederation"] (JObj []) >>
     overrideField manifest ["cognitoFederation"; "enabled"] >>
     overrideField manifest ["cognitoFederation"; "autoRedirect"] >>
     overrideField manifest ["cognitoFederation"; "customProviderName"] >>
     overrideField manifest ["cognitoFederation"; "customProviderType"] >>
     overrideField manifest ["cognitoFederation"; "cognitoDomain"] >>
     whenDefined manifest ["cognitoFederation"; "customSAML"]
       (ensureGroup ["cognitoFederation"; "customSAML"] (JObj []) >>
        overrideField manifest
          ["cognitoFederation"; "customSAML"; "metadataDocumentUrl"]) >>
     whenDefined manifest ["cognitoFederation"; "customOIDC"]
       (ensureGroup ["cognitoFederation"; "customOIDC"] (JObj []) >>
        overrideField manifest ["cognitoFederation"; "customOIDC"; "OIDCClient"] >>
        overrideField manifest ["cognitoFederation"; "customOIDC"; "OIDCSecret"] >>
        overrideField manifest
          ["cognitoFederation"; "customOIDC"; "OIDCIssuerURL"])) >>
  (* Bedrock *)
  whenDefined manifest ["bedrock"]
    (ensureGroup ["bedrock"] (JObj []) >>
     overrideField manifest ["bedrock"; "enabled"] >>
     overrideField manifest ["bedrock"; "region"] >>
     overrideField manifest ["bedrock"; "endpointUrl"] >>
     overrideFieldUnlessEmpty manifest ["bedrock"; "roleArn"] >>
     whenDefined manifest ["bedrock"; "guardrails"]
       (ensureGroup ["bedrock"; "guardrails"] guardrailsDefaults >>
        overrideField manifest ["bedrock"; "guardrails"; "enabled"] >>
        overrideField manifest ["bedrock"; "guardrails"; "identifier"] >>
        overrideField manifest ["bedrock"; "guardrails"; "version"])) >>
  (* Nexus gateway *)
  whenDefined manifest ["nexus"]
    (ensureGroup ["nexus"] (JObj []) >>
     overrideField manifest ["nexus"; "enabled"] >>
     overrideField manifest ["nexus"; "gatewayUrl"] >>
     overrideField manifest ["nexus"; "tokenUrl"] >>
     overrideField manifest ["nexus"; "clientId"] >>
     overrideField manifest ["nexus"; "clientSecret"]) >>
  (* LLMs *)
  whenDefined manifest ["llms"]
    (overrideField manifest ["llms"; "rateLimitPerIP"] >>
     overrideField manifest ["llms"; "sagemaker"] >>
     overrideFieldUnlessEmpty manifest ["llms"; "huggingfaceApiSecretArn"] >>
     overrideField manifest ["llms"; "sagemakerSchedule"]) >>
  (* RAG *)
  whenDefined manifest ["rag"]
    (overrideField manifest ["rag"; "enabled"] >>
     overrideField manifest ["rag"; "deployDefaultSagemakerModels"] >>
     overrideField manifest ["rag"; "crossEncodingEnabled"] >>
     whenDefined manifest ["rag"; "engines"]
       (whenDefined manifest ["rag"; "engines"; "aurora"]
          (overrideField manifest ["rag"; "engines"; "aurora"; "enabled"]) >>
        whenDefined manifest ["rag"; "engines"; "opensearch"]
          (overrideField manifest ["rag"; "engines"; "opensearch"; "enabled"]) >>
        whenDefined manifest ["rag"; "engines"; "kendra"]
          (overrideField manifest ["rag"; "engines"; "kendra"; "enabled"] >>
           overrideField manifest ["rag"; "engines"; "kendra"; "createIndex"] >>
           overrideField manifest ["rag"; "engines"; "kendra"; "enterprise"] >>
           overrideField manifest ["rag"; "engines"; "kendra"; "external"]) >>
        whenDefined manifest ["rag"; "engines"; "knowledgeBase"]
          (overrideField manifest ["rag"; "engines"; "knowledgeBase"; "enabled"] >>
           overrideField manifest
             ["rag"; "engines"; "knowledgeBase"; "external"])) >>
     overrideField manifest ["rag"; "embeddingsModels"] >>
     overrideField manifest ["rag"; "crossEncoderModels"]) >>
  (* CI/CD pipeline *)
  whenDefined manifest ["pipeline"] (replacePipeline manifest).

Definition applyManifestOverrides (baseConfig manifest : json)
  : outcome MergeState :=
  overrideStatements manifest
    {| config := deepClone baseConfig; overrideCount := 0; overrides := [] |}.

(** The fields overridden one at a time, in source order, and among them
    those for which the empty string stands for "absent". *)
Definition override_paths : list (list string) :=
  [ ["prefix"]; ["enableWaf"]; ["enableS3TransferAcceleration"]; ["directSend"];
    ["provisionedConcurrency"]; ["caCerts"]; ["cloudfrontLogBucketArn"];
    ["createCMKs"]; ["retainOnDelete"]; ["ddbDeletionProtection"];
    ["advancedMonitoring"]; ["logRetention"]; ["rateLimitPerIP"];
    ["disableS3AccessLogs"]; ["logArchiveBucketName"];
    ["privateWebsite"]; ["certificate"]; ["domain"];
    ["cfGeoRestrictEnable"]; ["cfGeoRestrictList"];
    ["vpc"; "vpcId"]; ["vpc"; "subnetIds"]; ["vpc"; "executeApiVpcEndpointId"];
    ["vpc"; "s3VpcEndpointId"]; ["vpc"; "s3VpcEndpointIps"];
    ["vpc"; "createVpcEndpoints"]; ["vpc"; "vpcDefaultSecurityGroup"];
    ["cognitoFederation"; "enabled"]; ["cognitoFederation"; "autoRedirect"];
    ["cognitoFederation"; "customProviderName"];
    ["cognitoFederation"; "customProviderType"];
    ["cognitoFederation"; "cognitoDomain"];
    ["cognitoFederation"; "customSAML"; "metadataDocumentUrl"];
    ["cognitoFederation"; "customOIDC"; "OIDCClient"];
    ["cognitoFederation"; "customOIDC"; "OIDCSecret"];
    ["cognitoFederation"; "customOIDC"; "OIDCIssuerURL"];
    ["bedrock"; "enabled"]; ["bedrock"; "region"]; ["bedrock"; "endpointUrl"];
    ["bedrock"; "roleArn"];
    ["bedrock"; "guardrails"; "enabled"];
    ["bedrock"; "guardrails"; "identifier"];
    ["bedrock"; "guardrails"; "version"];
    ["nexus"; "enabled"]; ["nexus"; "gatewayUrl"]; ["nexus"; "tokenUrl"];
    ["nexus"; "clientId"]; ["nexus"; "clientSecret"];
    ["llms"; "rateLimitPerIP"]; ["llms"; "sagemaker"];
    ["llms"; "huggingfaceApiSecretArn"]; ["llms"; "sagemakerSchedule"];
    ["rag"; "enabled"]; ["rag"; "deployDefaultSagemakerModels"];
    ["rag"; "crossEncodingEnabled"];
    ["rag"; "engines"; "aurora"; "enabled"];
    ["rag"; "engines"; "opensearch"; "enabled"];
    ["rag"; "engines"; "kendra"; "enabled"];
    ["rag"; "engines"; "kendra"; "createIndex"];
    ["rag"; "engines"; "kendra"; "enterprise"];
    ["rag"; "engines"; "kendra"; "external"];
    ["rag"; "engines"; "knowledgeBase"; "enabled"];
    ["rag"; "engines"; "knowledgeBase"; "external"];
    ["rag"; "embeddingsModels"]; ["rag"; "crossEncoderModels"] ].

Definition sentinel_paths : list (list string) :=
  [ ["cloudfrontLogBucketArn"]; ["logArchiveBucketName"];
    ["bedrock"; "roleArn"]; ["llms"; "huggingfaceApiSecretArn"] ].

(** A change record is justified by the manifest [m]. *)
Definition justified (m : json) (r : ChangeRecord) : Prop :=
  newValue r <> None
  /\ ((cpath r = "pipeline" /\ newValue r = get_path ["pipeline"] (Some m))
      \/ exists q, In q override_paths
                   /\ cpath r = dotted q
                   /\ newValue r = get_path q (Some m)
                   /\ (mem_path q sentinel_paths = true
                       -> newValue r <> Some (JStr ""))).

Definition sound_kept (m : json) (st st' : MergeState) : Prop :=
  Forall (justified m) (overrides st) -> Forall (justified m) (overrides st').

(** The state in which the merge ends; the initial state if it throws. *)
Definition merged (base manifest : json) : MergeState :=
  match applyManifestOverrides base manifest with
  | Ok st => st
  | TypeError => {| config := base; overrideCount := 0; overrides := [] |}
  end.

End Extended.

(** A statement throws on every configuration without the group [g]; a
    statement that completes leaves such a configuration without it. *)
Definition throws_without (g : list string) (s : step) : Prop :=
  forall st, get_path g (cfg st) = None -> s st = TypeError.

Definition stays_absent (g : list string) (st st' : MergeState) : Prop :=
  get_path g (cfg st) = None -> get_path g (cfg st') = None.

(** *** Sample documents of the extended revision *)

Definition extended_base : json :=
  JObj
    [ ("prefix", JStr "genai");
      ("cloudfrontLogBucketArn", JStr "arn:aws:s3:::cf-logs");
      ("logRetention", JNum (7 # 1));
      ("bedrock", JObj [ ("enabled", JBool true);
                         ("roleArn", JStr "arn:aws:iam::123456789012:role/bedrock") ]);
      ("llms", JObj [ ("huggingfaceApiSecretArn",
                       JStr "arn:aws:secretsmanager:us-east-1:123456789012:secret:hf") ]);
      ("rag", JObj [ ("enabled", JBool false);
                     ("engines",
                      JObj [ ("aurora", JObj [("enabled", JBool false)]);
                             ("opensearch", JObj [("enabled", JBool false)]);
                             ("kendra", JObj [("enabled", JBool false)]);
                             ("knowledgeBase", JObj [("enabled", JBool false)]) ]) ]) ].

Definition extended_override : json :=
  JObj
    [ ("prefix", JStr "prod-cb");
      ("cloudfrontLogBucketArn", JStr "");
      ("logRetention", JNum (30 # 1));
      ("bedrock", JObj [ ("region", JStr "us-east-1");
                         ("roleArn", JStr "");
                         ("guardrails", JObj [("enabled", JBool false)]) ]);
      ("nexus", JObj [("enabled", JBool true)]);
      ("llms", JObj [("huggingfaceApiSecretArn", JStr "")]);
      ("rag", JObj [("engines", JObj [("kendra", JObj [("enabled", JBool true)])])]) ].

Definition extended_base_without_llms : json :=
  JObj [ ("prefix", JStr "genai");
         ("rag", JObj [("enabled", JBool false)]) ].

Definition extended_override_llms : json :=
  JObj [ ("prefix", JStr "prod-cb");
         ("llms", JObj [("rateLimitPerIP", JNum (100 # 1))]) ].

(** A manifest that misspells a key of the [vpc] group. *)
Definition override_vpc_typo : json :=
  JObj [ ("prefix", JStr "prod-cb");
         ("vpc", JObj [ ("vpcID", JStr "vpc-0123abcd");
                        ("s3VpcEndpointId", JStr "vpce-0123456789abcdef0") ]) ].

(* ================================================================= *)
(** * Properties *)

Unset Implicit Arguments.

(** ** Objects and paths *)

Lemma assoc_put_same k v o : assoc k (assoc_put k v o) = Some v.
Proof.
  induction o as [|[k' v'] o IH]; simpl.
  - now rewrite String.eqb_refl.
  - destruct (String.eqb k k') eqn:E; simpl.
    + now rewrite String.eqb_refl.
    + now rewrite E.
Qed.

Lemma assoc_put_other k k' v o :
  k <> k' -> assoc k (assoc_put k' v o) = assoc k o.
Proof.
  intros Hne. induction o as [|[k2 v2] o IH]; simpl.
  - apply String.eqb_neq in Hne. now rewrite Hne.
  - destruct (String.eqb k' k2) eqn:E; simpl.
    + apply String.eqb_eq in E. subst k2.
      apply String.eqb_neq in Hne. now rewrite Hne.
    + destruct (String.eqb k k2); auto.
Qed.

Lemma get_path_none p : get_path p None = None.
Proof. destruct p; reflexivity. Qed.

Lemma get_path_app p r v : get_path (p ++ r) v = get_path r (get_path p v).
Proof.
  revert v. induction p as [|k p IH]; intros v; simpl; auto.
  destruct v as [[]|]; auto using get_path_none; symmetry; apply get_path_none.
Qed.

Lemma get_path_cons_object k p v :
  get_path (k :: p) v <> None -> is_object v = true.
Proof. destruct v as [[]|]; simpl; congruence. Qed.

Lemma falsy_not_object v r :
  truthy v = false -> r <> [] -> get_path r v = None.
Proof.
  intros Hf Hr. destruct r; [congruence|].
  destruct v as [[]|]; simpl in *; congruence.
Qed.

(** A strict read that completes agrees with the optional-chaining read. *)
Lemma readPath_get p v x : readPath p v = Ok x -> get_path p v = x.
Proof.
  revert v. induction p as [|k p IH]; intros v H; simpl in *.
  - congruence.
  - destruct v as [[]|]; simpl in H; try discriminate;
      try (destruct p; simpl in H; [congruence | discriminate]).
    now apply IH.
Qed.

Lemma diverge_sym p q : diverge p q = diverge q p.
Proof.
  revert q. induction p as [|a p IH]; intros [|b q]; simpl; auto.
  rewrite (String.eqb_sym b a). destruct (String.eqb a b); auto.
Qed.

Lemma path_trichotomy p q :
  diverge p q = true \/ extends p q = true \/ prefix_of p q = true.
Proof.
  revert q. induction p as [|a p IH]; intros [|b q]; simpl; auto.
  destruct (String.eqb a b); simpl; auto.
Qed.

Lemma extends_app p q : extends p q = true -> exists r, r <> [] /\ p = q ++ r.
Proof.
  revert q. induction p as [|a p IH]; intros [|b q] H; simpl in *; try discriminate.
  - exists (a :: p). split; [discriminate | reflexivity].
  - apply andb_true_iff in H as [Hab H]. apply String.eqb_eq in Hab. subst b.
    destruct (IH _ H) as (r & Hr & ->). exists r. auto.
Qed.

Lemma prefix_of_app p q : prefix_of p q = true -> exists r, q = p ++ r.
Proof.
  revert q. induction p as [|a p IH]; intros q H; simpl in *.
  - now exists q.
  - destruct q as [|b q]; [discriminate|].
    apply andb_true_iff in H as [Hab H]. apply String.eqb_eq in Hab. subst b.
    destruct (IH _ H) as (r & ->). now exists r.
Qed.

Lemma prefix_defined p q v :
  prefix_of p q = true -> get_path q v <> None -> get_path p v <> None.
Proof.
  intros Hp Hq. apply prefix_of_app in Hp as (r & ->).
  rewrite get_path_app in Hq. intros E. rewrite E, get_path_none in Hq. auto.
Qed.

Lemma assignPath_nil_target q x : q <> [] -> assignPath q x None = TypeError.
Proof. destruct q as [|k [|k2 q]]; simpl; congruence. Qed.

Lemma assignPath_inv k q x c c' :
  assignPath (k :: q) x c = Ok c' ->
  exists o, c = Some (JObj o) /\
    match q with
    | [] => c' = JObj (assoc_put k x o)
    | _ :: _ => exists child',
        assignPath q x (assoc k o) = Ok child' /\ c' = JObj (assoc_put k child' o)
    end.
Proof.
  intros H. cbn [assignPath] in H. destruct q as [|k2 q].
  - destruct c as [[| ? | ? | ? | ? | o]|]; simpl in H; try discriminate.
    exists o. split; congruence.
  - destruct c as [[| ? | ? | ? | ? | o]|]; cbn [getProp bind] in H;
      try discriminate;
      try (rewrite assignPath_nil_target in H by discriminate; discriminate).
    exists o. split; [reflexivity|].
    destruct (assignPath (k2 :: q) x (assoc k o)) as [child'|]; [|discriminate].
    cbn [bind setProp] in H. exists child'. split; congruence.
Qed.

(** An assignment is seen at its own path and nowhere off that path. *)
Lemma assignPath_same q x c c' :
  q <> [] -> assignPath q x c = Ok c' -> get_path q (Some c') = Some x.
Proof.
  revert c c'. induction q as [|k q IH]; intros c c' Hq H; [congruence|].
  apply assignPath_inv in H as (o & -> & H). destruct q as [|k2 q].
  - subst. simpl. now rewrite assoc_put_same.
  - destruct H as (child' & H & ->). cbn [get_path].
    rewrite assoc_put_same. eapply IH; eauto. discriminate.
Qed.

Lemma assignPath_diverge p q x c c' :
  diverge p q = true -> assignPath q x c = Ok c' ->
  get_path p (Some c') = get_path p c.
Proof.
  revert p c c'. induction q as [|k q IH]; intros p c c' Hd H.
  - destruct p; discriminate.
  - destruct p as [|a p]; [discriminate|].
    apply assignPath_inv in H as (o & -> & H). cbn [diverge] in Hd.
    cbn [get_path]. destruct (String.eqb a k) eqn:Eak.
    + apply String.eqb_eq in Eak. subst a. destruct q as [|k2 q].
      * destruct p; discriminate.
      * destruct H as (child' & H & ->). cbn [get_path].
        rewrite assoc_put_same. eapply IH; eauto.
    + apply String.eqb_neq in Eak.
      destruct q as [|k2 q]; [|destruct H as (child' & H & ->)]; subst;
        cbn [get_path]; now rewrite assoc_put_other.
Qed.

(** Along the assigned path every proper prefix was, and stays, an object. *)
Lemma assignPath_prefix_object p q x c c' :
  extends q p = true -> assignPath q x c = Ok c' ->
  is_object (get_path p c) = true /\ is_object (get_path p (Some c')) = true.
Proof.
  revert p c c'. induction q as [|k q IH]; intros p c c' He H.
  - destruct p; discriminate.
  - apply assignPath_inv in H as (o & -> & H). destruct p as [|a p].
    + destruct q as [|k2 q]; [|destruct H as (child' & H & ->)]; subst; auto.
    + cbn [extends] in He. apply andb_true_iff in He as [Eka He].
      apply String.eqb_eq in Eka. subst a.
      destruct q as [|k2 q]; [destruct p; discriminate|].
      destruct H as (child' & H & ->). cbn [get_path].
      rewrite assoc_put_same. eapply IH; eauto.
Qed.

(** ** The statements of the merge, one by one *)

Lemma rel_seq R s1 s2 :
  (forall a b c, R a b -> R b c -> R a c) ->
  rel R s1 -> rel R s2 -> rel R (s1 >> s2).
Proof.
  intros Ht H1 H2 st st' H. unfold seq in H.
  destruct (s1 st) as [st1|] eqn:E1; simpl in H; [|discriminate].
  eapply Ht; eauto.
Qed.

Lemma rel_seq2 (R1 R2 R : MergeState -> MergeState -> Prop) s1 s2 :
  (forall a b c, R1 a b -> R2 b c -> R a c) ->
  rel R1 s1 -> rel R2 s2 -> rel R (s1 >> s2).
Proof.
  intros Ht H1 H2 st st' H. unfold seq in H.
  destruct (s1 st) as [st1|] eqn:E1; simpl in H; [|discriminate].
  eapply Ht; eauto.
Qed.

Lemma rel_whenDefined R m g body :
  (forall a, R a a) ->
  (get_path g (Some m) <> None -> rel R body) ->
  rel R (whenDefined m g body).
Proof.
  intros Hr Hb st st' H. unfold whenDefined in H.
  destruct (readPath g (Some m)) as [v|] eqn:E; simpl in H; [|discriminate].
  apply readPath_get in E. destruct v; simpl in H.
  - apply Hb; auto. congruence.
  - inversion H; subst. apply Hr.
Qed.

Lemma guardrails_guard m b v :
  getProp (Some m) "bedrock" = Ok b -> optionalProp b "guardrails" = Ok v ->
  get_path ["bedrock"; "guardrails"] (Some m) = v.
Proof.
  intros Hb Hv. destruct m; simpl in *; inversion Hb; subst; simpl in Hv;
    try congruence.
  destruct (assoc "bedrock" props) as [[]|]; simpl in *; congruence.
Qed.

Lemma rel_whenGuardrails R m body :
  (forall a, R a a) ->
  (get_path ["bedrock"; "guardrails"] (Some m) <> None -> rel R body) ->
  rel R (whenGuardrails m body).
Proof.
  intros Hr Hb st st' H. unfold whenGuardrails in H.
  destruct (getProp (Some m) "bedrock") as [b|] eqn:E1; simpl in H; [|discriminate].
  destruct (optionalProp b "guardrails") as [v|] eqn:E2; simpl in H; [|discriminate].
  pose proof (guardrails_guard _ _ _ E1 E2) as Hg. destruct v; simpl in H.
  - apply Hb; auto. congruence.
  - inversion H; subst. apply Hr.
Qed.

Lemma applyOverride_inv q x st st' :
  applyOverride q x st = Ok st' ->
  assignPath q x (cfg st) = Ok (config st')
  /\ overrideCount st' = S (overrideCount st)
  /\ exists old, overrides st'
       = overrides st ++ [{| cpath := dotted q; oldValue := old; newValue := Some x |}].
Proof.
  unfold applyOverride, cfg. intros H.
  destruct (readPath q (Some (config st))) as [old|]; simpl in H; [|discriminate].
  destruct (assignPath q x (Some (config st))) as [c|]; simpl in H; [|discriminate].
  inversion H; subst; simpl. eauto.
Qed.

Lemma overrideField_inv m q st st' :
  overrideField m q st = Ok st' ->
  (get_path q (Some m) = None /\ st' = st)
  \/ exists x, get_path q (Some m) = Some x /\ applyOverride q x st = Ok st'.
Proof.
  unfold overrideField. intros H.
  destruct (readPath q (Some m)) as [v|] eqn:E; simpl in H; [|discriminate].
  apply readPath_get in E. destruct v.
  - right. eauto.
  - left. split; congruence.
Qed.

Lemma overrideFieldUnlessEmpty_inv m q st st' :
  overrideFieldUnlessEmpty m q st = Ok st' ->
  ((get_path q (Some m) = None \/ get_path q (Some m) = Some (JStr "")) /\ st' = st)
  \/ exists x, get_path q (Some m) = Some x /\ is_empty_string x = false
               /\ applyOverride q x st = Ok st'.
Proof.
  unfold overrideFieldUnlessEmpty. intros H.
  destruct (readPath q (Some m)) as [v|] eqn:E; simpl in H; [|discriminate].
  apply readPath_get in E. destruct v as [x|].
  - destruct (is_empty_string x) eqn:Ex.
    + left. split; [|congruence]. right.
      destruct x; simpl in Ex; try discriminate.
      apply String.eqb_eq in Ex. congruence.
    + right. eauto.
  - left. split; [auto | congruence].
Qed.

Lemma ensureGroup_inv g init st st' :
  ensureGroup g init st = Ok st' ->
  overrides st' = overrides st /\ overrideCount st' = overrideCount st /\
  ((truthy (get_path g (cfg st)) = true /\ st' = st)
   \/ (truthy (get_path g (cfg st)) = false
       /\ assignPath g init (cfg st) = Ok (config st'))).
Proof.
  unfold ensureGroup, cfg. intros H.
  destruct (readPath g (Some (config st))) as [v|] eqn:E; simpl in H; [|discriminate].
  apply readPath_get in E. rewrite E. destruct (truthy v) eqn:Et.
  - inversion H; subst. auto.
  - destruct (assignPath g init (Some (config st))) as [c|]; simpl in H; [|discriminate].
    inversion H; subst; simpl. auto.
Qed.

Lemma replacePipeline_inv m st st' :
  replacePipeline m st = Ok st' ->
  overrideCount st' = S (overrideCount st) /\
  exists pipeline old new,
    assignPath ["pipeline"] pipeline (cfg st) = Ok (config st')
    /\ overrides st'
       = overrides st ++ [{| cpath := "pipeline"; oldValue := old; newValue := new |}].
Proof.
  unfold replacePipeline, cfg. intros H.
  repeat match type of H with
         | bind ?e _ = Ok _ =>
             destruct e eqn:?; cbn [bind] in H; [|discriminate]
         end.
  inversion H; subst; cbn [overrideCount overrides logOverride].
  split; [reflexivity|].
  do 3 eexists. split; [|reflexivity].
  match goal with E : setProp _ _ _ = Ok _ |- _ => exact E end.
Qed.

Lemma records_for_app path l1 l2 :
  records_for path (l1 ++ l2) = records_for path l1 + records_for path l2.
Proof. unfold records_for. now rewrite filter_app, length_app. Qed.

Lemma records_for_one path r :
  records_for path [r] = if String.eqb (cpath r) path then 1 else 0.
Proof. unfold records_for. simpl. now destruct (String.eqb (cpath r) path). Qed.

(** *** A field that a statement does not mention *)

Lemma untouched_refl q a : untouched q a a.
Proof. split; reflexivity. Qed.

Lemma untouched_trans q a b c : untouched q a b -> untouched q b c -> untouched q a c.
Proof. intros [H1 H2] [H3 H4]. split; congruence. Qed.

Lemma untouched_applyOverride q q' x :
  diverge q q' = true -> String.eqb (dotted q') (dotted q) = false ->
  rel (untouched q) (applyOverride q' x).
Proof.
  intros Hd Hs st st' H. apply applyOverride_inv in H as (Ha & _ & old & Hl).
  split.
  - unfold cfg at 1. eapply assignPath_diverge; eauto.
  - rewrite Hl, records_for_app, records_for_one. cbn [cpath]. rewrite Hs. lia.
Qed.

Lemma untouched_overrideField m q q' :
  diverge q q' = true -> String.eqb (dotted q') (dotted q) = false ->
  rel (untouched q) (overrideField m q').
Proof.
  intros Hd Hs st st' H. apply overrideField_inv in H as [[_ ->]|(x & _ & H)].
  - apply untouched_refl.
  - eapply untouched_applyOverride; eauto.
Qed.

Lemma untouched_overrideFieldUnlessEmpty m q q' :
  diverge q q' = true -> String.eqb (dotted q') (dotted q) = false ->
  rel (untouched q) (overrideFieldUnlessEmpty m q').
Proof.
  intros Hd Hs st st' H.
  apply overrideFieldUnlessEmpty_inv in H as [[_ ->]|(x & _ & _ & H)].
  - apply untouched_refl.
  - eapply untouched_applyOverride; eauto.
Qed.

Lemma untouched_ensureGroup q g init :
  diverge q g = true -> rel (untouched q) (ensureGroup g init).
Proof.
  intros Hd st st' H. apply ensureGroup_inv in H as (Hl & _ & [[_ ->]|[_ Ha]]).
  - apply untouched_refl.
  - split; [|now rewrite Hl]. unfold cfg at 1. eapply assignPath_diverge; eauto.
Qed.

Lemma untouched_replacePipeline m q :
  diverge q ["pipeline"] = true -> String.eqb "pipeline" (dotted q) = false ->
  rel (untouched q) (replacePipeline m).
Proof.
  intros Hd Hs st st' H.
  apply replacePipeline_inv in H as (_ & pl & old & new & Ha & Hl). split.
  - unfold cfg at 1. eapply assignPath_diverge; eauto.
  - rewrite Hl, records_for_app, records_for_one. cbn [cpath]. rewrite Hs. lia.
Qed.

(** *** A field that holds its value *)

Lemma keeps_refl q v a : keeps q v a a.
Proof. split; auto. Qed.

Lemma keeps_trans q v a b c : keeps q v a b -> keeps q v b c -> keeps q v a c.
Proof. intros [H1 H2] [H3 H4]. split; [auto | congruence]. Qed.

Lemma untouched_keeps q v s : rel (untouched q) s -> rel (keeps q v) s.
Proof. intros H st st' Hs. destruct (H _ _ Hs) as [H1 H2]. split; congruence. Qed.

Lemma keeps_ensureGroup q v g init :
  extends q g = true -> rel (keeps q v) (ensureGroup g init).
Proof.
  intros He st st' H. apply ensureGroup_inv in H as (Hl & _ & [[_ ->]|[Hf Ha]]).
  - apply keeps_refl.
  - split; [|now rewrite Hl]. intros Hq. exfalso.
    apply extends_app in He as (r & Hr & ->).
    rewrite get_path_app, (falsy_not_object _ _ Hf Hr) in Hq. discriminate.
Qed.

(** *** The statement that overrides the field *)

Lemma sets_then_keeps q v a b c : sets q v a b -> keeps q v b c -> sets q v a c.
Proof. intros [H1 H2] [H3 H4]. split; [auto | congruence]. Qed.

Lemma keeps_then_sets q v a b c : keeps q v a b -> sets q v b c -> sets q v a c.
Proof. intros [H1 H2] [H3 H4]. split; [auto | congruence]. Qed.

Lemma sets_applyOverride q v : q <> [] -> rel (sets q v) (applyOverride q v).
Proof.
  intros Hq st st' H. apply applyOverride_inv in H as (Ha & _ & old & Hl). split.
  - unfold cfg. eapply assignPath_same; eauto.
  - rewrite Hl, records_for_app, records_for_one. cbn [cpath].
    rewrite String.eqb_refl. lia.
Qed.

Lemma sets_overrideField m q v :
  q <> [] -> get_path q (Some m) = Some v -> rel (sets q v) (overrideField m q).
Proof.
  intros Hq Hm st st' H. apply overrideField_inv in H as [[E _]|(x & E & H)].
  - congruence.
  - assert (x = v) by congruence. subst. eapply sets_applyOverride; eauto.
Qed.

Lemma sets_overrideFieldUnlessEmpty m q v :
  q <> [] -> get_path q (Some m) = Some v -> v <> JStr "" ->
  rel (sets q v) (overrideFieldUnlessEmpty m q).
Proof.
  intros Hq Hm Hv st st' H.
  apply overrideFieldUnlessEmpty_inv in H as [[[E|E] _]|(x & E & _ & H)];
    try congruence.
  assert (x = v) by congruence. subst. eapply sets_applyOverride; eauto.
Qed.

Lemma sets_whenDefined m g body q v :
  prefix_of g q = true -> get_path q (Some m) = Some v ->
  rel (sets q v) body -> rel (sets q v) (whenDefined m g body).
Proof.
  intros Hp Hm Hb st st' H. unfold whenDefined in H.
  destruct (readPath g (Some m)) as [x|] eqn:E; simpl in H; [|discriminate].
  apply readPath_get in E.
  assert (Hg : get_path g (Some m) <> None)
    by (eapply prefix_defined; eauto; congruence).
  destruct x; [|congruence]. simpl in H. auto.
Qed.

Lemma sets_whenGuardrails m body q v :
  prefix_of ["bedrock"; "guardrails"] q = true -> get_path q (Some m) = Some v ->
  rel (sets q v) body -> rel (sets q v) (whenGuardrails m body).
Proof.
  intros Hp Hm Hb st st' H. unfold whenGuardrails in H.
  destruct (getProp (Some m) "bedrock") as [b|] eqn:E1; simpl in H; [|discriminate].
  destruct (optionalProp b "guardrails") as [x|] eqn:E2; simpl in H; [|discriminate].
  pose proof (guardrails_guard _ _ _ E1 E2) as Hg.
  assert (get_path ["bedrock"; "guardrails"] (Some m) <> None)
    by (eapply prefix_defined; eauto; congruence).
  destruct x; [|congruence]. simpl in H. auto.
Qed.

(** ** The whole merge, seen from one overridden field *)

Ltac keep_step :=
  first
    [ apply untouched_keeps;
      first
        [ apply untouched_overrideField; reflexivity
        | apply untouched_overrideFieldUnlessEmpty; reflexivity
        | apply untouched_ensureGroup; reflexivity
        | apply untouched_replacePipeline; reflexivity ]
    | apply keeps_ensureGroup; reflexivity ].

Ltac keep_all :=
  first
    [ apply rel_seq; [apply keeps_trans | keep_all | keep_all]
    | apply rel_whenDefined; [apply keeps_refl | intros _; keep_all]
    | apply rel_whenGuardrails; [apply keeps_refl | intros _; keep_all]
    | keep_step ].

Ltac set_here :=
  first
    [ apply sets_overrideField; [discriminate | assumption]
    | apply sets_overrideFieldUnlessEmpty; [discriminate | assumption | auto] ].

Ltac set_find :=
  first
    [ set_here
    | eapply rel_seq2; [apply sets_then_keeps | set_find | keep_all]
    | eapply rel_seq2; [apply keeps_then_sets | keep_all | set_find]
    | apply sets_whenDefined; [reflexivity | assumption | set_find]
    | apply sets_whenGuardrails; [reflexivity | assumption | set_find] ].

Lemma override_effect m q v :
  In q override_paths ->
  get_path q (Some m) = Some v ->
  (q = ["logArchiveBucketName"] -> v <> JStr "") ->
  rel (sets q v) (overrideStatements m).
Proof.
  intros Hin Hm Hv. unfold override_paths, scalar_paths, list_paths in Hin.
  simpl in Hin.
  repeat (destruct Hin as [<- | Hin]; [unfold overrideStatements; set_find|]).
  contradiction.
Qed.

(** ** The whole merge, seen from a path the manifest omits *)

Lemma path_eqb_eq p q : path_eqb p q = true <-> p = q.
Proof.
  revert q. induction p as [|a p IH]; intros [|b q]; simpl; split;
    try congruence; try discriminate.
  - intros H. apply andb_true_iff in H as [H1 H2].
    apply String.eqb_eq in H1. apply IH in H2. congruence.
  - intros H. inversion H; subst. rewrite String.eqb_refl. simpl. now apply IH.
Qed.

Lemma mem_path_In q l : mem_path q l = true <-> In q l.
Proof.
  unfold mem_path. rewrite existsb_exists. split.
  - intros (x & Hx & E). apply path_eqb_eq in E. now subst.
  - intros H. exists q. split; auto. now apply path_eqb_eq.
Qed.

Lemma field_path_leaf p q :
  field_path p = true -> mem_path q override_paths = true -> extends p q = false.
Proof.
  unfold field_path. intros Hf Hq. apply mem_path_In in Hq.
  rewrite forallb_forall in Hf. specialize (Hf _ Hq).
  now destruct (extends p q).
Qed.

Lemma extends_prefix_of p q : extends p q = true -> prefix_of q p = true.
Proof.
  revert q. induction p as [|a p IH]; intros [|b q]; simpl; auto; try discriminate.
  intros H. apply andb_true_iff in H as [H1 H2].
  rewrite String.eqb_sym, H1. simpl. auto.
Qed.

Lemma get_path_empty_object r : r <> [] -> get_path r (Some (JObj [])) = None.
Proof. destruct r; [congruence|]. intros _. simpl. apply get_path_none. Qed.

Lemma truthy_object v : is_object v = true -> truthy v = true.
Proof. destruct v as [[]|]; simpl; congruence. Qed.

Lemma guardrailsDefaults_fields r :
  r <> [] -> mem_path (guardrails_group ++ r) guardrails_fields = false ->
  get_path r (Some guardrailsDefaults) = None.
Proof.
  destruct r as [|k r]; [congruence|]. intros _ H.
  cbn [get_path guardrailsDefaults]. cbn in H.
  destruct r as [|k' r].
  - cbn in H. simpl.
    destruct (String.eqb k "enabled") eqn:E1; [simpl in H; discriminate|].
    destruct (String.eqb k "identifier") eqn:E2; [simpl in H; discriminate|].
    destruct (String.eqb k "version") eqn:E3; [simpl in H; discriminate|].
    reflexivity.
  - simpl.
    destruct (String.eqb k "enabled"); [reflexivity|].
    destruct (String.eqb k "identifier"); [reflexivity|].
    destruct (String.eqb k "version"); reflexivity.
Qed.

Section Frame.

Variable m : json.
Variable p : list string.
Hypothesis omitted : get_path p (Some m) = None.
Hypothesis is_field : field_path p = true.
Hypothesis not_replaced :
  get_path ["pipeline"] (Some m) <> None -> prefix_of ["pipeline"] p = false.

Lemma framed_refl a : framed m p a a.
Proof. split; auto. Qed.

Lemma framed_trans a b c : framed m p a b -> framed m p b c -> framed m p a c.
Proof.
  intros [H1 H2] [H3 H4]. split; [auto|].
  intros H. rewrite H4, H2; auto.
  destruct H as [H|[H|H]]; auto.
Qed.

(** A path the manifest defines is off [p], or [p] runs through it. *)
Lemma omitted_cases q :
  get_path q (Some m) <> None -> diverge p q = true \/ extends p q = true.
Proof.
  intros Hq. destruct (path_trichotomy p q) as [H|[H|H]]; auto.
  exfalso. eapply prefix_defined in H; eauto.
Qed.

Lemma framed_assign q x st st' :
  get_path q (Some m) <> None ->
  extends p q = false ->
  diverge guardrails_group q || extends q guardrails_group = true ->
  assignPath q x (cfg st) = Ok (config st') ->
  framed m p st st'.
Proof.
  intros Hq Hleaf Hg Ha. split.
  - intros Ht. apply orb_true_iff in Hg as [Hg|Hg].
    + unfold cfg at 1. erewrite assignPath_diverge; eauto.
    + apply truthy_object. eapply assignPath_prefix_object; eauto.
  - intros _. destruct (omitted_cases q Hq) as [H|H]; [|congruence].
    unfold cfg at 1. eapply assignPath_diverge; eauto.
Qed.

Lemma framed_overrideField q :
  mem_path q override_paths = true ->
  diverge guardrails_group q || extends q guardrails_group = true ->
  rel (framed m p) (overrideField m q).
Proof.
  intros Hq Hg st st' H. apply overrideField_inv in H as [[_ ->]|(x & E & H)].
  - apply framed_refl.
  - apply applyOverride_inv in H as (Ha & _).
    eapply framed_assign; eauto using field_path_leaf. congruence.
Qed.

Lemma framed_overrideFieldUnlessEmpty q :
  mem_path q override_paths = true ->
  diverge guardrails_group q || extends q guardrails_group = true ->
  rel (framed m p) (overrideFieldUnlessEmpty m q).
Proof.
  intros Hq Hg st st' H.
  apply overrideFieldUnlessEmpty_inv in H as [[_ ->]|(x & E & _ & H)].
  - apply framed_refl.
  - apply applyOverride_inv in H as (Ha & _).
    eapply framed_assign; eauto using field_path_leaf. congruence.
Qed.

Lemma framed_ensureGroup g g' :
  g <> [] ->
  prefix_of g g' = true -> get_path g' (Some m) <> None ->
  diverge guardrails_group g || extends guardrails_group g = true ->
  rel (framed m p) (ensureGroup g (JObj [])).
Proof.
  intros Hne Hp Hg' Hgr st st' H.
  assert (Hg : get_path g (Some m) <> None) by (eapply prefix_defined; eauto).
  apply ensureGroup_inv in H as (_ & _ & [[_ ->]|[Hf Ha]]);
    [apply framed_refl|].
  split.
  - intros Ht. apply orb_true_iff in Hgr as [Hd|He].
    + unfold cfg at 1. erewrite assignPath_diverge; eauto.
    + exfalso. apply extends_app in He as (r & Hr & E).
      rewrite E, get_path_app, (falsy_not_object _ _ Hf Hr) in Ht. discriminate.
  - intros _. destruct (omitted_cases g Hg) as [Hd|He].
    + unfold cfg at 1. eapply assignPath_diverge; eauto.
    + apply extends_app in He as (r & Hr & ->).
      rewrite !get_path_app. unfold cfg at 1.
      erewrite assignPath_same by eauto.
      rewrite (falsy_not_object _ _ Hf Hr). now apply get_path_empty_object.
Qed.

Lemma framed_ensureGuardrails :
  get_path guardrails_group (Some m) <> None ->
  rel (framed m p) (ensureGroup guardrails_group guardrailsDefaults).
Proof.
  intros Hg st st' H.
  apply ensureGroup_inv in H as (_ & _ & [[_ ->]|[Hf Ha]]);
    [apply framed_refl|].
  split.
  - intros _. unfold cfg at 1.
    erewrite assignPath_same by (eauto; discriminate). reflexivity.
  - intros [H|[H|H]]; [congruence | congruence |].
    destruct (omitted_cases guardrails_group Hg) as [Hd|He].
    + unfold cfg at 1. eapply assignPath_diverge; eauto.
    + apply extends_app in He as (r & Hr & ->).
      rewrite !get_path_app. unfold cfg at 1.
      erewrite assignPath_same by (eauto; discriminate).
      rewrite (falsy_not_object _ _ Hf Hr). now apply guardrailsDefaults_fields.
Qed.

Lemma framed_replacePipeline :
  get_path ["pipeline"] (Some m) <> None ->
  rel (framed m p) (replacePipeline m).
Proof.
  intros Hg st st' H.
  apply replacePipeline_inv in H as (_ & pl & old & new & Ha & _).
  split.
  - intros Ht. unfold cfg at 1.
    erewrite (assignPath_diverge guardrails_group ["pipeline"]);
      [eassumption | reflexivity | eassumption].
  - intros _. destruct (omitted_cases ["pipeline"] Hg) as [Hd|He].
    + unfold cfg at 1. eapply assignPath_diverge; eauto.
    + apply extends_prefix_of in He. rewrite not_replaced in He; auto.
      discriminate.
Qed.

Ltac frame_all :=
  first
    [ apply rel_seq; [apply framed_trans | frame_all | frame_all]
    | apply rel_whenDefined; [apply framed_refl | intros ?; frame_all]
    | apply rel_whenGuardrails; [apply framed_refl | intros ?; frame_all]
    | apply framed_overrideField; reflexivity
    | apply framed_overrideFieldUnlessEmpty; reflexivity
    | apply framed_ensureGuardrails; assumption
    | eapply framed_ensureGroup;
      [discriminate | | eassumption | reflexivity]; reflexivity
    | apply framed_replacePipeline; assumption ].

Lemma overrideStatements_framed : rel (framed m p) (overrideStatements m).
Proof. unfold overrideStatements. frame_all. Qed.

End Frame.

(** ** The merge completes on a well-shaped configuration and manifest *)

Lemma readPath_ok q v :
  q <> [] -> is_object (get_path (removelast q) v) = true ->
  readPath q v = Ok (get_path q v).
Proof.
  revert v. induction q as [|k q IH]; intros v Hq Ho; [congruence|].
  destruct q as [|k2 q].
  - simpl in *. destruct v as [[]|]; simpl in *; try discriminate. reflexivity.
  - assert (Hv : is_object v = true).
    { change (removelast (k :: k2 :: q)) with (k :: removelast (k2 :: q)) in Ho.
      apply (get_path_cons_object k (removelast (k2 :: q))).
      destruct (get_path (k :: removelast (k2 :: q)) v); discriminate. }
    destruct v as [[| ? | ? | ? | ? | o]|]; try discriminate.
    change (removelast (k :: k2 :: q)) with (k :: removelast (k2 :: q)) in Ho.
    cbn [readPath getProp bind get_path] in *.
    apply IH; [discriminate | assumption].
Qed.

Lemma assignPath_cons2 k k2 q x v :
  assignPath (k :: k2 :: q) x v
  = (child <- getProp v k ;;
     child' <- assignPath (k2 :: q) x child ;;
     setProp v k child').
Proof. reflexivity. Qed.

Lemma assignPath_ok q x v :
  q <> [] -> is_object (get_path (removelast q) v) = true ->
  exists c', assignPath q x v = Ok c'.
Proof.
  revert v. induction q as [|k q IH]; intros v Hq Ho; [congruence|].
  destruct q as [|k2 q].
  - simpl in *. destruct v as [[]|]; simpl in *; try discriminate. eauto.
  - assert (Hv : is_object v = true).
    { change (removelast (k :: k2 :: q)) with (k :: removelast (k2 :: q)) in Ho.
      apply (get_path_cons_object k (removelast (k2 :: q))).
      destruct (get_path (k :: removelast (k2 :: q)) v); discriminate. }
    destruct v as [[| ? | ? | ? | ? | o]|]; try discriminate.
    change (removelast (k :: k2 :: q)) with (k :: removelast (k2 :: q)) in Ho.
    cbn [get_path] in Ho.
    destruct (IH (assoc k o)) as (c' & Hc'); [discriminate | assumption |].
    rewrite assignPath_cons2. cbn [getProp bind]. rewrite Hc'.
    cbn [bind setProp]. eauto.
Qed.

Lemma prefix_of_cases p q :
  prefix_of p q = true -> p = q \/ extends q p = true.
Proof.
  revert q. induction p as [|a p IH]; intros [|b q] H; simpl in *; auto;
    try discriminate.
  apply andb_true_iff in H as [H1 H2]. apply String.eqb_eq in H1. subst b.
  rewrite String.eqb_refl. simpl.
  destruct (IH _ H2) as [->|He]; auto.
Qed.

Lemma absent_or_object_of_object v : is_object v = true -> absent_or_object v = true.
Proof. destruct v as [[]|]; simpl; congruence. Qed.

Lemma groups_ok_spec objs c :
  groups_ok objs c = true <->
  (forall g, In g optional_groups -> absent_or_object (get_path g (Some c)) = true)
  /\ (forall g, In g objs -> is_object (get_path g (Some c)) = true).
Proof.
  unfold groups_ok. rewrite andb_true_iff, !forallb_forall. tauto.
Qed.

(** Overriding a leaf [q] leaves every group in place. *)
Lemma groups_ok_assign_leaf objs q x c c' :
  assignPath q x (Some c) = Ok c' ->
  forallb (fun g => diverge g q || extends q g) (optional_groups ++ objs) = true ->
  groups_ok objs c = true -> groups_ok objs c' = true.
Proof.
  intros Ha Hside H. rewrite forallb_forall in Hside.
  apply groups_ok_spec in H as [Hopt Hobj]. apply groups_ok_spec. split.
  - intros g Hg. specialize (Hside g (in_or_app _ _ _ (or_introl Hg))).
    apply orb_true_iff in Hside as [Hd|He].
    + erewrite assignPath_diverge; eauto.
    + apply absent_or_object_of_object. eapply assignPath_prefix_object; eauto.
  - intros g Hg. specialize (Hside g (in_or_app _ _ _ (or_intror Hg))).
    apply orb_true_iff in Hside as [Hd|He].
    + erewrite assignPath_diverge; eauto.
    + eapply assignPath_prefix_object; eauto.
Qed.

(** Creating a missing group [g] leaves the other groups in place. *)
Lemma groups_ok_create objs g init c c' :
  g <> [] ->
  assignPath g init (Some c) = Ok c' ->
  truthy (get_path g (Some c)) = false ->
  is_object (Some init) = true ->
  (forall r, r <> [] -> In (g ++ r) optional_groups ->
             get_path r (Some init) = None) ->
  groups_ok objs c = true -> groups_ok (g :: objs) c' = true.
Proof.
  intros Hne Ha Hf Hinit Hdeep H.
  apply groups_ok_spec in H as [Hopt Hobj]. apply groups_ok_spec.
  assert (Hnew : get_path g (Some c') = Some init) by (eapply assignPath_same; eauto).
  split.
  - intros g2 Hg2. destruct (path_trichotomy g2 g) as [Hd|[He|Hp]].
    + erewrite assignPath_diverge; eauto.
    + apply extends_app in He as (r & Hr & ->).
      rewrite get_path_app, Hnew, Hdeep; auto.
    + apply prefix_of_cases in Hp as [->|He].
      * rewrite Hnew. now apply absent_or_object_of_object.
      * apply absent_or_object_of_object. eapply assignPath_prefix_object; eauto.
  - intros g2 [<-|Hg2]; [now rewrite Hnew|].
    specialize (Hobj _ Hg2).
    destruct (path_trichotomy g2 g) as [Hd|[He|Hp]].
    + erewrite assignPath_diverge; eauto.
    + apply extends_app in He as (r & Hr & ->).
      rewrite get_path_app, (falsy_not_object _ _ Hf Hr) in Hobj. discriminate.
    + apply prefix_of_cases in Hp as [->|He].
      * apply truthy_object in Hobj. congruence.
      * eapply assignPath_prefix_object; eauto.
Qed.

Lemma groups_ok_weaken g objs c :
  groups_ok (g :: objs) c = true -> groups_ok objs c = true.
Proof.
  unfold groups_ok. cbn [forallb]. rewrite !andb_true_iff. tauto.
Qed.

Lemma groups_ok_object objs g c :
  groups_ok objs c = true -> mem_path g objs = true ->
  is_object (get_path g (Some c)) = true.
Proof.
  intros H Hg. apply groups_ok_spec in H as [_ H]. apply H.
  now apply mem_path_In.
Qed.

Lemma groups_ok_optional objs g c :
  groups_ok objs c = true -> mem_path g optional_groups = true ->
  absent_or_object (get_path g (Some c)) = true.
Proof.
  intros H Hg. apply groups_ok_spec in H as [H _]. apply H.
  now apply mem_path_In.
Qed.

Section Total.

Variable m : json.
Hypothesis m_shape : DeploymentManifest_shape m = true.

(** A group of the manifest that is there is an object. *)
Lemma manifest_group_object g :
  g = [] \/ (mem_path g manifest_groups = true /\ get_path g (Some m) <> None) ->
  is_object (get_path g (Some m)) = true.
Proof.
  unfold DeploymentManifest_shape in m_shape.
  apply andb_true_iff in m_shape as [H _]. apply andb_true_iff in H as [Hroot Hg].
  intros [->|[Hin Hdef]]; [exact Hroot|].
  rewrite forallb_forall in Hg. apply mem_path_In in Hin. specialize (Hg _ Hin).
  destruct (get_path g (Some m)) as [[]|]; simpl in *; congruence.
Qed.

Lemma completes_seq P Q R s1 s2 :
  completes P s1 Q -> completes Q s2 R -> completes P (s1 >> s2) R.
Proof.
  intros H1 H2 st HP. destruct (H1 _ HP) as (st1 & E1 & HQ).
  destruct (H2 _ HQ) as (st2 & E2 & HR).
  exists st2. unfold seq. rewrite E1. simpl. auto.
Qed.

Lemma completes_applyOverride objs q x :
  q <> [] ->
  mem_path (removelast q) objs = true ->
  forallb (fun g => diverge g q || extends q g) (optional_groups ++ objs) = true ->
  completes (fun c => groups_ok objs c = true) (applyOverride q x)
            (fun c => groups_ok objs c = true).
Proof.
  intros Hq Hpar Hside st HP.
  pose proof (groups_ok_object _ _ _ HP Hpar) as Hobj.
  destruct (assignPath_ok q x (Some (config st)) Hq Hobj) as (c' & Hc').
  unfold applyOverride. rewrite (readPath_ok _ _ Hq Hobj). cbn [bind].
  cbn [logOverride config]. rewrite Hc'. cbn [bind].
  eexists. split; [reflexivity|]. cbn [config].
  eapply groups_ok_assign_leaf; eauto.
Qed.

Lemma completes_overrideField objs q :
  q <> [] ->
  removelast q = []
  \/ (mem_path (removelast q) manifest_groups = true
      /\ get_path (removelast q) (Some m) <> None) ->
  mem_path (removelast q) objs = true ->
  forallb (fun g => diverge g q || extends q g) (optional_groups ++ objs) = true ->
  completes (fun c => groups_ok objs c = true) (overrideField m q)
            (fun c => groups_ok objs c = true).
Proof.
  intros Hq Hm Hpar Hside st HP. unfold overrideField.
  rewrite (readPath_ok _ _ Hq (manifest_group_object _ Hm)). cbn [bind].
  destruct (get_path q (Some m)) as [x|]; [|eauto].
  eapply completes_applyOverride; eauto.
Qed.

Lemma completes_overrideFieldUnlessEmpty objs q :
  q <> [] ->
  removelast q = []
  \/ (mem_path (removelast q) manifest_groups = true
      /\ get_path (removelast q) (Some m) <> None) ->
  mem_path (removelast q) objs = true ->
  forallb (fun g => diverge g q || extends q g) (optional_groups ++ objs) = true ->
  completes (fun c => groups_ok objs c = true) (overrideFieldUnlessEmpty m q)
            (fun c => groups_ok objs c = true).
Proof.
  intros Hq Hm Hpar Hside st HP. unfold overrideFieldUnlessEmpty.
  rewrite (readPath_ok _ _ Hq (manifest_group_object _ Hm)). cbn [bind].
  destruct (get_path q (Some m)) as [x|]; [|eauto].
  destruct (is_empty_string x); [eauto|].
  eapply completes_applyOverride; eauto.
Qed.

Lemma completes_ensureGroup objs g init :
  g <> [] ->
  mem_path (removelast g) objs = true ->
  mem_path g optional_groups = true ->
  is_object (Some init) = true ->
  (forall r, r <> [] -> In (g ++ r) optional_groups ->
             get_path r (Some init) = None) ->
  completes (fun c => groups_ok objs c = true) (ensureGroup g init)
            (fun c => groups_ok (g :: objs) c = true).
Proof.
  intros Hg Hpar Hopt Hinit Hdeep st HP.
  pose proof (groups_ok_object _ _ _ HP Hpar) as Hobj.
  unfold ensureGroup. rewrite (readPath_ok _ _ Hg Hobj). cbn [bind].
  destruct (truthy (get_path g (Some (config st)))) eqn:Ht.
  - exists st. split; [reflexivity|].
    pose proof (groups_ok_optional _ _ _ HP Hopt) as Ha.
    unfold groups_ok in *. cbn [forallb]. apply andb_true_iff in HP as [H1 H2].
    rewrite H1, H2, andb_true_r. simpl.
    destruct (get_path g (Some (config st))) as [[]|]; simpl in *; congruence.
  - destruct (assignPath_ok g init (Some (config st)) Hg Hobj) as (c' & Hc').
    rewrite Hc'. cbn [bind]. eexists. split; [reflexivity|]. cbn [config].
    eapply groups_ok_create; eauto.
Qed.

Lemma completes_whenDefined objs g body (Q : json -> Prop) :
  g <> [] ->
  removelast g = []
  \/ (mem_path (removelast g) manifest_groups = true
      /\ get_path (removelast g) (Some m) <> None) ->
  (get_path g (Some m) <> None ->
   completes (fun c => groups_ok objs c = true) body Q) ->
  (forall c, Q c -> groups_ok objs c = true) ->
  completes (fun c => groups_ok objs c = true) (whenDefined m g body)
            (fun c => groups_ok objs c = true).
Proof.
  intros Hg Hm Hb Hweak st HP. unfold whenDefined.
  rewrite (readPath_ok _ _ Hg (manifest_group_object _ Hm)). cbn [bind].
  destruct (get_path g (Some m)) eqn:E; simpl.
  - destruct (Hb ltac:(congruence) st HP) as (st' & Hs & HQ). eauto.
  - eauto.
Qed.

Lemma completes_whenGuardrails objs body (Q : json -> Prop) :
  (get_path guardrails_group (Some m) <> None ->
   completes (fun c => groups_ok objs c = true) body Q) ->
  (forall c, Q c -> groups_ok objs c = true) ->
  completes (fun c => groups_ok objs c = true) (whenGuardrails m body)
            (fun c => groups_ok objs c = true).
Proof.
  intros Hb Hweak st HP. unfold whenGuardrails.
  pose proof (manifest_group_object [] (or_introl eq_refl)) as Hroot.
  assert (Hbo : get_path ["bedrock"] (Some m) <> None ->
                is_object (get_path ["bedrock"] (Some m)) = true).
  { intros H. apply manifest_group_object. right. split; [reflexivity | exact H]. }
  unfold guardrails_group in Hb. revert Hroot Hbo Hb.
  generalize m. intros m' Hroot Hbo Hb.
  destruct m' as [| ? | ? | ? | ? | o]; try discriminate.
  cbn [getProp bind]. cbn [get_path] in Hbo, Hb.
  destruct (assoc "bedrock" o) as [b|] eqn:Eb.
  - specialize (Hbo ltac:(discriminate)).
    destruct b as [| ? | ? | ? | ? | ob]; try discriminate.
    cbn [optionalProp getProp bind].
    destruct (assoc "guardrails" ob) eqn:Eg; simpl.
    + destruct (Hb ltac:(congruence) st HP) as (st' & Hs & HQ). eauto.
    + eauto.
  - simpl. eauto.
Qed.

Lemma completes_replacePipeline objs :
  mem_path [] objs = true ->
  forallb (fun g => diverge g ["pipeline"]) optional_groups = true ->
  forallb (fun g => diverge g ["pipeline"] || extends ["pipeline"] g) objs = true ->
  get_path ["pipeline"] (Some m) <> None ->
  completes (fun c => groups_ok objs c = true) (replacePipeline m)
            (fun c => groups_ok objs c = true).
Proof.
  intros Hroot Hopt Hobjs Hdef st HP.
  pose proof (groups_ok_object _ _ _ HP Hroot) as Hc. simpl in Hc.
  pose proof (manifest_group_object [] (or_introl eq_refl)) as Hmo. simpl in Hmo.
  assert (Hpo : is_object (get_path ["pipeline"] (Some m)) = true).
  { apply manifest_group_object. right. auto. }
  assert (Hcc : is_object (get_path ["pipeline"; "codecommit"] (Some m)) = true).
  { unfold DeploymentManifest_shape in m_shape.
    apply andb_true_iff in m_shape as [_ H]. apply orb_true_iff in H as [H|H]; auto.
    destruct (get_path ["pipeline"] (Some m)); simpl in *; congruence. }
  destruct m as [| ? | ? | ? | ? | o]; try discriminate.
  simpl in Hpo, Hcc.
  destruct (assoc "pipeline" o) as [[| ? | ? | ? | ? | po]|] eqn:Ep; try discriminate.
  destruct (assoc "codecommit" po) as [[| ? | ? | ? | ? | co]|] eqn:Ec; try discriminate.
  destruct (config st) as [| ? | ? | ? | ? | c] eqn:Econf; try discriminate.
  unfold replacePipeline. rewrite Econf.
  cbn [getProp bind]. rewrite Ep. cbn [getProp bind]. rewrite Ec.
  cbn [getProp bind logOverride config]. rewrite Econf. cbn [setProp bind].
  eexists. split; [reflexivity|]. cbn [config].
  eapply (groups_ok_assign_leaf objs ["pipeline"] _ (JObj c)).
  - cbn [assignPath setProp]. reflexivity.
  - rewrite forallb_app. apply andb_true_iff. split; [|exact Hobjs].
    rewrite forallb_forall in *. intros g Hg. now rewrite Hopt.
  - exact HP.
Qed.

Ltac manifest_parent :=
  first [ left; reflexivity
        | right; split; [reflexivity | assumption] ].

Ltac weaken_groups :=
  let c := fresh "c" in
  let H := fresh "H" in
  intros c H; cbv beta in H;
  first [ exact H
        | exact (groups_ok_weaken _ _ _ H)
        | exact (groups_ok_weaken _ _ _ (groups_ok_weaken _ _ _ H)) ].

Ltac complete_all :=
  first
    [ eapply completes_seq; [complete_all | complete_all]
    | eapply completes_whenDefined;
      [discriminate | manifest_parent | intros ?; complete_all | weaken_groups]
    | eapply completes_whenGuardrails; [intros ?; complete_all | weaken_groups]
    | eapply completes_overrideField;
      [discriminate | manifest_parent | reflexivity | reflexivity]
    | eapply completes_overrideFieldUnlessEmpty;
      [discriminate | manifest_parent | reflexivity | reflexivity]
    | eapply completes_ensureGroup;
      [ discriminate | reflexivity | reflexivity | reflexivity
      | intros r Hr Hin; simpl in Hin;
        repeat (destruct Hin as [Hin|Hin];
                [try discriminate; inversion Hin; subst; try congruence;
                 try reflexivity|]);
        try contradiction; try (now apply get_path_empty_object) ]
    | eapply completes_replacePipeline;
      [reflexivity | reflexivity | reflexivity | assumption] ].

Lemma overrideStatements_completes :
  completes (fun c => SystemConfig_shape c = true) (overrideStatements m)
            (fun c => SystemConfig_shape c = true).
Proof. unfold overrideStatements, SystemConfig_shape. complete_all. Qed.

End Total.

(** ** The whole merge, seen from a group of the manifest *)

Lemma stays_refl g a : stays g a a.
Proof. intros H. exact H. Qed.

Lemma stays_trans g a b c : stays g a b -> stays g b c -> stays g a c.
Proof. unfold stays. auto. Qed.

Lemma made_then_stays g a b c : made g a b -> stays g b c -> made g a c.
Proof. unfold made, stays. auto. Qed.

Lemma any_then_made g a b c : True -> made g b c -> made g a c.
Proof. unfold made. auto. Qed.

Lemma rel_any s : rel (fun _ _ => True) s.
Proof. intros st st' _. exact I. Qed.

Lemma stays_assign G q x st st' :
  diverge G q || extends q G = true ->
  assignPath q x (cfg st) = Ok (config st') -> stays G st st'.
Proof.
  intros Hs Ha Ht. apply orb_true_iff in Hs as [Hd|He].
  - unfold cfg at 1. erewrite assignPath_diverge; eauto.
  - apply truthy_object. eapply assignPath_prefix_object; eauto.
Qed.

Lemma stays_overrideField m G q :
  diverge G q || extends q G = true -> rel (stays G) (overrideField m q).
Proof.
  intros Hs st st' H. apply overrideField_inv in H as [[_ ->]|(x & _ & H)].
  - apply stays_refl.
  - apply applyOverride_inv in H as (Ha & _). eapply stays_assign; eauto.
Qed.

Lemma stays_overrideFieldUnlessEmpty m G q :
  diverge G q || extends q G = true -> rel (stays G) (overrideFieldUnlessEmpty m q).
Proof.
  intros Hs st st' H.
  apply overrideFieldUnlessEmpty_inv in H as [[_ ->]|(x & _ & _ & H)].
  - apply stays_refl.
  - apply applyOverride_inv in H as (Ha & _). eapply stays_assign; eauto.
Qed.

Lemma stays_ensureGroup G g init :
  g <> [] -> is_object (Some init) = true -> rel (stays G) (ensureGroup g init).
Proof.
  intros Hg Hi st st' H. apply ensureGroup_inv in H as (_ & _ & [[_ ->]|[Hf Ha]]).
  - apply stays_refl.
  - intros Ht. destruct (path_trichotomy G g) as [Hd|[He|Hp]].
    + unfold cfg at 1. erewrite assignPath_diverge; eauto.
    + exfalso. apply extends_app in He as (r & Hr & E).
      rewrite E, get_path_app, (falsy_not_object _ _ Hf Hr) in Ht. discriminate.
    + apply prefix_of_cases in Hp as [->|He].
      * unfold cfg at 1. erewrite assignPath_same by eauto.
        now apply truthy_object.
      * apply truthy_object. eapply assignPath_prefix_object; eauto.
Qed.

Lemma stays_replacePipeline m G :
  diverge G ["pipeline"] = true -> rel (stays G) (replacePipeline m).
Proof.
  intros Hd st st' H.
  apply replacePipeline_inv in H as (_ & pl & old & new & Ha & _).
  eapply stays_assign; eauto. now rewrite Hd.
Qed.

Lemma made_ensureGroup G init :
  G <> [] -> is_object (Some init) = true -> rel (made G) (ensureGroup G init).
Proof.
  intros Hg Hi st st' H. apply ensureGroup_inv in H as (_ & _ & [[Ht ->]|[Hf Ha]]).
  - exact Ht.
  - unfold made, cfg. erewrite assignPath_same by eauto. now apply truthy_object.
Qed.

Lemma made_whenDefined m g body G :
  prefix_of g G = true -> get_path G (Some m) <> None ->
  rel (made G) body -> rel (made G) (whenDefined m g body).
Proof.
  intros Hp Hm Hb st st' H. unfold whenDefined in H.
  destruct (readPath g (Some m)) as [x|] eqn:E; simpl in H; [|discriminate].
  apply readPath_get in E.
  assert (Hg : get_path g (Some m) <> None) by (eapply prefix_defined; eauto).
  destruct x; [|congruence]. simpl in H. auto.
Qed.

Ltac stay_all :=
  first
    [ apply rel_seq; [apply stays_trans | stay_all | stay_all]
    | apply rel_whenDefined; [apply stays_refl | intros _; stay_all]
    | apply rel_whenGuardrails; [apply stays_refl | intros _; stay_all]
    | apply stays_overrideField; reflexivity
    | apply stays_overrideFieldUnlessEmpty; reflexivity
    | apply stays_ensureGroup; [discriminate | reflexivity]
    | apply stays_replacePipeline; reflexivity ].

Ltac made_find :=
  first
    [ apply made_ensureGroup; [discriminate | reflexivity]
    | eapply rel_seq2; [apply made_then_stays | made_find | stay_all]
    | eapply rel_seq2; [apply any_then_made | apply rel_any | made_find]
    | apply made_whenDefined; [reflexivity | assumption | made_find] ].

(** The groups that the merge creates when the manifest has them. *)
Lemma created_groups m G :
  In G [ ["vpc"]; ["cognitoFederation"];
         ["cognitoFederation"; "customSAML"];
         ["cognitoFederation"; "customOIDC"] ] ->
  get_path G (Some m) <> None ->
  rel (made G) (overrideStatements m).
Proof.
  intros Hin Hm. simpl in Hin.
  repeat (destruct Hin as [<-|Hin]; [unfold overrideStatements; made_find|]).
  contradiction.
Qed.

Lemma made_whenGuardrails m body G :
  get_path guardrails_group (Some m) <> None ->
  rel (made G) body -> rel (made G) (whenGuardrails m body).
Proof.
  intros Hm Hb st st' H. unfold whenGuardrails in H.
  destruct (getProp (Some m) "bedrock") as [b|] eqn:E1; simpl in H; [|discriminate].
  destruct (optionalProp b "guardrails") as [x|] eqn:E2; simpl in H; [|discriminate].
  pose proof (guardrails_guard _ _ _ E1 E2) as Hg.
  unfold guardrails_group in Hm. destruct x; [|congruence]. simpl in H. auto.
Qed.

Ltac made_find' :=
  first
    [ apply made_ensureGroup; [discriminate | reflexivity]
    | eapply rel_seq2; [apply made_then_stays | made_find' | stay_all]
    | eapply rel_seq2; [apply any_then_made | apply rel_any | made_find']
    | apply made_whenDefined; [reflexivity | assumption | made_find']
    | apply made_whenGuardrails; [assumption | made_find'] ].

Lemma created_guardrails m G :
  In G [ ["bedrock"]; guardrails_group ] ->
  get_path guardrails_group (Some m) <> None ->
  rel (made G) (overrideStatements m).
Proof.
  intros Hin Hm. simpl in Hin.
  repeat (destruct Hin as [<- | Hin]; [unfold overrideStatements; made_find'|]).
  contradiction.
Qed.

(** The empty-string sentinel: the bucket name is left alone. *)
Lemma untouched_sentinel m q :
  get_path q (Some m) = Some (JStr "") ->
  rel (untouched q) (overrideFieldUnlessEmpty m q).
Proof.
  intros Hm st st' H.
  apply overrideFieldUnlessEmpty_inv in H as [[_ ->]|(x & E & Hx & _)].
  - apply untouched_refl.
  - rewrite Hm in E. inversion E; subst. discriminate.
Qed.

Ltac untouched_all :=
  first
    [ apply rel_seq; [apply untouched_trans | untouched_all | untouched_all]
    | apply rel_whenDefined; [apply untouched_refl | intros _; untouched_all]
    | apply rel_whenGuardrails; [apply untouched_refl | intros _; untouched_all]
    | apply untouched_sentinel; assumption
    | apply untouched_overrideField; reflexivity
    | apply untouched_overrideFieldUnlessEmpty; reflexivity
    | apply untouched_ensureGroup; reflexivity
    | apply untouched_replacePipeline; reflexivity ].

Lemma empty_bucket_name_ignored m :
  get_path ["logArchiveBucketName"] (Some m) = Some (JStr "") ->
  rel (untouched ["logArchiveBucketName"]) (overrideStatements m).
Proof. intros Hm. unfold overrideStatements. untouched_all. Qed.

(** ** The parser *)

Section SchemaInduction.

Variable P : schema -> Prop.
Hypothesis PString : forall cs, P (ZString cs).
Hypothesis PBoolean : P ZBoolean.
Hypothesis PNumber : forall cs, P (ZNumber cs).
Hypothesis PEnum : forall vs, P (ZEnum vs).
Hypothesis PLiteral : forall v, P (ZLiteral v).
Hypothesis PArray : forall s ml, P s -> P (ZArray s ml).
Hypothesis PObject :
  forall shape, Forall (fun ks => P (snd ks)) shape -> P (ZObject shape).
Hypothesis POptional : forall s, P s -> P (ZOptional s).
Hypothesis PDefault : forall s dv, P s -> P (ZDefault s dv).
Hypothesis PUnion : forall s1 s2, P s1 -> P s2 -> P (ZUnion s1 s2).
Hypothesis PRefine : forall s chk txt rp, P s -> P (ZRefine s chk txt rp).

Fixpoint schema_induction (s : schema) : P s :=
  match s with
  | ZString cs => PString cs
  | ZBoolean => PBoolean
  | ZNumber cs => PNumber cs
  | ZEnum vs => PEnum vs
  | ZLiteral v => PLiteral v
  | ZArray e ml => PArray e ml (schema_induction e)
  | ZObject shape =>
      PObject shape
        ((fix each (sh : list (string * schema))
            : Forall (fun ks => P (snd ks)) sh :=
            match sh with
            | [] => Forall_nil _
            | ks :: sh' => Forall_cons ks (schema_induction (snd ks)) (each sh')
            end) shape)
  | ZOptional s' => POptional s' (schema_induction s')
  | ZDefault s' d => PDefault s' d (schema_induction s')
  | ZUnion a b => PUnion a b (schema_induction a) (schema_induction b)
  | ZRefine s' c m r => PRefine s' c m r (schema_induction s')
  end.

End SchemaInduction.

Section Parser.

Variable is_url : string -> bool.
Variable is_email : string -> bool.

Local Abbreviation zparse := (parse is_url is_email).
Local Abbreviation zfields := (parse_fields is_url is_email).
Local Abbreviation zitems := (parse_items is_url is_email).

Lemma parse_object shape p o :
  zparse (ZObject shape) p (Some (JObj o))
  = mergeObjectSync (zfields shape p o).
Proof.
  cbn [parse]. f_equal. unfold parse_fields.
  induction shape as [|[k fs] shape IH]; simpl; [reflexivity|].
  f_equal. exact IH.
Qed.

Lemma parse_array element ml p items :
  zparse (ZArray element ml) p (Some (JArr items))
  = mergeArray
      match ml with
      | Some (n, msg) =>
          if Nat.ltb (List.length items) n then [mkIssue too_small p msg] else []
      | None => []
      end
      (zitems element p 0 items).
Proof.
  cbn [parse]. f_equal. generalize 0.
  induction items as [|x xs IH]; intros i; simpl; [reflexivity|].
  f_equal. apply IH.
Qed.

Lemma parse_optional_some s p v :
  zparse (ZOptional s) p (Some v) = zparse s p (Some v).
Proof. reflexivity. Qed.

Lemma parse_optional_none s p : zparse (ZOptional s) p None = OK None.
Proof. reflexivity. Qed.

Lemma parse_object_type shape p d :
  is_object d = false ->
  zparse (ZObject shape) p d = INVALID [mkIssue invalid_type p None].
Proof. destruct d as [[]|]; simpl; congruence. Qed.

(** *** Statuses *)

Lemma merge_status_valid a b :
  merge_status a b = valid <-> a = valid /\ b = valid.
Proof. destruct a, b; simpl; split; intros; try tauto; try discriminate;
         destruct H; discriminate. Qed.

Lemma merge_status_aborted a b :
  merge_status a b = aborted <-> a = aborted \/ b = aborted.
Proof. destruct a, b; simpl; split; intros; try tauto; try discriminate;
         destruct H; discriminate. Qed.

Lemma merged_status_valid rs :
  merged_status rs = valid <-> Forall (fun r => pstatus r = valid) rs.
Proof.
  induction rs as [|r rs IH]; simpl.
  - split; auto.
  - rewrite merge_status_valid, IH. split.
    + intros [H1 H2]. constructor; auto.
    + intros H. inversion H; auto.
Qed.

Lemma merged_status_aborted rs :
  merged_status rs = aborted <-> Exists (fun r => pstatus r = aborted) rs.
Proof.
  induction rs as [|r rs IH]; simpl.
  - split; [discriminate | intros H; inversion H].
  - rewrite merge_status_aborted, IH. split.
    + intros [H|H]; [now left | now right].
    + intros H. inversion H; auto.
Qed.

Lemma mergeObjectSync_status fs :
  pstatus (mergeObjectSync fs) = merged_status (map snd fs).
Proof. unfold mergeObjectSync. now destruct (merged_status (map snd fs)). Qed.

Lemma mergeObjectSync_issues fs :
  pissues (mergeObjectSync fs) = flat_map (fun f => pissues (snd f)) fs.
Proof. unfold mergeObjectSync. now destruct (merged_status (map snd fs)). Qed.

Lemma mergeObjectSync_value fs :
  merged_status (map snd fs) <> aborted ->
  pvalue (mergeObjectSync fs) = Some (JObj (merged_props fs)).
Proof.
  unfold mergeObjectSync. destruct (merged_status (map snd fs)); simpl; congruence.
Qed.

Lemma mergeArray_status li rs :
  pstatus (mergeArray li rs)
  = merge_status (dirty_if_issues li) (merged_status rs).
Proof.
  unfold mergeArray.
  now destruct (merge_status (dirty_if_issues li) (merged_status rs)).
Qed.

Lemma mergeArray_issues li rs :
  pissues (mergeArray li rs) = li ++ flat_map pissues rs.
Proof.
  unfold mergeArray.
  now destruct (merge_status (dirty_if_issues li) (merged_status rs)).
Qed.

Lemma dirty_if_issues_valid l : dirty_if_issues l = valid <-> l = [].
Proof. destruct l; simpl; split; congruence. Qed.

Lemma dirty_if_issues_not_aborted l : dirty_if_issues l <> aborted.
Proof. destruct l; simpl; congruence. Qed.

(** *** A valid result carries no issue; any other carries at least one *)

Lemma parse_valid_no_issue s :
  forall p d, pstatus (zparse s p d) = valid -> pissues (zparse s p d) = [].
Proof.
  induction s using schema_induction; intros p d Hv.
  - destruct d as [[]|]; simpl in *; try discriminate.
    now apply dirty_if_issues_valid.
  - destruct d as [[]|]; simpl in *; try discriminate. reflexivity.
  - destruct d as [[]|]; simpl in *; try discriminate.
    now apply dirty_if_issues_valid.
  - destruct d as [[| | | x | |]|]; simpl in *; try discriminate.
    destruct (existsb (String.eqb x) vs); simpl in *; [reflexivity | discriminate].
  - destruct d as [[| | | x | |]|]; simpl in *; try discriminate.
    destruct (String.eqb x v); simpl in *; [reflexivity | discriminate].
  - destruct d as [[| | | | items |]|]; try discriminate.
    rewrite parse_array in *. rewrite mergeArray_status in Hv.
    rewrite mergeArray_issues. apply merge_status_valid in Hv as [H1 H2].
    apply dirty_if_issues_valid in H1. rewrite H1. simpl.
    apply merged_status_valid in H2. clear H1. revert H2. generalize 0.
    induction items as [|x xs IHx]; intros i H2; simpl; [reflexivity|].
    inversion H2; subst. rewrite IHs by assumption. simpl. now apply IHx.
  - destruct d as [[| | | | | o]|]; try discriminate.
    rewrite parse_object in *. rewrite mergeObjectSync_status in Hv.
    rewrite mergeObjectSync_issues. apply merged_status_valid in Hv.
    unfold parse_fields in *.
    induction shape as [|[k fs] shape IHsh]; simpl in *; [reflexivity|].
    inversion H; subst. inversion Hv; subst. simpl in *.
    rewrite H2 by assumption. simpl. now apply IHsh.
  - destruct d; simpl in *; [now apply IHs | reflexivity].
  - destruct d; simpl in *; now apply IHs.
  - simpl in *.
    destruct (pstatus (zparse s1 p d)) eqn:E1; [now apply IHs1 | |];
      (destruct (pstatus (zparse s2 p d)) eqn:E2; [now apply IHs2 | |]);
      simpl in *; try congruence.
  - simpl in *. destruct (pstatus (zparse s p d)) eqn:E.
    + destruct (chk (pvalue (zparse s p d))); simpl in *; [|discriminate].
      now apply IHs.
    + destruct (chk (pvalue (zparse s p d))); simpl in *; congruence.
    + discriminate.
Qed.

Lemma flat_map_nonempty {A B} (f : A -> list B) l x :
  In x l -> f x <> [] -> flat_map f l <> [].
Proof.
  intros Hin Hx E. apply Hx. 
  destruct (f x) as [|b bs] eqn:Ef; [reflexivity|].
  assert (In b (flat_map f l)) by (apply in_flat_map; exists x; rewrite Ef; simpl; auto).
  rewrite E in H. contradiction.
Qed.

Lemma merged_status_not_valid rs :
  merged_status rs <> valid -> exists r, In r rs /\ pstatus r <> valid.
Proof.
  induction rs as [|r rs IH]; simpl; [congruence|].
  intros H. destruct (pstatus r) eqn:E.
  - destruct IH as (r' & Hin & Hr').
    + intros Hv. apply H. now rewrite Hv.
    + eauto.
  - exists r. split; auto. congruence.
  - exists r. split; auto. congruence.
Qed.

Lemma parse_items_In element p xs :
  forall i r, In r (zitems element p i xs) ->
  exists j x, r = zparse element (p ++ [PIdx j]) (Some x).
Proof.
  induction xs as [|x xs IH]; intros i r H; simpl in H; [contradiction|].
  destruct H as [<-|H]; eauto.
Qed.

Lemma parse_not_valid_issue s :
  forall p d, pstatus (zparse s p d) <> valid -> pissues (zparse s p d) <> [].
Proof.
  induction s using schema_induction; intros p d Hv.
  - destruct d as [[]|]; simpl in *; try discriminate.
    intros E. apply Hv. now apply dirty_if_issues_valid.
  - destruct d as [[]|]; simpl in *; try discriminate. congruence.
  - destruct d as [[]|]; simpl in *; try discriminate.
    intros E. apply Hv. now apply dirty_if_issues_valid.
  - destruct d as [[| | | x | |]|]; simpl in *; try discriminate.
    destruct (existsb (String.eqb x) vs); simpl in *; [congruence | discriminate].
  - destruct d as [[| | | x | |]|]; simpl in *; try discriminate.
    destruct (String.eqb x v); simpl in *; [congruence | discriminate].
  - destruct d as [[| | | | items |]|]; try discriminate.
    rewrite parse_array in *. rewrite mergeArray_status in Hv.
    rewrite mergeArray_issues.
    match goal with |- ?li ++ _ <> [] => destruct li as [|e0 li0] eqn:Eli end;
      [|discriminate].
    simpl in *.
    destruct (merged_status_not_valid (zitems s p 0 items)) as (r & Hin & Hr).
    { intros E. apply Hv. now rewrite E. }
    destruct (parse_items_In _ _ _ _ _ Hin) as (j & x & ->).
    eapply flat_map_nonempty; eauto.
  - destruct (is_object d) eqn:Eo.
    + destruct d as [[| | | | | o]|]; try discriminate.
      rewrite parse_object in *. rewrite mergeObjectSync_status in Hv.
      rewrite mergeObjectSync_issues.
      destruct (merged_status_not_valid _ Hv) as (r & Hin & Hr).
      apply in_map_iff in Hin as ([k r'] & <- & Hin). simpl in Hr.
      eapply (flat_map_nonempty (fun f => pissues (snd f))); eauto. simpl.
      unfold parse_fields in Hin. apply in_map_iff in Hin as (ks & E & Hks).
      inversion E; subst. rewrite Forall_forall in H. now apply H.
    + rewrite parse_object_type by assumption. discriminate.
  - destruct d; simpl in *; [now apply IHs | congruence].
  - destruct d; simpl in *; now apply IHs.
  - simpl in *.
    destruct (pstatus (zparse s1 p d)) eqn:E1; [congruence | |];
      (destruct (pstatus (zparse s2 p d)) eqn:E2; [congruence | |]);
      simpl in *; try discriminate;
      try (apply IHs1; congruence); try (apply IHs2; congruence).
  - simpl in *. destruct (pstatus (zparse s p d)) eqn:E.
    + destruct (chk (pvalue (zparse s p d))); simpl in *; [congruence|].
      intros E'. apply app_eq_nil in E' as [_ E']. discriminate.
    + destruct (chk (pvalue (zparse s p d))); simpl in *.
      * apply IHs. congruence.
      * intros E'. apply app_eq_nil in E' as [_ E']. discriminate.
    + simpl. apply IHs. congruence.
Qed.

(** *** Every issue is reported at the parsed path or below *)

Lemma below_refl p m c : below p (mkIssue c p m).
Proof. exists []. simpl. now rewrite app_nil_r. Qed.

Lemma below_app p r e : below (p ++ r) e -> below p e.
Proof. intros (r' & E). exists (r ++ r'). now rewrite app_assoc. Qed.

Lemma string_check_below p x c e :
  In e (run_string_check is_url is_email p x c) -> below p e.
Proof.
  destruct c; simpl;
    repeat match goal with |- context [if ?b then _ else _] => destruct b end;
    simpl; intros H; try contradiction; destruct H as [<-|[]]; apply below_refl.
Qed.

Lemma number_check_below p q c e : In e (run_number_check p q c) -> below p e.
Proof.
  destruct c; simpl. destruct (Z.ltb 0 (Qnum q)); simpl; intros H;
    try contradiction; destruct H as [<-|[]]; apply below_refl.
Qed.

Lemma parse_issue_below s :
  forall p d e, In e (pissues (zparse s p d)) -> below p e.
Proof.
  induction s using schema_induction; intros p d e He.
  - destruct d as [[| | | x | |]|]; simpl in He;
      try (destruct He as [<-|[]]; apply below_refl).
    apply in_flat_map in He as (c & _ & Hc). eapply string_check_below; eauto.
  - destruct d as [[]|]; simpl in He; try contradiction;
      destruct He as [<-|[]]; apply below_refl.
  - destruct d as [[| | q | | |]|]; simpl in He;
      try (destruct He as [<-|[]]; apply below_refl).
    apply in_flat_map in He as (c & _ & Hc). eapply number_check_below; eauto.
  - destruct d as [[| | | x | |]|]; simpl in He;
      try (destruct He as [<-|[]]; apply below_refl).
    destruct (existsb (String.eqb x) vs); simpl in He; try contradiction.
    destruct He as [<-|[]]; apply below_refl.
  - destruct d as [[| | | x | |]|]; simpl in He;
      try (destruct He as [<-|[]]; apply below_refl).
    destruct (String.eqb x v); simpl in He; try contradiction.
    destruct He as [<-|[]]; apply below_refl.
  - destruct d as [[| | | | items |]|];
      try (simpl in He; destruct He as [<-|[]]; apply below_refl).
    rewrite parse_array, mergeArray_issues in He.
    apply in_app_or in He as [He|He].
    + destruct ml as [[n msg]|]; [|contradiction].
      destruct (Nat.ltb (List.length items) n); [|contradiction].
      destruct He as [<-|[]]. apply below_refl.
    + apply in_flat_map in He as (r & Hr & He).
      destruct (parse_items_In _ _ _ _ _ Hr) as (j & x & ->).
      eapply below_app. eapply IHs; eauto.
  - destruct (is_object d) eqn:Eo.
    + destruct d as [[| | | | | o]|]; try discriminate.
      rewrite parse_object, mergeObjectSync_issues in He.
      apply in_flat_map in He as ([k r] & Hr & He). simpl in He.
      unfold parse_fields in Hr. apply in_map_iff in Hr as (ks & E & Hks).
      inversion E; subst. rewrite Forall_forall in H.
      eapply below_app. eapply H; eauto.
    + rewrite parse_object_type in He by assumption.
      destruct He as [<-|[]]. apply below_refl.
  - destruct d; simpl in He; [eapply IHs; eauto | contradiction].
  - destruct d; simpl in He; eapply IHs; eauto.
  - simpl in He.
    destruct (pstatus (zparse s1 p d)) eqn:E1; [eapply IHs1; eauto | |];
      (destruct (pstatus (zparse s2 p d)) eqn:E2; [eapply IHs2; eauto | |]);
      simpl in He;
      try (eapply IHs1; eauto; fail); try (eapply IHs2; eauto; fail);
      destruct He as [<-|[]]; apply below_refl.
  - simpl in He. destruct (pstatus (zparse s p d)) eqn:E;
      try (destruct (chk (pvalue (zparse s p d))); simpl in He;
           [eapply IHs; eauto|];
           apply in_app_or in He as [He|[<-|[]]];
           [eapply IHs; eauto | exists rp; reflexivity]).
    simpl in He. eapply IHs; eauto.
Qed.

(** *** The value of an object *)

Lemma distinct_keys_cons k fs sh :
  distinct_keys (ZObject ((k, fs) :: sh))
  = negb (existsb (fun ks => String.eqb k (fst ks)) sh)
    && distinct_keys fs && distinct_keys (ZObject sh).
Proof. reflexivity. Qed.

Lemma shape_lookup_fresh k sh :
  existsb (fun ks => String.eqb k (fst ks)) sh = false -> shape_lookup k sh = None.
Proof.
  induction sh as [|[k' fs] sh IH]; simpl; [reflexivity|].
  intros H. apply orb_false_iff in H as [H1 H2]. rewrite H1. auto.
Qed.

Lemma merged_props_fresh k sh p o :
  existsb (fun ks => String.eqb k (fst ks)) sh = false ->
  assoc k (merged_props (zfields sh p o)) = None.
Proof.
  induction sh as [|[k' fs] sh IH]; simpl; [reflexivity|].
  intros H. apply orb_false_iff in H as [H1 H2].
  destruct (pvalue (zparse fs (p ++ [PKey k']) (assoc k' o))); simpl; auto.
  rewrite H1. auto.
Qed.

Lemma merged_props_assoc k sh p o :
  distinct_keys (ZObject sh) = true ->
  assoc k (merged_props (zfields sh p o))
  = match shape_lookup k sh with
    | Some fs => pvalue (zparse fs (p ++ [PKey k]) (assoc k o))
    | None => None
    end.
Proof.
  induction sh as [|[k' fs] sh IH]; intros Hd; [reflexivity|].
  rewrite distinct_keys_cons in Hd.
  apply andb_true_iff in Hd as [Hd Hsh]. apply andb_true_iff in Hd as [Hk _].
  apply negb_true_iff in Hk.
  cbn [parse_fields map merged_props shape_lookup fst snd].
  destruct (String.eqb k k') eqn:E.
  - apply String.eqb_eq in E. subst k'.
    destruct (pvalue (zparse fs (p ++ [PKey k]) (assoc k o))) eqn:Ev.
    + simpl. now rewrite String.eqb_refl.
    + now apply merged_props_fresh.
  - destruct (pvalue (zparse fs (p ++ [PKey k']) (assoc k' o))); simpl;
      [rewrite E|]; now apply IH.
Qed.

Lemma shape_lookup_In k fs sh : shape_lookup k sh = Some fs -> In (k, fs) sh.
Proof.
  induction sh as [|[k' fs'] sh IH]; simpl; [discriminate|].
  destruct (String.eqb k k') eqn:E.
  - apply String.eqb_eq in E. intros H. inversion H; subst. auto.
  - auto.
Qed.

Lemma In_shape_lookup k fs sh :
  distinct_keys (ZObject sh) = true -> In (k, fs) sh -> shape_lookup k sh = Some fs.
Proof.
  induction sh as [|[k' fs'] sh IH]; intros Hd Hin; [contradiction|].
  rewrite distinct_keys_cons in Hd.
  apply andb_true_iff in Hd as [Hd Hsh]. apply andb_true_iff in Hd as [Hk _].
  apply negb_true_iff in Hk. simpl.
  destruct Hin as [E|Hin].
  - inversion E; subst. now rewrite String.eqb_refl.
  - destruct (String.eqb k k') eqn:E; [|auto].
    apply String.eqb_eq in E. subst k'.
    assert (Hex : existsb (fun ks => String.eqb k (fst ks)) sh = true).
    { apply existsb_exists. exists (k, fs). split; auto. apply String.eqb_refl. }
    congruence.
Qed.

Lemma distinct_keys_field k fs sh :
  distinct_keys (ZObject sh) = true -> In (k, fs) sh -> distinct_keys fs = true.
Proof.
  induction sh as [|[k' fs'] sh IH]; intros Hd Hin; [contradiction|].
  rewrite distinct_keys_cons in Hd.
  apply andb_true_iff in Hd as [Hd Hsh]. apply andb_true_iff in Hd as [_ Hfs].
  destruct Hin as [E|Hin]; [inversion E; subst; auto | auto].
Qed.

Lemma field_parsed k fs sh p o :
  In (k, fs) sh ->
  In (k, zparse fs (p ++ [PKey k]) (assoc k o)) (zfields sh p o).
Proof.
  intros H. unfold parse_fields. apply in_map_iff. exists (k, fs). auto.
Qed.

Lemma object_field_valid k fs sh p o :
  In (k, fs) sh ->
  pstatus (zparse (ZObject sh) p (Some (JObj o))) = valid ->
  pstatus (zparse fs (p ++ [PKey k]) (assoc k o)) = valid.
Proof.
  intros Hin Hv. rewrite parse_object, mergeObjectSync_status in Hv.
  apply merged_status_valid in Hv. rewrite Forall_forall in Hv.
  apply (Hv (zparse fs (p ++ [PKey k]) (assoc k o))).
  apply in_map_iff. exists (k, zparse fs (p ++ [PKey k]) (assoc k o)).
  split; [reflexivity | now apply field_parsed].
Qed.

Lemma object_field_not_aborted k fs sh p o :
  In (k, fs) sh ->
  pstatus (zparse (ZObject sh) p (Some (JObj o))) <> aborted ->
  pstatus (zparse fs (p ++ [PKey k]) (assoc k o)) <> aborted.
Proof.
  intros Hin Hv Ha. apply Hv. rewrite parse_object, mergeObjectSync_status.
  apply merged_status_aborted. apply Exists_exists.
  exists (zparse fs (p ++ [PKey k]) (assoc k o)). split; [|assumption].
  apply in_map_iff. exists (k, zparse fs (p ++ [PKey k]) (assoc k o)).
  split; [reflexivity | now apply field_parsed].
Qed.

Lemma object_field_issues k fs sh p o :
  In (k, fs) sh ->
  incl (pissues (zparse fs (p ++ [PKey k]) (assoc k o)))
       (pissues (zparse (ZObject sh) p (Some (JObj o)))).
Proof.
  intros Hin e He. rewrite parse_object, mergeObjectSync_issues.
  apply in_flat_map. exists (k, zparse fs (p ++ [PKey k]) (assoc k o)).
  split; [now apply field_parsed | assumption].
Qed.

Lemma object_value sh p o :
  pstatus (zparse (ZObject sh) p (Some (JObj o))) <> aborted ->
  pvalue (zparse (ZObject sh) p (Some (JObj o)))
  = Some (JObj (merged_props (zfields sh p o))).
Proof.
  intros H. rewrite parse_object in *. rewrite mergeObjectSync_status in H.
  now apply mergeObjectSync_value.
Qed.

(** The field [k] of a parsed object is the parsed field. *)
Lemma object_value_field k fs sh p o :
  distinct_keys (ZObject sh) = true -> In (k, fs) sh ->
  pstatus (zparse (ZObject sh) p (Some (JObj o))) <> aborted ->
  field (pvalue (zparse (ZObject sh) p (Some (JObj o)))) k
  = pvalue (zparse fs (p ++ [PKey k]) (assoc k o)).
Proof.
  intros Hd Hin Hs. rewrite object_value by assumption.
  unfold field. cbn [get_path]. rewrite merged_props_assoc by assumption.
  now rewrite (In_shape_lookup _ _ _ Hd Hin).
Qed.

(** *** The skeleton of a parsed value *)

Lemma skeleton_object sh o :
  skeleton (ZObject sh) (Some (JObj o)) <->
  (forall k fs, In (k, fs) sh -> skeleton fs (assoc k o)).
Proof.
  cbn [skeleton]. split.
  - intros (o' & E & H). inversion E; subst o'. clear E.
    induction sh as [|[k' fs'] sh IH]; intros k fs Hin; [contradiction|].
    destruct H as [H1 H2]. destruct Hin as [E|Hin]; [inversion E; subst; auto|].
    now apply IH.
  - intros H. exists o. split; [reflexivity|].
    induction sh as [|[k' fs'] sh IH]; [exact I|]. split.
    + apply H. now left.
    + apply IH. intros k fs Hin. apply H. now right.
Qed.

Lemma parse_skeleton s :
  forall p d, distinct_keys s = true -> pstatus (zparse s p d) <> aborted ->
              skeleton s (pvalue (zparse s p d)).
Proof.
  induction s using schema_induction; intros p d Hd Hs; try exact I.
  - destruct (is_object d) eqn:Eo.
    + destruct d as [[| | | | | o]|]; try discriminate.
      rewrite object_value by assumption. apply skeleton_object.
      intros k fs Hin. rewrite merged_props_assoc by assumption.
      rewrite (In_shape_lookup _ _ _ Hd Hin).
      rewrite Forall_forall in H. apply (H (k, fs) Hin).
      * eapply distinct_keys_field; eauto.
      * eapply object_field_not_aborted; eauto.
    + rewrite parse_object_type in Hs by assumption. simpl in Hs. congruence.
  - destruct d; simpl in *; [right; now apply IHs | now left].
  - destruct d; simpl in *; now apply IHs.
  - simpl in *. destruct (pstatus (zparse s p d)) eqn:E.
    + destruct (chk (pvalue (zparse s p d))); simpl; apply IHs; congruence.
    + destruct (chk (pvalue (zparse s p d))); simpl; apply IHs; congruence.
    + simpl in Hs. congruence.
Qed.

(** *** Wrappers *)

Lemma strip_issues s :
  forall p d, d <> None ->
  incl (pissues (zparse (strip s) p d)) (pissues (zparse s p d)).
Proof.
  induction s using schema_induction; intros p d Hd; try apply incl_refl.
  - destruct d; [|congruence]. simpl. now apply IHs.
  - destruct d; [|congruence]. simpl. now apply IHs.
  - simpl. intros e He. apply IHs in He; auto.
    destruct (pstatus (zparse s p d)); simpl; auto;
      destruct (chk (pvalue (zparse s p d))); simpl; auto using in_or_app.
Qed.

Lemma strip_valid s :
  forall p d, d <> None -> pstatus (zparse s p d) = valid ->
              pstatus (zparse (strip s) p d) = valid.
Proof.
  induction s using schema_induction; intros p d Hd Hv; auto.
  - destruct d; [|congruence]. simpl in *. now apply IHs.
  - destruct d; [|congruence]. simpl in *. now apply IHs.
  - simpl in *. apply IHs; auto.
    destruct (pstatus (zparse s p d)) eqn:E; auto; simpl in Hv;
      try discriminate;
      destruct (chk (pvalue (zparse s p d))); simpl in Hv; congruence.
Qed.

Lemma strip_skeleton s :
  forall v, v <> None -> skeleton s v -> skeleton (strip s) v.
Proof.
  induction s using schema_induction; intros v0 Hv Hs; simpl in *; auto.
  destruct Hs as [E|Hs]; [congruence | auto].
Qed.

(** *** The field at a path *)

Lemma removelast_cons2 {A} (a b : A) l :
  removelast (a :: b :: l) = a :: removelast (b :: l).
Proof. reflexivity. Qed.

Lemma reached_object k g d :
  (k :: g <> [] -> is_object (get_path (removelast (k :: g)) d) = true) ->
  is_object d = true.
Proof.
  intros H. specialize (H ltac:(discriminate)). destruct g as [|k2 g].
  - exact H.
  - rewrite removelast_cons2 in H.
    apply (get_path_cons_object k (removelast (k2 :: g))).
    destruct (get_path (k :: removelast (k2 :: g)) d); discriminate.
Qed.

Lemma reached_tail k g o :
  (k :: g <> [] ->
   is_object (get_path (removelast (k :: g)) (Some (JObj o))) = true) ->
  g <> [] -> is_object (get_path (removelast g) (assoc k o)) = true.
Proof.
  intros H Hg. specialize (H ltac:(discriminate)).
  destruct g as [|k2 g]; [congruence|]. now rewrite removelast_cons2 in H.
Qed.

Lemma node_issues g :
  forall s p d s',
    node_at s g = Some s' ->
    (g <> [] -> is_object (get_path (removelast g) d) = true) ->
    incl (pissues (zparse s' (p ++ keys g) (get_path g d)))
         (pissues (zparse s p d)).
Proof.
  induction g as [|k g IH]; intros s p d s' Hn Hr.
  - simpl in *. inversion Hn; subst. rewrite app_nil_r. apply incl_refl.
  - pose proof (reached_object _ _ _ Hr) as Ho.
    destruct d as [[| | | | | o]|]; try discriminate.
    cbn [node_at] in Hn. destruct (strip s) as [| | | | | |sh| | | |] eqn:Es;
      try discriminate.
    destruct (shape_lookup k sh) as [fs|] eqn:El; [|discriminate].
    eapply incl_tran; [|apply strip_issues; discriminate]. rewrite Es.
    eapply incl_tran;
      [|apply (object_field_issues k fs); now apply shape_lookup_In].
    cbn [keys map get_path].
    replace (p ++ PKey k :: map PKey g) with ((p ++ [PKey k]) ++ keys g)
      by (now rewrite <- app_assoc).
    apply IH; auto. intros Hg. now apply reached_tail.
Qed.

Lemma node_valid g :
  forall s p d s',
    node_at s g = Some s' ->
    (g <> [] -> is_object (get_path (removelast g) d) = true) ->
    pstatus (zparse s p d) = valid ->
    pstatus (zparse s' (p ++ keys g) (get_path g d)) = valid.
Proof.
  induction g as [|k g IH]; intros s p d s' Hn Hr Hv.
  - simpl in *. inversion Hn; subst. now rewrite app_nil_r.
  - pose proof (reached_object _ _ _ Hr) as Ho.
    destruct d as [[| | | | | o]|]; try discriminate.
    cbn [node_at] in Hn. destruct (strip s) as [| | | | | |sh| | | |] eqn:Es;
      try discriminate.
    destruct (shape_lookup k sh) as [fs|] eqn:El; [|discriminate].
    apply strip_valid in Hv; [|discriminate]. rewrite Es in Hv.
    cbn [keys map get_path].
    replace (p ++ PKey k :: map PKey g) with ((p ++ [PKey k]) ++ keys g)
      by (now rewrite <- app_assoc).
    apply (IH fs); auto.
    + intros Hg. now apply reached_tail.
    + eapply object_field_valid; eauto. now apply shape_lookup_In.
Qed.

Lemma node_skeleton g :
  forall s v s',
    node_at s g = Some s' -> skeleton s v ->
    (g <> [] -> get_path (removelast g) v <> None) ->
    skeleton s' (get_path g v).
Proof.
  induction g as [|k g IH]; intros s v s' Hn Hs Hr.
  - simpl in *. now inversion Hn; subst.
  - assert (Hv : v <> None).
    { specialize (Hr ltac:(discriminate)). intros ->.
      now rewrite get_path_none in Hr. }
    cbn [node_at] in Hn. destruct (strip s) as [| | | | | |sh| | | |] eqn:Es;
      try discriminate.
    destruct (shape_lookup k sh) as [fs|] eqn:El; [|discriminate].
    apply strip_skeleton in Hs; auto. rewrite Es in Hs.
    pose proof Hs as (o & -> & _). cbn [get_path].
    apply (IH fs); auto.
    + rewrite skeleton_object in Hs. apply Hs. now apply shape_lookup_In.
    + intros Hg. specialize (Hr ltac:(discriminate)).
      destruct g as [|k2 g]; [congruence|]. now rewrite removelast_cons2 in Hr.
Qed.

Lemma skeleton_absent_or_object s v sh :
  strip s = ZObject sh -> skeleton s v -> absent_or_object v = true.
Proof.
  intros Es Hs. destruct v as [x|]; [|reflexivity].
  apply strip_skeleton in Hs; [|discriminate]. rewrite Es in Hs.
  destruct Hs as (o & E & _). now inversion E.
Qed.

Lemma removelast_defined g v :
  get_path g v <> None -> g <> [] -> get_path (removelast g) v <> None.
Proof.
  intros H Hg. destruct (exists_last Hg) as (g' & k & ->).
  rewrite removelast_last. rewrite get_path_app in H.
  intros E. rewrite E in H. now rewrite get_path_none in H.
Qed.

Lemma group_shape g s v s' sh :
  skeleton s v -> node_at s g = Some s' -> strip s' = ZObject sh ->
  absent_or_object (get_path g v) = true.
Proof.
  intros Hs Hn Es. destruct (get_path g v) eqn:E; [|reflexivity].
  rewrite <- E. eapply skeleton_absent_or_object; eauto.
  eapply node_skeleton; eauto. intros Hg.
  apply removelast_defined; congruence.
Qed.

End Parser.

(** ** Refinements and counting *)

Section Rules.

Variable is_url : string -> bool.
Variable is_email : string -> bool.

Local Abbreviation zparse := (parse is_url is_email).
Local Abbreviation zfields := (parse_fields is_url is_email).
Local Abbreviation zitems := (parse_items is_url is_email).

Lemma refine_layer s chk message rp p d :
  pstatus (zparse s p d) <> aborted ->
  pstatus (zparse (ZRefine s chk message rp) p d) <> aborted
  /\ pvalue (zparse (ZRefine s chk message rp) p d) = pvalue (zparse s p d)
  /\ incl (pissues (zparse s p d))
          (pissues (zparse (ZRefine s chk message rp) p d))
  /\ (chk (pvalue (zparse s p d)) = false ->
      In (mkIssue custom (p ++ rp) (Some message))
         (pissues (zparse (ZRefine s chk message rp) p d))).
Proof.
  intros Hs. cbn [parse].
  destruct (pstatus (zparse s p d)) eqn:E; [| |congruence];
    (destruct (chk (pvalue (zparse s p d))) eqn:Ec; cbn [pstatus pvalue pissues];
     repeat split; try congruence; try discriminate;
     try apply incl_refl; try (apply incl_appl; apply incl_refl);
     try (intros _; apply in_or_app; right; now left)).
Qed.

Lemma refine_valid_inv s chk message rp p d :
  pstatus (zparse (ZRefine s chk message rp) p d) = valid ->
  pstatus (zparse s p d) = valid /\ chk (pvalue (zparse s p d)) = true.
Proof.
  cbn [parse]. destruct (pstatus (zparse s p d)) eqn:E;
    destruct (chk (pvalue (zparse s p d))) eqn:Ec; cbn [pstatus];
    try discriminate; try congruence; auto.
Qed.

(** Around a value whose fields are free of type errors, every wrapper
    keeps the value, and every refinement that fails is reported. *)
Lemma wrappers_report s :
  forall p d, d <> None ->
    pstatus (zparse (strip s) p d) <> aborted ->
    pstatus (zparse s p d) <> aborted
    /\ pvalue (zparse s p d) = pvalue (zparse (strip s) p d)
    /\ forall chk message rp,
         In (chk, message, rp) (rules_of s) ->
         chk (pvalue (zparse (strip s) p d)) = false ->
         In (mkIssue custom (p ++ rp) (Some message)) (pissues (zparse s p d)).
Proof.
  induction s using schema_induction; intros p d Hd Hs;
    try (split; [exact Hs | split; [reflexivity | intros ? ? ? []]]).
  - destruct d; [|congruence]. cbn [strip rules_of] in *. simpl. now apply IHs.
  - destruct d; [|congruence]. cbn [strip rules_of] in *. simpl. now apply IHs.
  - cbn [strip rules_of] in *.
    destruct (IHs p d Hd Hs) as (Hna & Hval & Hrules).
    destruct (refine_layer s chk txt rp p d Hna) as (H1 & H2 & H3 & H4).
    split; [exact H1|]. split; [congruence|].
    intros chk' message' rp' Hin Hf.
    apply in_app_or in Hin as [Hin|[Heq|[]]].
    + apply H3. eauto.
    + inversion Heq; subst. apply H4. now rewrite Hval.
Qed.

Lemma object_issue_field sh p o e :
  In e (pissues (zparse (ZObject sh) p (Some (JObj o)))) ->
  exists k fs, In (k, fs) sh
               /\ In e (pissues (zparse fs (p ++ [PKey k]) (assoc k o))).
Proof.
  rewrite parse_object, mergeObjectSync_issues. intros H.
  apply in_flat_map in H as ([k r] & Hr & He). simpl in He.
  unfold parse_fields in Hr. apply in_map_iff in Hr as ([k' fs] & E & Hin).
  simpl in E. inversion E; subst. eauto.
Qed.

Lemma object_status_ext sh p o o' :
  (forall k fs, In (k, fs) sh ->
     pstatus (zparse fs (p ++ [PKey k]) (assoc k o))
     = pstatus (zparse fs (p ++ [PKey k]) (assoc k o'))) ->
  pstatus (zparse (ZObject sh) p (Some (JObj o)))
  = pstatus (zparse (ZObject sh) p (Some (JObj o'))).
Proof.
  intros H. rewrite !parse_object, !mergeObjectSync_status.
  unfold parse_fields. induction sh as [|[k fs] sh IH]; simpl; [reflexivity|].
  rewrite (H k fs) by (now left). f_equal. apply IH.
  intros k' fs' Hin. apply H. now right.
Qed.

Lemma assoc_remove_same k o : assoc k (assoc_remove k o) = None.
Proof.
  induction o as [|[k' v] o IH]; simpl; [reflexivity|].
  destruct (String.eqb k k') eqn:E; simpl; [exact IH | now rewrite E].
Qed.

Lemma assoc_remove_other k k' o :
  k' <> k -> assoc k' (assoc_remove k o) = assoc k' o.
Proof.
  intros Hne. induction o as [|[k2 v] o IH]; simpl; [reflexivity|].
  destruct (String.eqb k k2) eqn:E; simpl.
  - apply String.eqb_eq in E. subst k2.
    apply String.eqb_neq in Hne. now rewrite Hne.
  - now rewrite IH.
Qed.

(** Two paths with a common extension do not part ways. *)
Lemma common_extension a : forall b r r',
  keys a ++ r = keys b ++ r' -> diverge a b = false.
Proof.
  induction a as [|x a IH]; intros [|y b] r r' H; simpl in *; auto.
  inversion H; subst. rewrite String.eqb_refl. eauto.
Qed.

(** Issues reported below paths that part ways are different issues. *)
Lemma diverging_issues gs : forall errors,
  ForallOrdPairs (fun a b => diverge a b = true) gs ->
  (forall g, In g gs -> exists e, In e errors /\ below (keys g) e) ->
  List.length gs <= List.length errors.
Proof.
  induction gs as [|g gs IH]; intros errors Hd Hall; simpl; [lia|].
  inversion Hd as [|? ? Hg Hrest]; subst.
  destruct (Hall g (or_introl eq_refl)) as (e & Hin & (r & He)).
  apply in_split in Hin as (l1 & l2 & ->).
  rewrite length_app. simpl.
  enough (List.length gs <= List.length (l1 ++ l2))
    by (rewrite length_app in *; lia).
  apply IH; auto. intros g' Hg'.
  destruct (Hall g' (or_intror Hg')) as (e' & Hin' & (r' & He')).
  exists e'. split; [|now exists r'].
  apply in_app_or in Hin' as [H|[H|H]]; try (apply in_or_app; auto; fail).
  subst e'. exfalso. rewrite Forall_forall in Hg. specialize (Hg g' Hg').
  rewrite (common_extension g g' r r') in Hg; [discriminate | congruence].
Qed.

(** A string that passes [min(1)] is not empty. *)
Lemma string_valid_inv cs p d :
  pstatus (zparse (ZString cs) p d) = valid ->
  exists x, d = Some (JStr x)
            /\ pvalue (zparse (ZString cs) p d) = d
            /\ forall c, In c cs -> run_string_check is_url is_email p x c = [].
Proof.
  destruct d as [[| | | x | |]|]; simpl; try discriminate.
  intros H. apply dirty_if_issues_valid in H. exists x. repeat split.
  intros c Hc. destruct (run_string_check is_url is_email p x c) eqn:E; auto.
  exfalso. assert (Hin : In i (flat_map (run_string_check is_url is_email p x) cs))
    by (apply in_flat_map; exists c; rewrite E; simpl; auto).
  now rewrite H in Hin.
Qed.

Lemma string_not_aborted_inv cs p d :
  pstatus (zparse (ZString cs) p d) <> aborted ->
  exists x, d = Some (JStr x) /\ pvalue (zparse (ZString cs) p d) = d.
Proof.
  destruct d as [[| | | x | |]|]; simpl; try congruence. eauto.
Qed.

Lemma boolean_valid_inv p d :
  pstatus (zparse ZBoolean p d) = valid ->
  exists b, d = Some (JBool b) /\ pvalue (zparse ZBoolean p d) = d.
Proof. destruct d as [[| b | | | |]|]; simpl; try discriminate. eauto. Qed.

Lemma optional_string_truthy cs m0 p v :
  In (CMin 1 m0) cs ->
  pstatus (zparse (ZOptional (ZString cs)) p v) = valid ->
  truthy (pvalue (zparse (ZOptional (ZString cs)) p v)) = defined v.
Proof.
  intros Hmin Hv. destruct v as [v|]; [|reflexivity].
  change (zparse (ZOptional (ZString cs)) p (Some v))
    with (zparse (ZString cs) p (Some v)) in *.
  destruct (string_valid_inv cs p (Some v) Hv) as (x & Hx & Hval & Hck).
  rewrite Hval. inversion Hx; subst v. specialize (Hck _ Hmin).
  destruct x; [simpl in Hck; discriminate | reflexivity].
Qed.

Lemma optional_boolean_truthy p v :
  pstatus (zparse (ZOptional ZBoolean) p v) = valid ->
  truthy (pvalue (zparse (ZOptional ZBoolean) p v))
  = match v with Some (JBool true) => true | _ => false end.
Proof.
  intros Hv. destruct v as [v|]; [|reflexivity].
  change (zparse (ZOptional ZBoolean) p (Some v))
    with (zparse ZBoolean p (Some v)) in *.
  destruct (boolean_valid_inv p (Some v) Hv) as (b & Hb & Hval).
  rewrite Hval. inversion Hb; subst v. now destruct b.
Qed.

Lemma array_not_aborted_inv s ml p d :
  pstatus (zparse (ZArray s ml) p d) <> aborted ->
  exists items, d = Some (JArr items)
    /\ pvalue (zparse (ZArray s ml) p d)
       = Some (JArr (merged_items (zitems s p 0 items)))
    /\ Forall (fun r => pstatus r <> aborted) (zitems s p 0 items).
Proof.
  destruct d as [[| | | | items |]|]; try (simpl; congruence).
  rewrite parse_array, mergeArray_status. intros H. exists items.
  split; [reflexivity|].
  assert (Hm : merged_status (zitems s p 0 items) <> aborted).
  { intros E. apply H. rewrite E. now destruct (dirty_if_issues _). }
  split.
  - unfold mergeArray.
    destruct (merge_status _ (merged_status (zitems s p 0 items))) eqn:E;
      try reflexivity. congruence.
  - apply Forall_forall. intros r Hr Ha. apply Hm.
    apply merged_status_aborted. apply Exists_exists. eauto.
Qed.

End Rules.

(** ** Validated manifests *)

Section Validated.

Variable is_url : string -> bool.
Variable is_email : string -> bool.

Local Abbreviation zparse := (parse is_url is_email).
Local Abbreviation validate := (safeParse is_url is_email DeploymentManifestSchema).

Lemma schema_distinct_keys : distinct_keys DeploymentManifestSchema = true.
Proof. reflexivity. Qed.

Lemma safeParse_Success s d data :
  safeParse is_url is_email s d = Success data ->
  pstatus (zparse s [] d) = valid /\ pvalue (zparse s [] d) = data.
Proof.
  unfold safeParse. destruct (pstatus (zparse s [] d)); intros H;
    inversion H; auto.
Qed.

Lemma safeParse_Failure s d errors :
  safeParse is_url is_email s d = Failure errors ->
  pstatus (zparse s [] d) <> valid /\ pissues (zparse s [] d) = errors.
Proof.
  unfold safeParse. destruct (pstatus (zparse s [] d)); intros H;
    inversion H; split; auto; discriminate.
Qed.

(** A failure always comes with at least one error. *)
Lemma safeParse_Failure_nonempty s d errors :
  safeParse is_url is_email s d = Failure errors -> errors <> [].
Proof.
  intros H. apply safeParse_Failure in H as [Hs <-].
  now apply parse_not_valid_issue.
Qed.

Lemma validated_skeleton d data :
  validate d = Success data -> skeleton DeploymentManifestSchema data.
Proof.
  intros H. apply safeParse_Success in H as [Hs <-].
  apply parse_skeleton; [apply schema_distinct_keys | congruence].
Qed.

Lemma validated_object d data :
  validate d = Success data -> exists o, data = Some (JObj o).
Proof.
  intros H. apply validated_skeleton in H. destruct H as (o & E & _). eauto.
Qed.

Lemma validated_shape d m :
  validate d = Success (Some m) -> DeploymentManifest_shape m = true.
Proof.
  intros H. apply validated_skeleton in H.
  unfold DeploymentManifest_shape. rewrite !andb_true_iff. repeat split.
  - destruct H as (o & E & _). now inversion E.
  - apply forallb_forall. intros g Hg. simpl in Hg.
    repeat (destruct Hg as [<-|Hg];
            [eapply group_shape; [exact H | reflexivity | reflexivity]|]).
    contradiction.
  - destruct (get_path ["pipeline"] (Some m)) eqn:Ep; [|reflexivity].
    assert (Hs : skeleton PipelineCodeCommitSchema
                          (get_path ["pipeline"; "codecommit"] (Some m))).
    { apply (node_skeleton ["pipeline"; "codecommit"]
               DeploymentManifestSchema (Some m));
        [reflexivity | exact H |].
      intros _. simpl removelast. congruence. }
    destruct Hs as (o & E & _). rewrite E. reflexivity.
Qed.

(** The merge of a validated manifest into a well-shaped configuration
    completes. *)
Lemma merge_completes base d m :
  SystemConfig_shape base = true ->
  validate d = Success (Some m) ->
  exists st, applyManifestOverrides base m = Ok st
             /\ SystemConfig_shape (config st) = true.
Proof.
  intros Hb Hv. apply validated_shape in Hv.
  apply (overrideStatements_completes m Hv
           {| config := deepClone base; overrideCount := 0; overrides := [] |}).
  exact Hb.
Qed.

End Validated.

(* ================================================================= *)
(** * The specification, statement by statement *)

Section MergeClaims.

Variable is_url : string -> bool.
Variable is_email : string -> bool.

Local Abbreviation validate := (safeParse is_url is_email DeploymentManifestSchema).

(** C5: a list-valued field that a validated override carries
    ([vpc.subnetIds], [vpc.s3VpcEndpointIps], the external knowledge-base
    descriptors, [rag.embeddingsModels], [rag.crossEncoderModels]) resolves to
    exactly the override's list, whatever list the base held; so a base list
    of three model descriptors overridden by a list of one resolves to that
    one entry. *)
Theorem C5_list_fields_replaced_wholesale base d m :
  SystemConfig_shape base = true ->
  validate d = Success (Some m) ->
  exists st, applyManifestOverrides base m = Ok st /\
    forall q l, In q list_paths -> get_path q (Some m) = Some l ->
                get_path q (cfg st) = Some l.
Proof.
  intros Hb Hv. destruct (merge_completes _ _ _ _ _ Hb Hv) as (st & Hst & _).
  exists st. split; [exact Hst|]. intros q l Hq Hm.
  refine (proj1 (override_effect m q l _ Hm _ _ _ Hst)).
  - unfold override_paths. apply in_or_app. now right.
  - intros ->. simpl in Hq. repeat (destruct Hq as [Hq|Hq]; [discriminate|]).
    contradiction.
Qed.

(** C4 (amended): a scalar field that a validated override carries and that
    the merge overrides on its own (every scalar outside the pipeline group)
    resolves to the override's value under exactly one change record naming
    its path, whatever the base value was, equal or not; the one exception
    is [logArchiveBucketName] holding the empty string. *)
Theorem C4_scalar_fields_overridden base d m :
  SystemConfig_shape base = true ->
  validate d = Success (Some m) ->
  exists st, applyManifestOverrides base m = Ok st /\
    forall q v, In q scalar_paths -> get_path q (Some m) = Some v ->
                (q = ["logArchiveBucketName"] -> v <> JStr "") ->
                get_path q (cfg st) = Some v
                /\ records_for (dotted q) (overrides st) = 1.
Proof.
  intros Hb Hv. destruct (merge_completes _ _ _ _ _ Hb Hv) as (st & Hst & _).
  exists st. split; [exact Hst|]. intros q v Hq Hm Hne.
  apply (override_effect m q v) in Hst; auto.
  unfold override_paths. apply in_or_app. now left.
Qed.

(** C3 (amended): a path of the configuration tree that a validated override
    omits resolves to the base value, for scalars, groups and lists alike,
    outside two places: below [pipeline] when the override has a pipeline
    group (the group is rebuilt from the override alone), and the three
    fields [enabled], [identifier], [version] of [bedrock.guardrails] when
    the override has that group and the base has none (the group is created
    with defaults). *)
Theorem C3_omitted_paths_keep_base_value base d m :
  SystemConfig_shape base = true ->
  validate d = Success (Some m) ->
  exists st, applyManifestOverrides base m = Ok st /\
    forall p,
      field_path p = true ->
      get_path p (Some m) = None ->
      (get_path ["pipeline"] (Some m) <> None -> prefix_of ["pipeline"] p = false) ->
      (get_path guardrails_group (Some m) = None
       \/ truthy (get_path guardrails_group (Some base)) = true
       \/ mem_path p guardrails_fields = false) ->
      get_path p (cfg st) = get_path p (Some base).
Proof.
  intros Hb Hv. destruct (merge_completes _ _ _ _ _ Hb Hv) as (st & Hst & _).
  exists st. split; [exact Hst|]. intros p Hf Hom Hpipe Hgr.
  destruct (overrideStatements_framed m p Hom Hf Hpipe _ _ Hst) as [_ H].
  apply H. exact Hgr.
Qed.




End MergeClaims.

Section LoaderClaims.

Variable DEPLOYMENT_MANIFEST : option string.
Variable existsSync : string -> bool.
Variable readFileSync : string -> option string.
Variable yaml_load : string -> option (option json).
Variable getConfig : json.
Variable is_url : string -> bool.
Variable is_email : string -> bool.
Variable errorMap : issue -> string.

(** C9: when none of the candidate paths exists, the locator returns none
    and [loadConfig] returns the base configuration itself with an empty
    change log. *)
Theorem C9_no_manifest_returns_base :
  (forall p, In p (searchPaths DEPLOYMENT_MANIFEST) -> existsSync p = false) ->
  findManifestFile DEPLOYMENT_MANIFEST existsSync = None
  /\ loadConfig DEPLOYMENT_MANIFEST existsSync readFileSync yaml_load getConfig
                is_url is_email errorMap
     = Returned (getConfig, []).
Proof.
  intros Hnone.
  assert (Hfind : findManifestFile DEPLOYMENT_MANIFEST existsSync = None).
  { unfold findManifestFile. destruct (find existsSync _) as [p|] eqn:E; auto.
    apply find_some in E as [Hin Hp]. rewrite Hnone in Hp; auto. discriminate. }
  split; [exact Hfind|].
  unfold loadConfig, loadDeploymentManifest. now rewrite Hfind.
Qed.

End LoaderClaims.

Section SentinelClaims.

Variable is_url : string -> bool.
Variable is_email : string -> bool.

Local Abbreviation zparse := (parse is_url is_email).
Local Abbreviation validate := (safeParse is_url is_email DeploymentManifestSchema).

(** A top-level field whose value is accepted plays no part in the outcome
    of validation: no error is reported for it, validation succeeds exactly
    when it succeeds without the field, and the validated manifest carries
    the value the field parsed to. *)
Lemma accepted_field k fs o v :
  In (k, fs) DeploymentManifestShape ->
  zparse fs [PKey k] None = OK None ->
  zparse fs [PKey k] (assoc k o) = OK (Some v) ->
  (forall errors e, validate (Some (JObj o)) = Failure errors ->
                    In e errors -> ~ below [PKey k] e)
  /\ succeeds (validate (Some (JObj o)))
     = succeeds (validate (Some (JObj (assoc_remove k o))))
  /\ (forall m, validate (Some (JObj o)) = Success (Some m) ->
                get_path [k] (Some m) = Some v).
Proof.
  intros Hin Hnone Hfield. split; [|split].
  - intros errors e Hf He (r & Hr).
    apply safeParse_Failure in Hf as [_ <-].
    apply object_issue_field in He as (k' & fs' & Hin' & He).
    pose proof (parse_issue_below _ _ _ _ _ _ He) as (r' & Hr').
    simpl in Hr'. rewrite Hr in Hr'. simpl in Hr'. inversion Hr'; subst k'.
    assert (fs' = fs).
    { pose proof (In_shape_lookup _ _ _ schema_distinct_keys Hin) as E1.
      pose proof (In_shape_lookup _ _ _ schema_distinct_keys Hin') as E2.
      congruence. }
    subst fs'. simpl in He. rewrite Hfield in He. exact He.
  - unfold safeParse, DeploymentManifestSchema.
    rewrite (object_status_ext is_url is_email DeploymentManifestShape []
               o (assoc_remove k o)).
    + now destruct (pstatus _).
    + intros k' fs' Hin'. destruct (String.eqb k' k) eqn:E.
      * apply String.eqb_eq in E. subst k'.
        assert (fs' = fs).
        { pose proof (In_shape_lookup _ _ _ schema_distinct_keys Hin) as E1.
          pose proof (In_shape_lookup _ _ _ schema_distinct_keys Hin') as E2.
          congruence. }
        subst fs'. rewrite assoc_remove_same. simpl.
        now rewrite Hfield, Hnone.
      * apply String.eqb_neq in E. now rewrite assoc_remove_other.
  - intros m Hm. apply safeParse_Success in Hm as [Hs Hv].
    change (field (Some m) k = Some v). rewrite <- Hv.
    unfold DeploymentManifestSchema in *.
    rewrite (object_value_field is_url is_email k fs DeploymentManifestShape
               [] o schema_distinct_keys Hin) by congruence.
    simpl. now rewrite Hfield.
Qed.

(** C8: when [logArchiveBucketName] is present with the empty string, the
    schema accepts the field (no error is reported for it and validation
    succeeds exactly when it succeeds without the field), and the merge of
    the validated manifest leaves the base value of [logArchiveBucketName]
    as it is and emits no change record for it. *)
Theorem C8_empty_bucket_name_is_absent o :
  assoc "logArchiveBucketName" o = Some (JStr "") ->
  zparse logArchiveBucketNameSchema [PKey "logArchiveBucketName"] (Some (JStr ""))
  = OK (Some (JStr ""))
  /\ (forall errors e, validate (Some (JObj o)) = Failure errors ->
                       In e errors -> ~ below [PKey "logArchiveBucketName"] e)
  /\ succeeds (validate (Some (JObj o)))
     = succeeds (validate (Some (JObj (assoc_remove "logArchiveBucketName" o))))
  /\ (forall m base,
        validate (Some (JObj o)) = Success (Some m) ->
        SystemConfig_shape base = true ->
        exists st, applyManifestOverrides base m = Ok st
          /\ get_path ["logArchiveBucketName"] (cfg st)
             = get_path ["logArchiveBucketName"] (Some base)
          /\ records_for "logArchiveBucketName" (overrides st) = 0).
Proof.
  intros Ho.
  assert (Hp : zparse logArchiveBucketNameSchema [PKey "logArchiveBucketName"]
                 (Some (JStr "")) = OK (Some (JStr ""))) by reflexivity.
  split; [exact Hp|].
  destruct (accepted_field "logArchiveBucketName" logArchiveBucketNameSchema
              o (JStr "")) as (H1 & H2 & H3).
  - simpl. tauto.
  - reflexivity.
  - now rewrite Ho.
  - split; [exact H1|]. split; [exact H2|].
    intros m base Hm Hb. specialize (H3 m Hm).
    destruct (merge_completes _ _ _ _ _ Hb Hm) as (st & Hst & _).
    exists st. split; [exact Hst|].
    destruct (empty_bucket_name_ignored m H3 _ _ Hst) as [Hv Hl].
    split; [exact Hv | exact Hl].
Qed.

(** C10: when [certificate] is present with the empty string, the schema
    accepts the field (no error is reported for it and validation succeeds
    exactly when it succeeds without the field), and the merge of the
    validated manifest replaces the base certificate by the empty string
    under one change record: the empty-string sentinel of
    [logArchiveBucketName] does not apply to [certificate]. *)
Theorem C10_empty_certificate_overrides o :
  assoc "certificate" o = Some (JStr "") ->
  zparse certificateSchema [PKey "certificate"] (Some (JStr ""))
  = OK (Some (JStr ""))
  /\ (forall errors e, validate (Some (JObj o)) = Failure errors ->
                       In e errors -> ~ below [PKey "certificate"] e)
  /\ succeeds (validate (Some (JObj o)))
     = succeeds (validate (Some (JObj (assoc_remove "certificate" o))))
  /\ (forall m base,
        validate (Some (JObj o)) = Success (Some m) ->
        SystemConfig_shape base = true ->
        exists st, applyManifestOverrides base m = Ok st
          /\ get_path ["certificate"] (cfg st) = Some (JStr "")
          /\ records_for "certificate" (overrides st) = 1).
Proof.
  intros Ho.
  assert (Hp : zparse certificateSchema [PKey "certificate"]
                 (Some (JStr "")) = OK (Some (JStr ""))) by reflexivity.
  split; [exact Hp|].
  destruct (accepted_field "certificate" certificateSchema o (JStr ""))
    as (H1 & H2 & H3).
  - simpl. tauto.
  - reflexivity.
  - now rewrite Ho.
  - split; [exact H1|]. split; [exact H2|].
    intros m base Hm Hb. specialize (H3 m Hm).
    destruct (merge_completes _ _ _ _ _ Hb Hm) as (st & Hst & _).
    exists st. split; [exact Hst|].
    refine (override_effect m ["certificate"] (JStr "") _ H3 _ _ _ Hst).
    + unfold override_paths. apply in_or_app. left. simpl. tauto.
    + discriminate.
Qed.

End SentinelClaims.

Section ValidationClaims.

Variable is_url : string -> bool.
Variable is_email : string -> bool.

Local Abbreviation zparse := (parse is_url is_email).
Local Abbreviation zitems := (parse_items is_url is_email).
Local Abbreviation validate := (safeParse is_url is_email DeploymentManifestSchema).

Lemma validate_fails d :
  pstatus (zparse DeploymentManifestSchema [] d) <> valid ->
  validate d = Failure (pissues (zparse DeploymentManifestSchema [] d)).
Proof.
  unfold safeParse. destruct (pstatus (zparse DeploymentManifestSchema [] d));
    congruence.
Qed.

Lemma issue_not_valid s p d e :
  In e (pissues (zparse s p d)) -> pstatus (zparse s p d) <> valid.
Proof.
  intros He Hv. rewrite (parse_valid_no_issue _ _ _ _ _ Hv) in He. exact He.
Qed.

Lemma violated_rule_reported d g chk message rp :
  rule_violated is_url is_email d g chk message rp ->
  In (mkIssue custom (keys g ++ rp) (Some message))
     (pissues (zparse DeploymentManifestSchema [] d)).
Proof.
  intros (s' & Hn & Hrule & Hr & Hd & Hs & Hchk).
  apply (node_issues is_url is_email g DeploymentManifestSchema [] d s' Hn Hr).
  simpl.
  destruct (wrappers_report is_url is_email s' (keys g) (get_path g d) Hd Hs)
    as (_ & _ & H).
  exact (H chk message rp Hrule Hchk).
Qed.

Lemma rejected_field_reported d g :
  rejected is_url is_email d g ->
  exists e, In e (pissues (zparse DeploymentManifestSchema [] d))
            /\ below (keys g) e.
Proof.
  intros (s' & Hn & Hr & Hs).
  apply parse_not_valid_issue in Hs.
  destruct (pissues (zparse s' (keys g) (get_path g d))) as [|e es] eqn:E;
    [congruence|].
  exists e. split.
  - apply (node_issues is_url is_email g DeploymentManifestSchema [] d s' Hn Hr).
    simpl. rewrite E. now left.
  - apply (parse_issue_below is_url is_email s' (keys g) (get_path g d)).
    rewrite E. now left.
Qed.

(** C1 (amended): validation does not stop at the first failing field.
    For N >= 1 fields at paths that part ways, each parsed and rejected by
    its own schema, validation fails with at least N errors, at least one
    at or below each of these paths.  And each refinement of a group that
    fails is reported under its own path and message, provided that no field
    of that group has a type error: a refinement is not evaluated on a group
    that holds an ill-typed field. *)
Theorem C1_validation_collects_errors d :
  (forall gs,
     gs <> [] ->
     ForallOrdPairs (fun a b => diverge a b = true) gs ->
     (forall g, In g gs -> rejected is_url is_email d g) ->
     exists errors,
       validate d = Failure errors
       /\ List.length gs <= List.length errors
       /\ forall g, In g gs -> exists e, In e errors /\ below (keys g) e)
  /\ (forall g chk message rp,
        rule_violated is_url is_email d g chk message rp ->
        exists errors,
          validate d = Failure errors
          /\ In (mkIssue custom (keys g ++ rp) (Some message)) errors).
Proof.
  split.
  - intros gs Hne Hdiv Hrej.
    assert (Hissue : forall g, In g gs ->
              exists e, In e (pissues (zparse DeploymentManifestSchema [] d))
                        /\ below (keys g) e)
      by (intros g Hg; apply rejected_field_reported; auto).
    exists (pissues (zparse DeploymentManifestSchema [] d)).
    split; [|split; [now apply diverging_issues | exact Hissue]].
    apply validate_fails. destruct gs as [|g gs]; [congruence|].
    destruct (Hissue g (or_introl eq_refl)) as (e & He & _).
    eapply issue_not_valid; eauto.
  - intros g chk message rp Hviol.
    exists (pissues (zparse DeploymentManifestSchema [] d)).
    pose proof (violated_rule_reported _ _ _ _ _ Hviol) as He.
    split; [|exact He]. apply validate_fails. eapply issue_not_valid; eauto.
Qed.

(** C7: a document with a [pipeline.codecommit] section validates only if
    exactly one of [existingRepositoryName] and [createNew: true] is
    supplied; a document that supplies both fails validation, and so does a
    document that supplies neither. *)
Theorem C7_codecommit_exactly_one d codecommit :
  get_path ["pipeline"; "codecommit"] d = Some codecommit ->
  (succeeds (validate d) = true ->
   xorb (supplies_existing codecommit) (creates_new codecommit) = true)
  /\ (supplies_existing codecommit = true -> creates_new codecommit = true ->
      succeeds (validate d) = false)
  /\ (supplies_existing codecommit = false -> creates_new codecommit = false ->
      succeeds (validate d) = false).
Proof.
  intros Hcc.
  assert (Hmain : succeeds (validate d) = true ->
            xorb (supplies_existing codecommit) (creates_new codecommit) = true).
  { intros Hok.
    assert (Hv : pstatus (zparse DeploymentManifestSchema [] d) = valid).
    { unfold safeParse in Hok.
      destruct (pstatus (zparse DeploymentManifestSchema [] d));
        simpl in Hok; congruence. }
    assert (Hreach : ["pipeline"; "codecommit"] <> [] ->
              is_object (get_path (removelast ["pipeline"; "codecommit"]) d) = true).
    { intros _. simpl removelast.
      change ["pipeline"; "codecommit"] with (["pipeline"] ++ ["codecommit"]) in Hcc.
      rewrite get_path_app in Hcc.
      apply (get_path_cons_object "codecommit" []). congruence. }
    pose proof (node_valid is_url is_email ["pipeline"; "codecommit"]
                  DeploymentManifestSchema [] d PipelineCodeCommitSchema
                  eq_refl Hreach Hv) as Hc.
    rewrite Hcc in Hc. simpl app in Hc.
    set (p := [PKey "pipeline"; PKey "codecommit"]) in *.
    unfold PipelineCodeCommitSchema in Hc.
    apply refine_valid_inv in Hc as [Hc _].
    apply refine_valid_inv in Hc as [Hi Hrule].
    destruct codecommit as [| ? | ? | ? | ? | co];
      try (simpl in Hi; discriminate).
    assert (Hna : pstatus (zparse (ZObject PipelineCodeCommitShape) p
                             (Some (JObj co))) <> aborted) by congruence.
    unfold codecommit_exclusive_rule in Hrule.
    rewrite (object_value_field is_url is_email "existingRepositoryName"
               (ZOptional repository_name) PipelineCodeCommitShape p co
               eq_refl ltac:(simpl; tauto) Hna) in Hrule.
    rewrite (object_value_field is_url is_email "createNew"
               (ZOptional ZBoolean) PipelineCodeCommitShape p co
               eq_refl ltac:(simpl; tauto) Hna) in Hrule.
    pose proof (object_field_valid is_url is_email "existingRepositoryName"
                  (ZOptional repository_name) PipelineCodeCommitShape p co
                  ltac:(simpl; tauto) Hi) as He.
    pose proof (object_field_valid is_url is_email "createNew"
                  (ZOptional ZBoolean) PipelineCodeCommitShape p co
                  ltac:(simpl; tauto) Hi) as Hn.
    unfold repository_name in Hrule, He.
    erewrite (optional_string_truthy is_url is_email _ None) in Hrule;
      [| left; reflexivity | exact He].
    rewrite (optional_boolean_truthy is_url is_email _ _ Hn) in Hrule.
    clear - Hrule. unfold supplies_existing, creates_new. cbn [get_path].
    destruct (defined (assoc "existingRepositoryName" co));
      destruct (assoc "createNew" co) as [[| [|] | | | |]|];
      simpl in *; congruence. }
  split; [exact Hmain|]. split.
  - intros H1 H2. destruct (succeeds (validate d)); [|reflexivity].
    specialize (Hmain eq_refl). rewrite H1, H2 in Hmain. discriminate.
  - intros H1 H2. destruct (succeeds (validate d)); [|reflexivity].
    specialize (Hmain eq_refl). rewrite H1, H2 in Hmain. discriminate.
Qed.

(** *** The companion rule of the vpc group *)

Lemma optional_string_typed cs p v :
  string_or_absent v = true ->
  pstatus (zparse (ZOptional (ZString cs)) p v) <> aborted.
Proof.
  destruct v as [[| | | x | |]|]; simpl; try discriminate.
  intros _. now destruct (flat_map _ cs).
Qed.

Lemma string_items_typed cs p items : forall i,
  forallb (fun x => match x with JStr _ => true | _ => false end) items = true ->
  merged_status (zitems (ZString cs) p i items) <> aborted.
Proof.
  induction items as [|x items IH]; intros i H; simpl in *; [discriminate|].
  apply andb_true_iff in H as [Hx H]. destruct x; try discriminate.
  intros E. apply merge_status_aborted in E as [E|E].
  - simpl in E. now destruct (flat_map _ cs).
  - now apply (IH (S i)).
Qed.

Lemma optional_strings_typed cs ml p v :
  strings_or_absent v = true ->
  pstatus (zparse (ZOptional (ZArray (ZString cs) ml)) p v) <> aborted.
Proof.
  destruct v as [[| | | | items |]|]; try (simpl; discriminate).
  intros H. change (zparse (ZOptional (ZArray (ZString cs) ml)) p (Some (JArr items)))
    with (zparse (ZArray (ZString cs) ml) p (Some (JArr items))).
  rewrite parse_array, mergeArray_status. intros E.
  apply merge_status_aborted in E as [E|E].
  - now apply dirty_if_issues_not_aborted in E.
  - now apply string_items_typed in E.
Qed.

Lemma vpc_typed_not_aborted p vpc :
  vpc_fields_typed vpc = true ->
  pstatus (zparse (ZObject VpcConfigShape) p (Some (JObj vpc))) <> aborted.
Proof.
  unfold vpc_fields_typed. rewrite !andb_true_iff.
  intros [[[[H1 H2] H3] H4] H5].
  rewrite parse_object, mergeObjectSync_status. intros E.
  apply merged_status_aborted, Exists_exists in E as (r & Hin & Hr).
  unfold parse_fields, VpcConfigShape in Hin. cbn [map fst snd In] in Hin.
  destruct Hin as [<-|[<-|[<-|[<-|[<-|[]]]]]]; revert Hr;
    first [now apply optional_string_typed | now apply optional_strings_typed].
Qed.

Lemma optional_string_untyped cs p v :
  string_or_absent v = false ->
  pstatus (zparse (ZOptional (ZString cs)) p v) = aborted.
Proof. destruct v as [[| | | x | |]|]; simpl; try discriminate; reflexivity. Qed.

Lemma string_items_untyped cs p items : forall i,
  forallb (fun x => match x with JStr _ => true | _ => false end) items = false ->
  merged_status (zitems (ZString cs) p i items) = aborted.
Proof.
  induction items as [|x items IH]; intros i H; simpl in *; [discriminate|].
  apply merge_status_aborted.
  destruct x; simpl in H; try (left; reflexivity).
  right. now apply (IH (S i)).
Qed.

Lemma optional_strings_untyped cs ml p v :
  strings_or_absent v = false ->
  pstatus (zparse (ZOptional (ZArray (ZString cs) ml)) p v) = aborted.
Proof.
  destruct v as [[| | | | items |]|]; try (simpl; discriminate);
    try (intros _; reflexivity).
  intros H. change (zparse (ZOptional (ZArray (ZString cs) ml)) p (Some (JArr items)))
    with (zparse (ZArray (ZString cs) ml) p (Some (JArr items))).
  rewrite parse_array, mergeArray_status. apply merge_status_aborted. right.
  now apply string_items_untyped.
Qed.

Lemma vpc_untyped_aborted p vpc :
  vpc_fields_typed vpc = false ->
  pstatus (zparse (ZObject VpcConfigShape) p (Some (JObj vpc))) = aborted.
Proof.
  intros H. rewrite parse_object, mergeObjectSync_status.
  apply merged_status_aborted, Exists_exists.
  unfold parse_fields, VpcConfigShape. cbn [map fst snd].
  unfold vpc_fields_typed in H. rewrite !andb_false_iff in H.
  destruct H as [[[[H|H]|H]|H]|H];
    (eexists; split;
     [| first [ eapply optional_string_untyped; exact H
              | eapply optional_strings_untyped; exact H ] ];
     cbn [In]; repeat (first [left; reflexivity | right])).
Qed.

Lemma companion_rule_fails p vpc x ips :
  assoc "s3VpcEndpointIps" vpc = Some (JArr (x :: ips)) ->
  assoc "s3VpcEndpointId" vpc = None ->
  pstatus (zparse (ZObject VpcConfigShape) p (Some (JObj vpc))) <> aborted ->
  vpc_companion_rule (pvalue (zparse (ZObject VpcConfigShape) p (Some (JObj vpc))))
  = false.
Proof.
  intros Hips Hid Hna. unfold vpc_companion_rule.
  erewrite (object_value_field is_url is_email "s3VpcEndpointIps");
    [| reflexivity | simpl; do 4 right; left; reflexivity | exact Hna].
  erewrite (object_value_field is_url is_email "s3VpcEndpointId");
    [| reflexivity | simpl; do 3 right; left; reflexivity | exact Hna].
  rewrite Hid, Hips, parse_optional_none, parse_optional_some.
  cbn [OK pvalue].
  match goal with
  | |- context [zparse (ZArray ?s ?ml) ?q (Some (JArr (x :: ips)))] =>
      assert (Hf : pstatus (zparse (ZArray s ml) q (Some (JArr (x :: ips))))
                   <> aborted);
      [| destruct (array_not_aborted_inv is_url is_email s ml q _ Hf)
           as (items & Hitems & Hval & Hall) ]
  end.
  - pose proof (object_field_not_aborted is_url is_email "s3VpcEndpointIps" _
                  VpcConfigShape p vpc
                  ltac:(simpl; do 4 right; left; reflexivity) Hna) as H.
    rewrite Hips, parse_optional_some in H. exact H.
  - inversion Hitems; subst items. rewrite Hval. cbn [parse_items] in *.
    apply Forall_inv in Hall.
    destruct (string_not_aborted_inv is_url is_email _ _ _ Hall) as (y & Hy & Hv).
    cbn [merged_items]. rewrite Hv. reflexivity.
Qed.

Lemma refine_issues_rule_holds s chk message rp p d :
  (pstatus (zparse s p d) <> aborted -> chk (pvalue (zparse s p d)) = true) ->
  pissues (zparse (ZRefine s chk message rp) p d) = pissues (zparse s p d).
Proof.
  intros H. cbn [parse]. destruct (pstatus (zparse s p d)) eqn:E;
    try reflexivity; rewrite H by congruence; reflexivity.
Qed.

Lemma optional_string_issue_code cs p v e :
  In e (pissues (zparse (ZOptional (ZString cs)) p v)) -> code e <> custom.
Proof.
  destruct v as [[| | | x | |]|]; simpl; try tauto;
    try (intros [<-|[]]; discriminate).
  intros H. apply in_flat_map in H as (c & _ & Hc).
  destruct c; simpl in Hc;
    repeat match type of Hc with
           | context [if ?b then _ else _] => destruct b
           end; simpl in Hc; try contradiction;
    destruct Hc as [<-|[]]; discriminate.
Qed.

(** C6 (amended): a document whose vpc group has a non-empty
    [s3VpcEndpointIps] list and no [s3VpcEndpointId] fails validation.  When
    every field of the vpc group has the primitive type its schema expects,
    the error list cites [vpc.s3VpcEndpointId] with the message of the
    rule; when some field of the group has another type, the rule is not
    evaluated and no error of the list is attributed to
    [vpc.s3VpcEndpointId].  The rule is one-sided: without
    [s3VpcEndpointIps] its error is never reported, with or without
    [s3VpcEndpointId]. *)
Theorem C6_companion_rule o vpc :
  assoc "vpc" o = Some (JObj vpc) ->
  (forall x ips,
     assoc "s3VpcEndpointIps" vpc = Some (JArr (x :: ips)) ->
     assoc "s3VpcEndpointId" vpc = None ->
     exists errors,
       validate (Some (JObj o)) = Failure errors
       /\ (vpc_fields_typed vpc = true -> In companion_issue errors)
       /\ (vpc_fields_typed vpc = false ->
           forall e, In e errors ->
                     ipath e <> [PKey "vpc"; PKey "s3VpcEndpointId"]))
  /\ (assoc "s3VpcEndpointIps" vpc = None ->
      forall errors, validate (Some (JObj o)) = Failure errors ->
                     ~ In companion_issue errors).
Proof.
  intros Hvpc. set (d := Some (JObj o)).
  assert (Hget : get_path ["vpc"] d = Some (JObj vpc)) by (simpl; now rewrite Hvpc).
  split.
  - intros x ips Hips Hid.
    assert (Hrep : pstatus (zparse (ZObject VpcConfigShape) [PKey "vpc"]
                             (Some (JObj vpc))) <> aborted ->
                   In companion_issue (pissues (zparse DeploymentManifestSchema [] d))).
    { intros Hna.
      apply (violated_rule_reported d ["vpc"] vpc_companion_rule
               "s3VpcEndpointId is required when s3VpcEndpointIps is provided"
               [PKey "s3VpcEndpointId"]).
      exists (ZOptional VpcConfigSchema). rewrite Hget.
      split; [reflexivity|]. split; [simpl; tauto|]. split; [intros _; reflexivity|].
      split; [discriminate|]. split; [exact Hna|].
      now apply (companion_rule_fails _ vpc x ips). }
    exists (pissues (zparse DeploymentManifestSchema [] d)). split.
    + apply validate_fails. intros Hv.
      assert (Hin : pstatus (zparse (ZObject VpcConfigShape) [PKey "vpc"]
                              (Some (JObj vpc))) = valid).
      { pose proof (node_valid is_url is_email ["vpc"] DeploymentManifestSchema
                      [] d (ZOptional VpcConfigSchema) eq_refl
                      (fun _ => eq_refl) Hv) as H.
        rewrite Hget in H.
        apply (strip_valid is_url is_email (ZOptional VpcConfigSchema)) in H;
          [exact H | discriminate]. }
      eapply issue_not_valid; [|exact Hv]. apply Hrep. congruence.
    + split; [intros Ht; apply Hrep; now apply vpc_typed_not_aborted|].
      intros Ht e He Ep. unfold DeploymentManifestSchema in He.
      apply object_issue_field in He as (k & fs & Hin & He).
      pose proof (parse_issue_below _ _ _ _ _ _ He) as (r & Hr).
      rewrite Ep in Hr. simpl in Hr. inversion Hr; subst k.
      assert (fs = ZOptional VpcConfigSchema).
      { pose proof (In_shape_lookup _ _ _ schema_distinct_keys Hin) as E.
        simpl in E. congruence. }
      subst fs. rewrite Hvpc in He.
      change (zparse (ZOptional VpcConfigSchema) ([] ++ [PKey "vpc"])
                     (Some (JObj vpc)))
        with (zparse VpcConfigSchema [PKey "vpc"] (Some (JObj vpc))) in He.
      unfold VpcConfigSchema in He. rewrite refine_issues_rule_holds in He.
      * apply object_issue_field in He as (k & fs & Hin' & He).
        pose proof (parse_issue_below _ _ _ _ _ _ He) as (r' & Hr').
        rewrite Ep in Hr'. simpl in Hr'. inversion Hr'; subst k.
        assert (fs = ZOptional (ZString [CRegex re_vpce_id
                  (msg "Invalid S3 VPC endpoint ID format. Expected: vpce-xxxxxxxx")])).
        { pose proof (In_shape_lookup "s3VpcEndpointId" _ VpcConfigShape
                        eq_refl Hin') as E.
          simpl in E. congruence. }
        subst fs. rewrite Hid, parse_optional_none in He. exact He.
      * intros Hna. exfalso. apply Hna. now apply vpc_untyped_aborted.
  - intros Hips errors Hf He. apply safeParse_Failure in Hf as [_ <-].
    unfold DeploymentManifestSchema in He.
    apply object_issue_field in He as (k & fs & Hin & He).
    pose proof (parse_issue_below _ _ _ _ _ _ He) as (r & Hr).
    simpl in Hr. inversion Hr; subst k.
    assert (fs = ZOptional VpcConfigSchema).
    { pose proof (In_shape_lookup _ _ _ schema_distinct_keys Hin) as E.
      simpl in E. congruence. }
    subst fs. rewrite Hvpc in He.
    change (zparse (ZOptional VpcConfigSchema) ([] ++ [PKey "vpc"]) (Some (JObj vpc)))
      with (zparse VpcConfigSchema [PKey "vpc"] (Some (JObj vpc))) in He.
    unfold VpcConfigSchema in He. rewrite refine_issues_rule_holds in He.
    + apply object_issue_field in He as (k & fs & Hin' & He).
      pose proof (parse_issue_below _ _ _ _ _ _ He) as (r' & Hr').
      simpl in Hr'. inversion Hr'; subst k.
      assert (fs = ZOptional (ZString [CRegex re_vpce_id
                (msg "Invalid S3 VPC endpoint ID format. Expected: vpce-xxxxxxxx")])).
      { pose proof (In_shape_lookup "s3VpcEndpointId" _ VpcConfigShape
                      eq_refl Hin') as E.
        simpl in E. congruence. }
      subst fs. apply optional_string_issue_code in He. now apply He.
    + intros Hna. unfold vpc_companion_rule.
      erewrite (object_value_field is_url is_email "s3VpcEndpointIps");
        [| reflexivity | simpl; do 4 right; left; reflexivity | exact Hna].
      rewrite Hips, parse_optional_none. reflexivity.
Qed.

End ValidationClaims.

(* ================================================================= *)
(** * The statements on sample documents *)

Lemma C5_three_models_replaced_by_one :
  exists st,
    applyManifestOverrides sample_base (validated override_one_model) = Ok st
    /\ get_path ["rag"; "embeddingsModels"] (Some sample_base)
       = Some (JArr [ model "bedrock" "amazon.titan-embed-text-v1";
                      model "bedrock" "cohere.embed-english-v3";
                      model "sagemaker" "intfloat/multilingual-e5-large" ])
    /\ get_path ["rag"; "embeddingsModels"] (cfg st)
       = Some (JArr [model "bedrock" "amazon.titan-embed-text-v2"]).
Proof.
  destruct (C5_list_fields_replaced_wholesale accept_all accept_all
              sample_base (Some override_one_model) (validated override_one_model)
              eq_refl eq_refl) as (st & Hst & H).
  exists st. split; [exact Hst|]. split; [reflexivity|].
  apply H; [simpl; tauto | reflexivity].
Defined.

Lemma C4_same_value_still_recorded :
  exists st,
    applyManifestOverrides sample_base (validated override_same_waf) = Ok st
    /\ get_path ["enableWaf"] (Some sample_base) = Some (JBool false)
    /\ get_path ["enableWaf"] (cfg st) = Some (JBool false)
    /\ records_for "enableWaf" (overrides st) = 1.
Proof.
  destruct (C4_scalar_fields_overridden accept_all accept_all
              sample_base (Some override_same_waf) (validated override_same_waf)
              eq_refl eq_refl) as (st & Hst & H).
  exists st. split; [exact Hst|]. split; [reflexivity|].
  apply (H ["enableWaf"] (JBool false)); [simpl; tauto | reflexivity | discriminate].
Defined.

(** The empty bucket name is a scalar field of a validated override and is
    not applied; the scalars of the pipeline group get no record of their
    own. *)
Lemma C4_empty_bucket_name_not_overridden :
  SystemConfig_shape sample_base = true
  /\ safeParse accept_all accept_all DeploymentManifestSchema
       (Some override_empty_bucket)
     = Success (Some (validated override_empty_bucket))
  /\ get_path ["logArchiveBucketName"] (Some (validated override_empty_bucket))
     = Some (JStr EmptyString)
  /\ (exists st,
        applyManifestOverrides sample_base (validated override_empty_bucket) = Ok st
        /\ get_path ["logArchiveBucketName"] (cfg st) = Some (JStr "central-logs")
        /\ records_for "logArchiveBucketName" (overrides st) = 0)
  /\ get_path ["pipeline"; "enabled"] (Some (validated override_pipeline))
     = Some (JBool true)
  /\ (exists st,
        applyManifestOverrides sample_base (validated override_pipeline) = Ok st
        /\ get_path ["pipeline"; "enabled"] (cfg st) = Some (JBool true)
        /\ records_for "pipeline.enabled" (overrides st) = 0
        /\ map cpath (overrides st) = ["prefix"; "pipeline"]).
Proof.
  split; [reflexivity|]. split; [reflexivity|]. split; [reflexivity|].
  split; [eexists; repeat split; vm_compute; reflexivity|].
  split; [reflexivity|].
  eexists; repeat split; vm_compute; reflexivity.
Qed.

Lemma C3_untouched_field_keeps_base :
  exists st,
    applyManifestOverrides sample_base (validated override_endpoint) = Ok st
    /\ get_path ["enableWaf"] (cfg st) = Some (JBool false)
    /\ get_path ["vpc"; "subnetIds"] (cfg st)
       = Some (JArr [JStr "subnet-0123456789abcdef0"])
    /\ get_path ["rag"] (cfg st) = get_path ["rag"] (Some sample_base).
Proof.
  destruct (C3_omitted_paths_keep_base_value accept_all accept_all
              sample_base (Some override_endpoint) (validated override_endpoint)
              eq_refl eq_refl) as (st & Hst & H).
  exists st. split; [exact Hst|].
  split; [|split];
    (rewrite H; [reflexivity | reflexivity | reflexivity
                 | intros _; reflexivity | left; reflexivity]).
Defined.

(** A field of the pipeline group that a validated override omits is
    dropped, and a guardrails group that the base lacks is created with
    its defaults. *)
Lemma C3_pipeline_field_dropped :
  SystemConfig_shape sample_base = true
  /\ safeParse accept_all accept_all DeploymentManifestSchema (Some override_pipeline)
     = Success (Some (validated override_pipeline))
  /\ field_path ["pipeline"; "notificationEmail"] = true
  /\ get_path ["pipeline"; "notificationEmail"] (Some (validated override_pipeline))
     = None
  /\ get_path ["pipeline"; "notificationEmail"] (Some sample_base)
     = Some (JStr "ops@example.com")
  /\ (exists st,
        applyManifestOverrides sample_base (validated override_pipeline) = Ok st
        /\ get_path ["pipeline"; "notificationEmail"] (cfg st) = None)
  /\ safeParse accept_all accept_all DeploymentManifestSchema
       (Some override_guardrails_off)
     = Success (Some (validated override_guardrails_off))
  /\ field_path ["bedrock"; "guardrails"; "identifier"] = true
  /\ get_path ["bedrock"; "guardrails"; "identifier"]
              (Some (validated override_guardrails_off)) = None
  /\ get_path ["bedrock"; "guardrails"; "identifier"] (Some sample_base) = None
  /\ (exists st,
        applyManifestOverrides sample_base (validated override_guardrails_off) = Ok st
        /\ get_path ["bedrock"; "guardrails"; "identifier"] (cfg st)
           = Some (JStr EmptyString)).
Proof.
  repeat (split; [reflexivity|]).
  split; [eexists; split; vm_compute; reflexivity|].
  repeat (split; [reflexivity|]).
  eexists; split; vm_compute; reflexivity.
Qed.


Lemma C9_nothing_on_disk :
  loadConfig None (fun _ => false) (fun _ => None) (fun _ => None) sample_base
             accept_all accept_all (fun _ => "")
  = Returned (sample_base, []).
Proof.
  apply (C9_no_manifest_returns_base None (fun _ => false) (fun _ => None)
           (fun _ => None) sample_base accept_all accept_all (fun _ => "")).
  intros p _. reflexivity.
Defined.

Lemma C8_empty_bucket_name_sample :
  succeeds (safeParse accept_all accept_all DeploymentManifestSchema
              (Some override_empty_bucket)) = true
  /\ exists st,
       applyManifestOverrides sample_base (validated override_empty_bucket) = Ok st
       /\ get_path ["logArchiveBucketName"] (cfg st) = Some (JStr "central-logs")
       /\ records_for "logArchiveBucketName" (overrides st) = 0.
Proof.
  destruct (C8_empty_bucket_name_is_absent accept_all accept_all
              [("prefix", JStr "prod-cb"); ("logArchiveBucketName", JStr "")]
              eq_refl) as (_ & _ & Hsame & Hmerge).
  split.
  - exact (eq_trans Hsame eq_refl).
  - destruct (Hmerge (validated override_empty_bucket) sample_base eq_refl eq_refl)
      as (st & Hst & Hv & Hl).
    exists st. split; [exact Hst|]. split; [rewrite Hv; reflexivity | exact Hl].
Defined.

Lemma C10_empty_certificate_sample :
  succeeds (safeParse accept_all accept_all DeploymentManifestSchema
              (Some override_empty_certificate)) = true
  /\ exists st,
       applyManifestOverrides sample_base (validated override_empty_certificate)
       = Ok st
       /\ get_path ["certificate"] (cfg st) = Some (JStr "")
       /\ records_for "certificate" (overrides st) = 1.
Proof.
  destruct (C10_empty_certificate_overrides accept_all accept_all
              [("prefix", JStr "prod-cb"); ("certificate", JStr "")]
              eq_refl) as (_ & _ & Hsame & Hmerge).
  split.
  - exact (eq_trans Hsame eq_refl).
  - exact (Hmerge (validated override_empty_certificate) sample_base
             eq_refl eq_refl).
Defined.

Lemma C7_existing_repository_only :
  succeeds (safeParse accept_all accept_all DeploymentManifestSchema
              (Some override_pipeline)) = true
  /\ xorb (supplies_existing (JObj [("existingRepositoryName", JStr "chatbot")]))
          (creates_new (JObj [("existingRepositoryName", JStr "chatbot")])) = true.
Proof.
  split; [reflexivity|].
  apply (proj1 (C7_codecommit_exactly_one accept_all accept_all
                  (Some override_pipeline)
                  (JObj [("existingRepositoryName", JStr "chatbot")]) eq_refl)).
  reflexivity.
Defined.

Lemma C6_ips_without_id_sample :
  exists errors,
    safeParse accept_all accept_all DeploymentManifestSchema (Some ips_without_id)
    = Failure errors
    /\ In companion_issue errors.
Proof.
  destruct (proj1 (C6_companion_rule accept_all accept_all
                     [ ("prefix", JStr "test-app");
                       ("vpc", JObj [("s3VpcEndpointIps", JArr [JStr "10.0.1.5"])]) ]
                     [("s3VpcEndpointIps", JArr [JStr "10.0.1.5"])] eq_refl)
                  (JStr "10.0.1.5") [] eq_refl eq_refl)
    as (errors & Hf & Hin & _).
  exists errors. split; [exact Hf | apply Hin; reflexivity].
Defined.

(** With an ill-typed [vpcId] beside the address list, the only error is
    the type error: nothing cites [vpc.s3VpcEndpointId]. *)
Lemma C6_type_error_hides_the_rule :
  get_path ["vpc"; "s3VpcEndpointIps"] (Some ips_without_id_bad_vpcId)
  = Some (JArr [JStr "10.0.1.5"])
  /\ get_path ["vpc"; "s3VpcEndpointId"] (Some ips_without_id_bad_vpcId) = None
  /\ safeParse accept_all accept_all DeploymentManifestSchema
       (Some ips_without_id_bad_vpcId)
     = Failure [mkIssue invalid_type [PKey "vpc"; PKey "vpcId"] None].
Proof. repeat split; vm_compute; reflexivity. Qed.

Lemma C1_two_fields_two_errors :
  exists errors,
    safeParse accept_all accept_all DeploymentManifestSchema (Some two_bad_fields)
    = Failure errors
    /\ 2 <= List.length errors.
Proof.
  destruct (proj1 (C1_validation_collects_errors accept_all accept_all
                     (Some two_bad_fields))
                  [["prefix"]; ["vpc"; "vpcId"]])
    as (errors & Hf & Hlen & _).
  - discriminate.
  - repeat constructor.
  - intros g [<-|[<-|[]]].
    + eexists. split; [reflexivity|]. split; [intros _; reflexivity|].
      vm_compute. discriminate.
    + eexists. split; [reflexivity|]. split; [intros _; reflexivity|].
      vm_compute. discriminate.
  - exists errors. split; [exact Hf | exact Hlen].
Defined.

(** Two constraints on two fields are violated, the type of [vpc.vpcId]
    and the companion rule on [vpc.s3VpcEndpointId]; one error is reported. *)
Lemma C1_type_error_hides_a_rule :
  violates accept_all accept_all (Some ips_without_id_bad_vpcId)
    (FieldCheck ["vpc"; "vpcId"])
  /\ violates accept_all accept_all (Some ips_without_id_bad_vpcId)
       (GroupRule ["vpc"] vpc_companion_rule
          "s3VpcEndpointId is required when s3VpcEndpointIps is provided"
          [PKey "s3VpcEndpointId"])
  /\ constrained_field (FieldCheck ["vpc"; "vpcId"]) = [PKey "vpc"; PKey "vpcId"]
  /\ constrained_field
       (GroupRule ["vpc"] vpc_companion_rule
          "s3VpcEndpointId is required when s3VpcEndpointIps is provided"
          [PKey "s3VpcEndpointId"])
     = [PKey "vpc"; PKey "s3VpcEndpointId"]
  /\ safeParse accept_all accept_all DeploymentManifestSchema
       (Some ips_without_id_bad_vpcId)
     = Failure [mkIssue invalid_type [PKey "vpc"; PKey "vpcId"] None].
Proof.
  split; [|split; [|repeat split; vm_compute; reflexivity]].
  - eexists. split; [reflexivity|]. split; [intros _; reflexivity|].
    vm_compute. discriminate.
  - eexists. split; [reflexivity|]. split; [simpl; tauto|].
    split; [intros _; reflexivity | reflexivity].
Qed.

(* ================================================================= *)
(** * Further properties of the schema *)

(** ** A validated value parses to itself *)

Section Reparse.

Variable is_url : string -> bool.
Variable is_email : string -> bool.

Local Abbreviation zparse := (parse is_url is_email).
Local Abbreviation zfields := (parse_fields is_url is_email).
Local Abbreviation zitems := (parse_items is_url is_email).

Lemma string_checks_path cs p p' x :
  flat_map (run_string_check is_url is_email p x) cs = [] ->
  flat_map (run_string_check is_url is_email p' x) cs = [].
Proof.
  induction cs as [|c cs IH]; simpl; [reflexivity|]. intros H.
  apply app_eq_nil in H as [Hc Hcs]. rewrite (IH Hcs), app_nil_r.
  destruct c; simpl in *;
    repeat match goal with
           | H : (if ?b then _ else _) = [] |- _ => destruct b; try discriminate
           end; reflexivity.
Qed.

Lemma number_checks_path cs p p' q :
  flat_map (run_number_check p q) cs = [] ->
  flat_map (run_number_check p' q) cs = [].
Proof.
  induction cs as [|c cs IH]; simpl; [reflexivity|]. intros H.
  apply app_eq_nil in H as [Hc Hcs]. rewrite (IH Hcs), app_nil_r.
  destruct c; simpl in *. destruct (Z.ltb 0 (Qnum q)); [reflexivity|discriminate].
Qed.

Lemma valid_defined s :
  forall p x, pstatus (zparse s p (Some x)) = valid ->
              pvalue (zparse s p (Some x)) <> None.
Proof.
  induction s using schema_induction; intros p x Hv.
  - destruct x; simpl in *; try discriminate; try congruence.
  - destruct x; simpl in *; try discriminate; try congruence.
  - destruct x; simpl in *; try discriminate; try congruence.
  - destruct x; simpl in *; try discriminate.
    destruct (existsb (String.eqb s) vs); simpl in *; try discriminate; congruence.
  - destruct x; simpl in *; try discriminate.
    destruct (String.eqb s v); simpl in *; try discriminate; congruence.
  - destruct x; try (simpl in Hv; discriminate).
    rewrite parse_array in *. unfold mergeArray in *.
    destruct (merge_status _ _); simpl in *; congruence.
  - destruct x; try (simpl in Hv; discriminate).
    rewrite parse_object in *. unfold mergeObjectSync in *.
    destruct (merged_status _); simpl in *; congruence.
  - rewrite parse_optional_some in *. auto.
  - simpl in *. auto.
  - simpl in *.
    destruct (pstatus (zparse s1 p (Some x))) eqn:E1; [now apply IHs1| |];
      (destruct (pstatus (zparse s2 p (Some x))) eqn:E2; [now apply IHs2| |]);
      simpl in Hv; try discriminate; try congruence.
  - simpl in *. destruct (pstatus (zparse s p (Some x))) eqn:E.
    + destruct (chk (pvalue (zparse s p (Some x)))); [now apply IHs|].
      simpl in Hv. discriminate.
    + destruct (chk (pvalue (zparse s p (Some x)))); simpl in Hv; congruence.
    + simpl in Hv. discriminate.
Qed.

Lemma mergeObjectSync_OK fs :
  mergeObjectSync (map (fun kr => (fst kr, OK (pvalue (snd kr)))) fs)
  = OK (Some (JObj (merged_props fs))).
Proof.
  assert (Hs : merged_status
                 (map snd (map (fun kr : string * parsed =>
                                  (fst kr, OK (pvalue (snd kr)))) fs)) = valid).
  { induction fs as [|[k r] fs IH]; simpl; [reflexivity|]. now rewrite IH. }
  assert (Hi : flat_map (fun f : string * parsed => pissues (snd f))
                 (map (fun kr : string * parsed =>
                         (fst kr, OK (pvalue (snd kr)))) fs) = []).
  { clear Hs. induction fs as [|[k r] fs IH]; simpl; [reflexivity|]. exact IH. }
  assert (Hp : merged_props
                 (map (fun kr : string * parsed =>
                         (fst kr, OK (pvalue (snd kr)))) fs)
               = merged_props fs).
  { clear Hs Hi. induction fs as [|[k r] fs IH]; simpl; [reflexivity|].
    destruct (pvalue r); now rewrite IH. }
  unfold mergeObjectSync. rewrite Hs, Hi, Hp. reflexivity.
Qed.

Lemma mergeArray_OK rs :
  mergeArray [] (map (fun r => OK (pvalue r)) rs)
  = OK (Some (JArr (merged_items rs))).
Proof.
  assert (Hs : merged_status (map (fun r => OK (pvalue r)) rs) = valid).
  { induction rs as [|r rs IH]; simpl; [reflexivity|]. now rewrite IH. }
  assert (Hi : flat_map pissues (map (fun r => OK (pvalue r)) rs) = []).
  { clear Hs. induction rs as [|r rs IH]; simpl; [reflexivity|]. exact IH. }
  assert (Hp : merged_items (map (fun r => OK (pvalue r)) rs) = merged_items rs).
  { clear Hs Hi. induction rs as [|r rs IH]; simpl; [reflexivity|].
    destruct (pvalue r); now rewrite IH. }
  unfold mergeArray. rewrite Hs, Hi, Hp. reflexivity.
Qed.

Lemma plain_unions_field k fs sh :
  plain_unions (ZObject sh) = true -> In (k, fs) sh -> plain_unions fs = true.
Proof.
  induction sh as [|[k' fs'] sh IH]; simpl; [contradiction|].
  intros H [E|Hin]; apply andb_prop in H as [H1 H2].
  - inversion E; subst. exact H1.
  - apply IH; assumption.
Qed.

Lemma reparse_items element p p' :
  (forall q d, pstatus (zparse element q d) = valid ->
     forall q', zparse element q' (pvalue (zparse element q d))
                = OK (pvalue (zparse element q d))) ->
  forall items i,
    Forall (fun r => pstatus r = valid) (zitems element p i items) ->
    zitems element p' i (merged_items (zitems element p i items))
    = map (fun r => OK (pvalue r)) (zitems element p i items)
    /\ List.length (merged_items (zitems element p i items)) = List.length items.
Proof.
  intros IH. induction items as [|x items IHi]; intros i Hall; simpl.
  - split; reflexivity.
  - simpl in Hall. inversion Hall as [|? ? Hx Hrest]; subst.
    pose proof (valid_defined element _ _ Hx) as Hd.
    destruct (pvalue (zparse element (p ++ [PIdx i]) (Some x))) as [v|] eqn:Ev;
      [|congruence].
    simpl. destruct (IHi (S i) Hrest) as [H1 H2]. rewrite H1, H2.
    split; [|reflexivity]. f_equal.
    rewrite <- Ev. apply IH. exact Hx.
Qed.

Lemma reparse s :
  plain_unions s = true -> distinct_keys s = true ->
  forall p d, pstatus (zparse s p d) = valid ->
  forall p', zparse s p' (pvalue (zparse s p d)) = OK (pvalue (zparse s p d)).
Proof.
  induction s using schema_induction; intros Hu Hk p d Hv p'.
  - (* string *)
    destruct d as [[]|]; simpl in *; try discriminate.
    apply dirty_if_issues_valid in Hv.
    now rewrite (string_checks_path _ _ p' _ Hv).
  - destruct d as [[]|]; simpl in *; try discriminate. reflexivity.
  - destruct d as [[]|]; simpl in *; try discriminate.
    apply dirty_if_issues_valid in Hv.
    now rewrite (number_checks_path _ _ p' _ Hv).
  - destruct d as [[]|]; simpl in *; try discriminate.
    destruct (existsb (String.eqb s) vs) eqn:E; simpl in *; [|discriminate].
    now rewrite E.
  - destruct d as [[]|]; simpl in *; try discriminate.
    destruct (String.eqb s v) eqn:E; simpl in *; [|discriminate].
    now rewrite E.
  - (* array *)
    destruct d as [[]|]; try (simpl in Hv; discriminate).
    rewrite parse_array in Hv |- *. rewrite mergeArray_status in Hv.
    apply merge_status_valid in Hv as [Hl Hi].
    apply dirty_if_issues_valid in Hl. apply merged_status_valid in Hi.
    assert (Ev : pvalue (mergeArray [] (zitems s p 0 items))
                 = Some (JArr (merged_items (zitems s p 0 items)))).
    { unfold mergeArray. apply merged_status_valid in Hi. rewrite Hi.
      reflexivity. }
    rewrite Hl, Ev. rewrite parse_array.
    simpl in Hu, Hk.
    destruct (reparse_items s p p' (IHs Hu Hk) items 0 Hi) as [H1 H2].
    assert (Hl' : match ml with
                  | Some (n, ms) =>
                      if Nat.ltb (List.length items) n
                      then [mkIssue too_small p' ms] else []
                  | None => []
                  end = []).
    { destruct ml as [[n ms]|]; [|reflexivity].
      destruct (Nat.ltb (List.length items) n); [discriminate|reflexivity]. }
    rewrite H1, H2, Hl'. apply mergeArray_OK.
  - (* object *)
    destruct d as [[]|]; try (simpl in Hv; discriminate).
    assert (Hna : pstatus (zparse (ZObject shape) p (Some (JObj props))) <> aborted)
      by congruence.
    rewrite (object_value is_url is_email _ _ _ Hna). rewrite parse_object.
    assert (E : zfields shape p' (merged_props (zfields shape p props))
                = map (fun kr => (fst kr, OK (pvalue (snd kr))))
                      (zfields shape p props)).
    { unfold parse_fields. rewrite map_map. apply map_ext_in.
      intros [k fs] Hin. cbn [fst snd]. f_equal.
      fold (parse_fields is_url is_email shape p props).
      rewrite (merged_props_assoc is_url is_email k shape p props Hk).
      rewrite (In_shape_lookup k fs shape Hk Hin).
      rewrite Forall_forall in H. apply (H (k, fs) Hin).
      - eapply plain_unions_field; eauto.
      - eapply distinct_keys_field; eauto.
      - eapply object_field_valid; eauto. }
    rewrite E. apply mergeObjectSync_OK.
  - (* optional *)
    destruct d as [x|].
    + rewrite parse_optional_some in *.
      destruct (pvalue (zparse s p (Some x))) as [v|] eqn:Ev.
      * rewrite parse_optional_some. rewrite <- Ev. now apply IHs.
      * apply parse_optional_none.
    + reflexivity.
  - (* default *)
    simpl in Hu, Hk.
    assert (Hx : exists x, zparse (ZDefault s dv) p d = zparse s p (Some x)
                           /\ pstatus (zparse s p (Some x)) = valid).
    { destruct d as [x|]; simpl in *; eauto. }
    destruct Hx as (x & Ex & Hx). rewrite Ex.
    pose proof (valid_defined s _ _ Hx) as Hd.
    destruct (pvalue (zparse s p (Some x))) as [v|] eqn:Ev; [|congruence].
    cbn [parse]. rewrite <- Ev. now apply IHs.
  - (* union *)
    destruct s1 as [| | | | | | |[cs| | | | | | | | | |]| | |]; try discriminate.
    destruct s2; try discriminate.
    clear IHs1 IHs2.
    destruct d as [x|].
    + destruct x as [| | |x| |];
        try (simpl in Hv; discriminate).
      cbn [parse] in Hv |- *.
      destruct (dirty_if_issues
                  (flat_map (run_string_check is_url is_email p x) cs)) eqn:E1;
        cbn [pstatus pvalue] in Hv |- *.
      * apply dirty_if_issues_valid in E1.
        rewrite (string_checks_path _ _ p' _ E1). reflexivity.
      * destruct (String.eqb x value) eqn:E2; simpl in Hv; [|discriminate].
        cbn [pstatus pvalue OK].
        assert (E3 : dirty_if_issues
                       (flat_map (run_string_check is_url is_email p' x) cs)
                     <> valid).
        { intros E3. apply dirty_if_issues_valid in E3.
          rewrite (string_checks_path _ _ p _ E3) in E1. discriminate. }
        destruct (dirty_if_issues
                    (flat_map (run_string_check is_url is_email p' x) cs));
          try congruence; cbn [pstatus]; rewrite E2; reflexivity.
      * exfalso. eapply dirty_if_issues_not_aborted; eauto.
    + reflexivity.
  - (* refinement *)
    simpl in Hu, Hk. apply refine_valid_inv in Hv as Hi. destruct Hi as [Hi Hc].
    assert (Ev : pvalue (zparse (ZRefine s chk txt rp) p d) = pvalue (zparse s p d)).
    { simpl. rewrite Hi, Hc. reflexivity. }
    rewrite Ev. cbn [parse]. rewrite (IHs Hu Hk p d Hi p').
    cbn [pstatus pvalue OK]. rewrite Hc. reflexivity.
Qed.

End Reparse.

(** ** The validated manifest, node by node *)

Section ManifestNodes.

Variable is_url : string -> bool.
Variable is_email : string -> bool.

Local Abbreviation zparse := (parse is_url is_email).
Local Abbreviation zfields := (parse_fields is_url is_email).
Local Abbreviation validate := (safeParse is_url is_email DeploymentManifestSchema).

Lemma distinct_keys_strip s : distinct_keys s = true -> distinct_keys (strip s) = true.
Proof. induction s; simpl; auto. Qed.

Lemma get_path_cons_field k g v : get_path (k :: g) v = get_path g (field v k).
Proof.
  unfold field. destruct v as [[]|]; simpl; try reflexivity;
    now rewrite get_path_none.
Qed.

Lemma node_value g :
  forall s p d s',
    distinct_keys s = true ->
    node_at s g = Some s' ->
    (g <> [] -> is_object (get_path (removelast g) d) = true) ->
    pstatus (zparse s p d) = valid ->
    get_path g (pvalue (zparse s p d))
    = pvalue (zparse s' (p ++ keys g) (get_path g d)).
Proof.
  induction g as [|k g IH]; intros s p d s' Hk Hn Hr Hv.
  - simpl in *. inversion Hn; subst. now rewrite app_nil_r.
  - pose proof (reached_object _ _ _ Hr) as Ho.
    destruct d as [[| | | | | o]|]; try discriminate.
    cbn [node_at] in Hn. destruct (strip s) as [| | | | | |sh| | | |] eqn:Es;
      try discriminate.
    destruct (shape_lookup k sh) as [fs|] eqn:El; [|discriminate].
    pose proof (strip_valid is_url is_email s p (Some (JObj o))
                  ltac:(discriminate) Hv) as Hsv.
    assert (Hna : pstatus (zparse (strip s) p (Some (JObj o))) <> aborted)
      by congruence.
    destruct (wrappers_report is_url is_email s p (Some (JObj o))
                ltac:(discriminate) Hna) as (_ & Ev & _).
    rewrite Ev, Es in *. rewrite get_path_cons_field.
    pose proof (distinct_keys_strip s Hk) as Hks. rewrite Es in Hks.
    apply shape_lookup_In in El.
    rewrite (object_value_field is_url is_email k fs sh p o Hks El Hna).
    cbn [keys map get_path].
    replace (p ++ PKey k :: map PKey g) with ((p ++ [PKey k]) ++ keys g)
      by (now rewrite <- app_assoc).
    apply (IH fs); auto.
    + eapply distinct_keys_field; eauto.
    + intros Hg. now apply reached_tail.
    + eapply object_field_valid; eauto.
Qed.

Lemma defined_reached g v :
  get_path g v <> None -> g <> [] -> is_object (get_path (removelast g) v) = true.
Proof.
  intros Hd Hg. rewrite (app_removelast_last "" Hg), get_path_app in Hd.
  eapply get_path_cons_object; eauto.
Qed.

Lemma schema_plain_unions : plain_unions DeploymentManifestSchema = true.
Proof. reflexivity. Qed.

Lemma validate_again d data :
  validate d = Success data -> validate data = Success data.
Proof.
  intros H. apply safeParse_Success in H as [Hv Hd].
  pose proof (reparse is_url is_email DeploymentManifestSchema
                schema_plain_unions schema_distinct_keys [] d Hv []) as Hr.
  rewrite Hd in Hr. unfold safeParse. now rewrite Hr.
Qed.

(** The value of the validated manifest at a node of the schema parses to
    itself under the schema of that node. *)
Lemma manifest_node d m g s' :
  validate d = Success (Some m) ->
  node_at DeploymentManifestSchema g = Some s' ->
  get_path g (Some m) <> None ->
  zparse s' (keys g) (get_path g (Some m)) = OK (get_path g (Some m)).
Proof.
  intros H Hn Hd. apply validate_again in H.
  apply safeParse_Success in H as [Hv Hm].
  pose proof (defined_reached g (Some m) Hd) as Hr.
  pose proof (node_valid is_url is_email g _ [] _ _ Hn Hr Hv) as Hs.
  pose proof (node_value g _ [] _ _ schema_distinct_keys Hn Hr Hv) as He.
  rewrite Hm in He. change ([] ++ keys g) with (keys g) in Hs, He.
  pose proof (parse_valid_no_issue is_url is_email _ _ _ Hs) as Hi.
  clear - Hs He Hi.
  destruct (zparse s' (keys g) (get_path g (Some m))) as [st v iss].
  cbn [pstatus pvalue pissues] in *. unfold OK. congruence.
Qed.

Lemma manifest_rules d m g s' chk message rp :
  validate d = Success (Some m) ->
  node_at DeploymentManifestSchema g = Some s' ->
  get_path g (Some m) <> None ->
  In (chk, message, rp) (rules_of s') ->
  chk (get_path g (Some m)) = true.
Proof.
  intros H Hn Hd Hin. pose proof (manifest_node d m g s' H Hn Hd) as Hp.
  assert (Hs : pstatus (zparse s' (keys g) (get_path g (Some m))) = valid)
    by now rewrite Hp.
  pose proof (strip_valid is_url is_email s' _ _ Hd Hs) as Hsv.
  assert (Hna : pstatus (zparse (strip s') (keys g) (get_path g (Some m)))
                <> aborted) by congruence.
  destruct (wrappers_report is_url is_email s' _ _ Hd Hna) as (_ & Ev & Hrule).
  rewrite Hp in Ev. cbn [pvalue OK] in Ev.
  destruct (chk (get_path g (Some m))) eqn:Ec; [reflexivity|].
  exfalso. rewrite Ev in Ec. specialize (Hrule _ _ _ Hin Ec).
  rewrite Hp in Hrule. exact Hrule.
Qed.

Lemma manifest_string d m g s' cs v :
  validate d = Success (Some m) ->
  node_at DeploymentManifestSchema g = Some s' ->
  strip s' = ZString cs ->
  get_path g (Some m) = Some v ->
  exists x, v = JStr x
    /\ forall c, In c cs -> run_string_check is_url is_email (keys g) x c = [].
Proof.
  intros H Hn Es Hv.
  assert (Hd : get_path g (Some m) <> None) by congruence.
  pose proof (manifest_node d m g s' H Hn Hd) as Hp.
  assert (Hs : pstatus (zparse s' (keys g) (get_path g (Some m))) = valid)
    by now rewrite Hp.
  apply strip_valid in Hs; [|exact Hd]. rewrite Es, Hv in Hs.
  apply string_valid_inv in Hs as (x & Ex & _ & Hc).
  exists x. split; [congruence | exact Hc].
Qed.

Lemma manifest_boolean d m g s' v :
  validate d = Success (Some m) ->
  node_at DeploymentManifestSchema g = Some s' ->
  strip s' = ZBoolean ->
  get_path g (Some m) = Some v ->
  exists b, v = JBool b.
Proof.
  intros H Hn Es Hv.
  assert (Hd : get_path g (Some m) <> None) by congruence.
  pose proof (manifest_node d m g s' H Hn Hd) as Hp.
  assert (Hs : pstatus (zparse s' (keys g) (get_path g (Some m))) = valid)
    by now rewrite Hp.
  apply strip_valid in Hs; [|exact Hd]. rewrite Es, Hv in Hs.
  apply boolean_valid_inv in Hs as (b & Ex & _).
  exists b. congruence.
Qed.

(** A truthy optional string of the manifest is a string that is not empty. *)
Lemma manifest_truthy_string d m g s' cs :
  validate d = Success (Some m) ->
  node_at DeploymentManifestSchema g = Some s' ->
  strip s' = ZString cs ->
  truthy (get_path g (Some m)) = true ->
  exists x, get_path g (Some m) = Some (JStr x) /\ x <> ""
    /\ forall c, In c cs -> run_string_check is_url is_email (keys g) x c = [].
Proof.
  intros H Hn Es Ht.
  destruct (get_path g (Some m)) as [v|] eqn:Ev; [|discriminate].
  destruct (manifest_string d m g s' cs v H Hn Es Ev) as (x & -> & Hc).
  exists x. split; [reflexivity|]. split; [|exact Hc].
  intros ->. discriminate.
Qed.

End ManifestNodes.

(** ** Patterns *)

Lemma none_test s : regex_test RNone s = false.
Proof. induction s; simpl; auto. Qed.

Lemma star_class_test c s : regex_test (RStar (RClass c)) s = forallb c (chars s).
Proof.
  induction s as [|a s IH]; [reflexivity|].
  cbn [regex_test deriv chars forallb]. destruct (c a); cbn [rcat andb].
  - exact IH.
  - apply none_test.
Qed.

Lemma class_then_star_test c1 c2 s :
  regex_test (RCat (RClass c1) (RCat (RStar (RClass c2)) REps)) s = true ->
  exists a rest, s = String a rest /\ c1 a = true
                 /\ forallb c2 (chars rest) = true.
Proof.
  destruct s as [|a s]; [discriminate|]. intros H. exists a, s.
  split; [reflexivity|]. cbn [regex_test deriv nullable] in H.
  destruct (c1 a); cbn [rcat] in H; [|now rewrite none_test in H].
  split; [reflexivity|].
  destruct s as [|b s]; [reflexivity|].
  cbn [regex_test deriv nullable andb chars forallb] in H |- *.
  destruct (c2 b); cbn [rcat ralt andb] in H |- *.
  - now rewrite star_class_test in H.
  - now rewrite none_test in H.
Qed.

Lemma forallb_pointwise {A} (f g : A -> bool) l :
  (forall a, f a = g a) -> forallb f l = forallb g l.
Proof.
  intros H. induction l as [|a l IH]; simpl; [reflexivity|]. now rewrite H, IH.
Qed.

Lemma prefix_pattern s :
  regex_test re_prefix s = true ->
  exists a rest, s = String a rest /\ letter a = true
                 /\ forallb prefix_char (chars rest) = true.
Proof.
  intros H. apply class_then_star_test in H as (a & rest & -> & Ha & Hr).
  exists a, rest. split; [reflexivity|]. split.
  - unfold letter. cbn [existsb] in Ha. now rewrite orb_false_r in Ha.
  - rewrite <- Hr. apply forallb_pointwise. intros b. unfold prefix_char, ch.
    cbn [existsb]. now rewrite orb_false_r.
Qed.

(** ** What validation guarantees *)

Section SchemaProperties.

Variable is_url : string -> bool.
Variable is_email : string -> bool.

Local Abbreviation zparse := (parse is_url is_email).
Local Abbreviation zfields := (parse_fields is_url is_email).
Local Abbreviation validate := (safeParse is_url is_email DeploymentManifestSchema).

Lemma valid_document_object sh p d :
  pstatus (zparse (ZObject sh) p d) = valid -> is_object d = true.
Proof.
  intros H. destruct (is_object d) eqn:E; [reflexivity|].
  rewrite (parse_object_type is_url is_email sh p d E) in H. discriminate.
Qed.

Lemma check_passes p x c cs :
  (forall c', In c' cs -> run_string_check is_url is_email p x c' = []) ->
  In c cs ->
  match c with
  | CMin n _ => n <= String.length x
  | CMax n _ => String.length x <= n
  | CLength n _ => String.length x = n
  | CRegex r _ => regex_test r x = true
  | CUrl _ => is_url x = true
  | CEmail _ => is_email x = true
  end.
Proof.
  intros H Hin. specialize (H c Hin). destruct c; cbn [run_string_check] in H.
  - destruct (Nat.ltb (String.length x) n) eqn:E; [discriminate|].
    apply Nat.ltb_ge in E. exact E.
  - destruct (Nat.ltb n (String.length x)) eqn:E; [discriminate|].
    apply Nat.ltb_ge in E. exact E.
  - destruct (Nat.ltb n (String.length x)) eqn:E; [discriminate|].
    destruct (Nat.ltb (String.length x) n) eqn:E2; [discriminate|].
    apply Nat.ltb_ge in E, E2. lia.
  - destruct (regex_test r x); [reflexivity|discriminate].
  - destruct (is_url x); [reflexivity|discriminate].
  - destruct (is_email x); [reflexivity|discriminate].
Qed.

Lemma group_defined g k m v :
  get_path (g ++ [k]) (Some m) = Some v -> get_path g (Some m) <> None.
Proof.
  rewrite get_path_app. intros H E. rewrite E in H. discriminate.
Qed.

(** X1: running [safeParse] on the data it returned succeeds and returns the
    same data: the loader and [validateManifest] agree on a manifest that
    went through either of them. *)
Theorem validation_idempotent d data :
  safeParse is_url is_email DeploymentManifestSchema d = Success data ->
  safeParse is_url is_email DeploymentManifestSchema data = Success data.
Proof. apply validate_again. Qed.

(** X2: the keys that the schema does not declare play no part: two documents
    that agree on the declared top-level keys get the same result, the same
    data or the same errors. *)
Theorem undeclared_keys_ignored o o' :
  (forall k, In k (map fst DeploymentManifestShape) -> assoc k o = assoc k o') ->
  validate (Some (JObj o)) = validate (Some (JObj o')).
Proof.
  intros H. unfold safeParse, DeploymentManifestSchema.
  rewrite !parse_object.
  replace (zfields DeploymentManifestShape [] o')
    with (zfields DeploymentManifestShape [] o); [reflexivity|].
  unfold parse_fields. apply map_ext_in. intros [k fs] Hin. cbn [fst snd].
  rewrite (H k); [reflexivity|]. apply in_map_iff. exists (k, fs). auto.
Qed.

Lemma manifest_prefix d m :
  validate d = Success (Some m) ->
  exists a rest,
    get_path ["prefix"] d = Some (JStr (String a rest))
    /\ get_path ["prefix"] (Some m) = Some (JStr (String a rest))
    /\ letter a = true
    /\ forallb prefix_char (chars rest) = true
    /\ String.length rest <= 15.
Proof.
  intros H. apply safeParse_Success in H as [Hv Hm].
  pose proof (valid_document_object _ _ _ Hv) as Ho.
  assert (Hr : ["prefix"] <> [] ->
               is_object (get_path (removelast ["prefix"]) d) = true)
    by (intros _; exact Ho).
  pose proof (node_valid is_url is_email ["prefix"] DeploymentManifestSchema
                [] d _ eq_refl Hr Hv) as Hs.
  pose proof (node_value is_url is_email ["prefix"] DeploymentManifestSchema
                [] d _ schema_distinct_keys eq_refl Hr Hv) as He.
  rewrite Hm in He. change ([] ++ keys ["prefix"]) with [PKey "prefix"] in Hs, He.
  apply string_valid_inv in Hs as (x & Ex & Ep & Hc).
  rewrite Ep, Ex in He.
  pose proof (check_passes _ x (CRegex re_prefix _) _ Hc
                ltac:(right; right; left; reflexivity)) as Hre.
  pose proof (check_passes _ x (CMax 16 _) _ Hc
                ltac:(right; left; reflexivity)) as Hmax.
  cbv beta iota in Hre, Hmax.
  apply prefix_pattern in Hre as (a & rest & -> & Ha & Hrest).
  exists a, rest. repeat split; auto. simpl in Hmax. lia.
Qed.

(** X3: a validated manifest has a prefix, the one of the document: a letter
    followed by at most fifteen letters, digits or hyphens. *)
Theorem validated_prefix d m :
  validate d = Success (Some m) ->
  exists a rest,
    get_path ["prefix"] d = Some (JStr (String a rest))
    /\ get_path ["prefix"] (Some m) = Some (JStr (String a rest))
    /\ letter a = true
    /\ forallb prefix_char (chars rest) = true
    /\ String.length rest <= 15.
Proof. apply manifest_prefix. Qed.

Lemma field_of_group g k m :
  field (get_path g (Some m)) k = get_path (g ++ [k]) (Some m).
Proof. unfold field. now rewrite get_path_app. Qed.

Lemma truthy_boolean d m g s' :
  validate d = Success (Some m) ->
  node_at DeploymentManifestSchema g = Some s' ->
  strip s' = ZBoolean ->
  truthy (get_path g (Some m)) = true ->
  get_path g (Some m) = Some (JBool true).
Proof.
  intros H Hn Es Ht.
  destruct (get_path g (Some m)) as [v|] eqn:Ev; [|discriminate].
  destruct (manifest_boolean is_url is_email d m g s' v H Hn Es Ev) as (b & ->).
  simpl in Ht. now subst.
Qed.

(** X5: when a validated manifest enables the guardrails, it names them: the
    identifier and the version are strings that are not empty. *)
Theorem guardrails_enabled_complete d m :
  validate d = Success (Some m) ->
  get_path ["bedrock"; "guardrails"; "enabled"] (Some m) = Some (JBool true) ->
  exists identifier version,
    get_path ["bedrock"; "guardrails"; "identifier"] (Some m)
    = Some (JStr identifier)
    /\ identifier <> ""
    /\ get_path ["bedrock"; "guardrails"; "version"] (Some m)
       = Some (JStr version)
    /\ version <> "".
Proof.
  intros H He.
  pose proof (group_defined ["bedrock"; "guardrails"] "enabled" m _ He) as Hg.
  pose proof (manifest_rules is_url is_email d m ["bedrock"; "guardrails"] _
                guardrail_rule _ _ H eq_refl Hg ltac:(left; reflexivity)) as Hr.
  unfold guardrail_rule in Hr. rewrite !field_of_group in Hr.
  cbn [app] in Hr. rewrite He in Hr. cbn [truthy] in Hr.
  apply andb_prop in Hr as [Hi Hv].
  destruct (manifest_truthy_string is_url is_email d m
                ["bedrock"; "guardrails"; "identifier"] _ _ H eq_refl eq_refl Hi)
    as (i & Ei & Hin & _).
  destruct (manifest_truthy_string is_url is_email d m
                ["bedrock"; "guardrails"; "version"] _ _ H eq_refl eq_refl Hv)
    as (v & Ev & Hvn & _).
  exists i, v. auto.
Qed.

(** X6: when a validated manifest enables the federation with a SAML provider,
    it gives the metadata document, an HTTPS URL. *)
Theorem saml_federation_complete d m :
  validate d = Success (Some m) ->
  get_path ["cognitoFederation"; "enabled"] (Some m) = Some (JBool true) ->
  get_path ["cognitoFederation"; "customProviderType"] (Some m)
  = Some (JStr "SAML") ->
  exists url,
    get_path ["cognitoFederation"; "customSAML"; "metadataDocumentUrl"] (Some m)
    = Some (JStr url)
    /\ is_url url = true
    /\ String.prefix "https://" url = true.
Proof.
  intros H He Ht.
  pose proof (group_defined ["cognitoFederation"] "enabled" m _ He) as Hg.
  pose proof (manifest_rules is_url is_email d m ["cognitoFederation"] _
                saml_rule _ _ H eq_refl Hg ltac:(left; reflexivity)) as Hr.
  unfold saml_rule in Hr. rewrite !field_of_group in Hr.
  rewrite <- get_path_app in Hr. cbn [app] in Hr.
  rewrite He, Ht in Hr. cbn [truthy is_string andb String.eqb Ascii.eqb Bool.eqb]
    in Hr.
  destruct (manifest_truthy_string is_url is_email d m
                ["cognitoFederation"; "customSAML"; "metadataDocumentUrl"] _ _ H eq_refl eq_refl Hr)
    as (u & Eu & _ & Hc).
  exists u. split; [exact Eu|]. split.
  - exact (check_passes _ u (CUrl _) _ Hc ltac:(left; reflexivity)).
  - assert (Hd : get_path ["cognitoFederation"; "customSAML"; "metadataDocumentUrl"]
                          (Some m) <> None) by congruence.
    pose proof (manifest_rules is_url is_email d m
                  ["cognitoFederation"; "customSAML"; "metadataDocumentUrl"] _
                  starts_with_https _ _ H eq_refl Hd ltac:(left; reflexivity))
      as Hh.
    rewrite Eu in Hh. exact Hh.
Qed.

(** X7: when a validated manifest enables the federation with an OIDC provider,
    it gives the client, the secret and the issuer, an HTTPS URL. *)
Theorem oidc_federation_complete d m :
  validate d = Success (Some m) ->
  get_path ["cognitoFederation"; "enabled"] (Some m) = Some (JBool true) ->
  get_path ["cognitoFederation"; "customProviderType"] (Some m)
  = Some (JStr "OIDC") ->
  exists client secret issuer,
    get_path ["cognitoFederation"; "customOIDC"; "OIDCClient"] (Some m)
    = Some (JStr client)
    /\ client <> ""
    /\ get_path ["cognitoFederation"; "customOIDC"; "OIDCSecret"] (Some m)
       = Some (JStr secret)
    /\ regex_test re_secret_arn secret = true
    /\ get_path ["cognitoFederation"; "customOIDC"; "OIDCIssuerURL"] (Some m)
       = Some (JStr issuer)
    /\ is_url issuer = true
    /\ String.prefix "https://" issuer = true.
Proof.
  intros H He Ht.
  pose proof (group_defined ["cognitoFederation"] "enabled" m _ He) as Hg.
  pose proof (manifest_rules is_url is_email d m ["cognitoFederation"] _
                oidc_rule _ _ H eq_refl Hg
                ltac:(right; left; reflexivity)) as Hr.
  unfold oidc_rule in Hr. rewrite !field_of_group in Hr.
  rewrite <- !get_path_app in Hr. cbn [app] in Hr.
  rewrite He, Ht in Hr. cbn [truthy is_string andb String.eqb Ascii.eqb Bool.eqb]
    in Hr.
  apply andb_prop in Hr as [Hr Hi]. apply andb_prop in Hr as [Hc Hs].
  destruct (manifest_truthy_string is_url is_email d m
                ["cognitoFederation"; "customOIDC"; "OIDCClient"] _ _ H eq_refl eq_refl Hc)
    as (c & Ec & Hcn & _).
  destruct (manifest_truthy_string is_url is_email d m
                ["cognitoFederation"; "customOIDC"; "OIDCSecret"] _ _ H eq_refl eq_refl Hs)
    as (s & Es & _ & Hsc).
  destruct (manifest_truthy_string is_url is_email d m
                ["cognitoFederation"; "customOIDC"; "OIDCIssuerURL"] _ _ H eq_refl eq_refl Hi)
    as (i & Ei & _ & Hic).
  exists c, s, i. repeat (split; [assumption|]).
  split; [|split; [assumption|split]].
  - exact (check_passes _ s (CRegex re_secret_arn _) _ Hsc
             ltac:(left; reflexivity)).
  - exact (check_passes _ i (CUrl _) _ Hic ltac:(left; reflexivity)).
  - assert (Hd : get_path ["cognitoFederation"; "customOIDC"; "OIDCIssuerURL"]
                          (Some m) <> None) by congruence.
    pose proof (manifest_rules is_url is_email d m
                  ["cognitoFederation"; "customOIDC"; "OIDCIssuerURL"] _
                  starts_with_https _ _ H eq_refl Hd ltac:(left; reflexivity))
      as Hh.
    rewrite Ei in Hh. exact Hh.
Qed.

(** X8: when a validated manifest enables the federation and the provider type
    is not ["later"] (an omitted type included), it names the provider, in
    at most 32 characters. *)
Theorem federation_provider_named d m :
  validate d = Success (Some m) ->
  get_path ["cognitoFederation"; "enabled"] (Some m) = Some (JBool true) ->
  get_path ["cognitoFederation"; "customProviderType"] (Some m)
  <> Some (JStr "later") ->
  exists name,
    get_path ["cognitoFederation"; "customProviderName"] (Some m)
    = Some (JStr name)
    /\ name <> ""
    /\ String.length name <= 32.
Proof.
  intros H He Ht.
  pose proof (group_defined ["cognitoFederation"] "enabled" m _ He) as Hg.
  pose proof (manifest_rules is_url is_email d m ["cognitoFederation"] _
                provider_name_rule _ _ H eq_refl Hg
                ltac:(right; right; left; reflexivity)) as Hr.
  unfold provider_name_rule in Hr. rewrite !field_of_group in Hr.
  cbn [app] in Hr. rewrite He in Hr. cbn [truthy andb] in Hr.
  assert (El : is_string
                 (get_path ["cognitoFederation"; "customProviderType"] (Some m))
                 "later" = false).
  { destruct (get_path ["cognitoFederation"; "customProviderType"] (Some m))
      as [[| | |x| |]|]; try reflexivity.
    unfold is_string. destruct (String.eqb x "later") eqn:E; [|reflexivity].
    apply String.eqb_eq in E. subst. congruence. }
  rewrite El in Hr. cbn [negb] in Hr.
  destruct (manifest_truthy_string is_url is_email d m
                ["cognitoFederation"; "customProviderName"] _ _ H eq_refl eq_refl Hr)
    as (n & En & Hn & Hc).
  exists n. split; [exact En|]. split; [exact Hn|].
  exact (check_passes _ n (CMax 32 _) _ Hc ltac:(right; left; reflexivity)).
Qed.

(** X9: when a validated manifest enables RAG, it enables one of the two
    engines in the same document. *)
Theorem rag_enabled_has_engine d m :
  validate d = Success (Some m) ->
  get_path ["rag"; "enabled"] (Some m) = Some (JBool true) ->
  get_path ["rag"; "engines"; "opensearch"; "enabled"] (Some m)
  = Some (JBool true)
  \/ get_path ["rag"; "engines"; "knowledgeBase"; "enabled"] (Some m)
     = Some (JBool true).
Proof.
  intros H He.
  pose proof (group_defined ["rag"] "enabled" m _ He) as Hg.
  pose proof (manifest_rules is_url is_email d m ["rag"] _
                rag_engine_rule _ _ H eq_refl Hg ltac:(left; reflexivity)) as Hr.
  unfold rag_engine_rule in Hr. rewrite !field_of_group in Hr.
  rewrite <- !get_path_app in Hr. cbn [app] in Hr.
  rewrite He in Hr. cbn [truthy] in Hr.
  apply orb_prop in Hr as [Hr|Hr]; [left|right].
  - exact (truthy_boolean d m ["rag"; "engines"; "opensearch"; "enabled"] _
             H eq_refl eq_refl Hr).
  - exact (truthy_boolean d m ["rag"; "engines"; "knowledgeBase"; "enabled"] _
             H eq_refl eq_refl Hr).
Qed.

(** X10: the pipeline group of a validated manifest names exactly one
    repository: with [createNew: true] the new repository, and no existing
    one; otherwise the existing repository.  The name is not empty. *)
Theorem pipeline_repository_named d m :
  validate d = Success (Some m) ->
  get_path ["pipeline"] (Some m) <> None ->
  (get_path ["pipeline"; "codecommit"; "createNew"] (Some m) = Some (JBool true)
   /\ get_path ["pipeline"; "codecommit"; "existingRepositoryName"] (Some m)
      = None
   /\ exists name,
        get_path ["pipeline"; "codecommit"; "newRepositoryName"] (Some m)
        = Some (JStr name) /\ name <> "")
  \/ (truthy (get_path ["pipeline"; "codecommit"; "createNew"] (Some m)) = false
      /\ exists name,
           get_path ["pipeline"; "codecommit"; "existingRepositoryName"] (Some m)
           = Some (JStr name) /\ name <> "").
Proof.
  intros H Hp.
  pose proof (validated_shape is_url is_email d m H) as Hs.
  unfold DeploymentManifest_shape in Hs. apply andb_prop in Hs as [_ Hs].
  apply orb_prop in Hs as [Hs|Hs];
    [destruct (get_path ["pipeline"] (Some m)); [discriminate|congruence]|].
  assert (Hg : get_path ["pipeline"; "codecommit"] (Some m) <> None)
    by (destruct (get_path ["pipeline"; "codecommit"] (Some m));
        [congruence|discriminate]).
  pose proof (manifest_rules is_url is_email d m ["pipeline"; "codecommit"] _
                codecommit_exclusive_rule _ _ H eq_refl Hg
                ltac:(left; reflexivity)) as Hx.
  pose proof (manifest_rules is_url is_email d m ["pipeline"; "codecommit"] _
                new_repository_rule _ _ H eq_refl Hg
                ltac:(right; left; reflexivity)) as Hn.
  unfold codecommit_exclusive_rule in Hx. unfold new_repository_rule in Hn.
  rewrite !field_of_group in Hx, Hn. cbn [app] in Hx, Hn.
  destruct (truthy (get_path ["pipeline"; "codecommit"; "createNew"] (Some m)))
    eqn:Ec.
  - left. split; [exact (truthy_boolean d m ["pipeline"; "codecommit"; "createNew"] _ H eq_refl eq_refl Ec)|].
    destruct (manifest_truthy_string is_url is_email d m
                ["pipeline"; "codecommit"; "newRepositoryName"] _ _ H
                eq_refl eq_refl Hn) as (n & En & Hne & _).
    split; [|eauto].
    destruct (get_path ["pipeline"; "codecommit"; "existingRepositoryName"]
                       (Some m)) as [v|] eqn:Ee; [|reflexivity].
    exfalso.
    destruct (manifest_string is_url is_email d m
                ["pipeline"; "codecommit"; "existingRepositoryName"] _ _ v H eq_refl eq_refl Ee)
      as (x & -> & Hc).
    pose proof (check_passes _ x (CMin 1 _) _ Hc ltac:(left; reflexivity)) as Hl.
    cbv beta iota in Hl. destruct x; [simpl in Hl; lia|]. discriminate.
  - right. split; [reflexivity|].
    destruct (truthy (get_path ["pipeline"; "codecommit"; "existingRepositoryName"]
                               (Some m))) eqn:Ee; [|discriminate].
    destruct (manifest_truthy_string is_url is_email d m
                ["pipeline"; "codecommit"; "existingRepositoryName"] _ _ H
                eq_refl eq_refl Ee) as (n & En & Hne & _).
    eauto.
Qed.

Lemma parse_default_some s dv p x :
  zparse (ZDefault s dv) p (Some x) = zparse s p (Some x).
Proof. reflexivity. Qed.

(** X4: the defaults of the pipeline group are filled in by validation: the
    validated manifest has the branch, the approval flag and the seeding
    flag of the document, or ["main"], [true] and [false] where the document
    omits them. *)
Theorem pipeline_defaults d m :
  validate d = Success (Some m) ->
  get_path ["pipeline"] d <> None ->
  get_path ["pipeline"; "branch"] (Some m)
  = Some match get_path ["pipeline"; "branch"] d with
         | Some branch => branch
         | None => JStr "main"
         end
  /\ get_path ["pipeline"; "requireApproval"] (Some m)
     = Some match get_path ["pipeline"; "requireApproval"] d with
            | Some flag => flag
            | None => JBool true
            end
  /\ get_path ["pipeline"; "codecommit"; "seedOnCreate"] (Some m)
     = Some match get_path ["pipeline"; "codecommit"; "seedOnCreate"] d with
            | Some flag => flag
            | None => JBool false
            end.
Proof.
  intros H Hp. apply safeParse_Success in H as [Hv Hm].
  pose proof (valid_document_object _ _ _ Hv) as Ho.
  assert (Hr0 : forall k : string,
             [k] <> [] -> is_object (get_path (removelast [k]) d) = true)
    by (intros k _; exact Ho).
  (* the pipeline group of the document is an object *)
  pose proof (node_valid is_url is_email ["pipeline"] DeploymentManifestSchema
                [] d _ eq_refl (Hr0 "pipeline") Hv) as Hpv.
  destruct (get_path ["pipeline"] d) as [pl|] eqn:Epl; [clear Hp|congruence].
  rewrite parse_optional_some in Hpv.
  pose proof (valid_document_object _ _ _ Hpv) as Hpo.
  assert (Hr1 : forall k : string,
             ["pipeline"; k] <> [] ->
             is_object (get_path (removelast ["pipeline"; k]) d) = true).
  { intros k _. cbn [removelast]. now rewrite Epl. }
  (* and so is its codecommit group *)
  pose proof (node_valid is_url is_email ["pipeline"; "codecommit"]
                DeploymentManifestSchema [] d _ eq_refl (Hr1 "codecommit") Hv)
    as Hcv.
  apply refine_valid_inv in Hcv as [Hcv _].
  apply refine_valid_inv in Hcv as [Hcv _].
  pose proof (valid_document_object _ _ _ Hcv) as Hco.
  assert (Hr2 : forall k : string,
             ["pipeline"; "codecommit"; k] <> [] ->
             is_object (get_path (removelast ["pipeline"; "codecommit"; k]) d)
             = true).
  { intros k _. exact Hco. }
  split; [|split].
  - pose proof (node_valid is_url is_email ["pipeline"; "branch"]
                  DeploymentManifestSchema [] d _ eq_refl (Hr1 "branch") Hv) as Hs.
    pose proof (node_value is_url is_email ["pipeline"; "branch"]
                  DeploymentManifestSchema [] d _ schema_distinct_keys eq_refl
                  (Hr1 "branch") Hv) as He.
    rewrite Hm in He. rewrite He. clear He Hv Hm Hpv Hcv.
    destruct (get_path ["pipeline"; "branch"] d) as [x|]; [|reflexivity].
    rewrite parse_default_some in Hs |- *.
    apply string_valid_inv in Hs as (? & _ & Ep & _). exact Ep.
  - pose proof (node_valid is_url is_email ["pipeline"; "requireApproval"]
                  DeploymentManifestSchema [] d _ eq_refl
                  (Hr1 "requireApproval") Hv) as Hs.
    pose proof (node_value is_url is_email ["pipeline"; "requireApproval"]
                  DeploymentManifestSchema [] d _ schema_distinct_keys eq_refl
                  (Hr1 "requireApproval") Hv) as He.
    rewrite Hm in He. rewrite He. clear He Hv Hm Hpv Hcv.
    destruct (get_path ["pipeline"; "requireApproval"] d) as [x|];
      [|reflexivity].
    rewrite parse_default_some, parse_optional_some in Hs |- *.
    apply boolean_valid_inv in Hs as (? & _ & Ep). exact Ep.
  - pose proof (node_valid is_url is_email
                  ["pipeline"; "codecommit"; "seedOnCreate"]
                  DeploymentManifestSchema [] d _ eq_refl
                  (Hr2 "seedOnCreate") Hv) as Hs.
    pose proof (node_value is_url is_email
                  ["pipeline"; "codecommit"; "seedOnCreate"]
                  DeploymentManifestSchema [] d _ schema_distinct_keys eq_refl
                  (Hr2 "seedOnCreate") Hv) as He.
    rewrite Hm in He. rewrite He. clear He Hv Hm Hpv Hcv.
    destruct (get_path ["pipeline"; "codecommit"; "seedOnCreate"] d) as [x|];
      [|reflexivity].
    rewrite parse_default_some, parse_optional_some in Hs |- *.
    apply boolean_valid_inv in Hs as (? & _ & Ep). exact Ep.
Qed.

End SchemaProperties.

(* ================================================================= *)
(** * The keys of a validated manifest *)

Section DeclaredKeys.

Variable is_url : string -> bool.
Variable is_email : string -> bool.

Lemma shape_lookup_absent k sh :
  shape_lookup k sh = None ->
  existsb (fun ks => String.eqb k (fst ks)) sh = false.
Proof.
  induction sh as [|[k' fs] sh IH]; simpl; [reflexivity|].
  destruct (String.eqb k k'); [discriminate|]. exact IH.
Qed.

(** X29: validation strips what the schema does not declare: in the data of
    a validated manifest, a group of the schema holds no key other than the
    ones that the schema declares for it, at any depth. *)
Theorem validated_keys_declared d m g s' sh k :
  safeParse is_url is_email DeploymentManifestSchema d = Success (Some m) ->
  node_at DeploymentManifestSchema g = Some s' ->
  strip s' = ZObject sh ->
  shape_lookup k sh = None ->
  get_path (g ++ [k]) (Some m) = None.
Proof.
  intros H Hn Es Hk. rewrite get_path_app.
  destruct (get_path g (Some m)) as [v|] eqn:Ev; [|reflexivity].
  assert (Hd : get_path g (Some m) <> None) by congruence.
  pose proof (manifest_node is_url is_email d m g s' H Hn Hd) as Hp.
  rewrite Ev in Hp, Hd.
  assert (Hs : pstatus (parse is_url is_email s' (keys g) (Some v)) = valid)
    by now rewrite Hp.
  pose proof (strip_valid is_url is_email s' _ _ Hd Hs) as Hsv.
  assert (Hna : pstatus (parse is_url is_email (strip s') (keys g) (Some v))
                <> aborted) by congruence.
  destruct (wrappers_report is_url is_email s' _ _ Hd Hna) as (_ & Ep & _).
  rewrite Hp, Es in Ep. cbn [pvalue OK] in Ep. rewrite Es in Hna.
  destruct v as [| | | | |o]; try reflexivity.
  rewrite parse_object in Ep, Hna. rewrite mergeObjectSync_status in Hna.
  rewrite mergeObjectSync_value in Ep by exact Hna.
  injection Ep as Eo. cbn [get_path]. rewrite Eo.
  apply merged_props_fresh, shape_lookup_absent, Hk.
Qed.

End DeclaredKeys.

(* ================================================================= *)
(** * Further properties of the loader *)

Section LoaderProperties.

Variable DEPLOYMENT_MANIFEST : option string.
Variable existsSync : string -> bool.
Variable readFileSync : string -> option string.
Variable yaml_load : string -> option (option json).
Variable getConfig : json.
Variable is_url : string -> bool.
Variable is_email : string -> bool.
Variable errorMap : issue -> string.

Local Abbreviation validate := (safeParse is_url is_email DeploymentManifestSchema).
Local Abbreviation locate := (findManifestFile DEPLOYMENT_MANIFEST existsSync).
Local Abbreviation loadManifest :=
  (loadDeploymentManifest DEPLOYMENT_MANIFEST existsSync readFileSync yaml_load
     is_url is_email errorMap).
Local Abbreviation load :=
  (loadConfig DEPLOYMENT_MANIFEST existsSync readFileSync yaml_load getConfig
     is_url is_email errorMap).

(** X11: the candidates are tried in the order: the path of the environment
    variable, unless it is unset or empty, then the [.yaml] file, then the
    [.yml] file; the first one that exists is the manifest. *)
Theorem findManifestFile_priority :
  (forall p, DEPLOYMENT_MANIFEST = Some p -> p <> "" -> existsSync p = true ->
             findManifestFile DEPLOYMENT_MANIFEST existsSync = Some p)
  /\ ((forall p, DEPLOYMENT_MANIFEST = Some p -> p <> "" ->
                 existsSync p = false) ->
      (existsSync "deployment-manifest.yaml" = true ->
       findManifestFile DEPLOYMENT_MANIFEST existsSync = Some "deployment-manifest.yaml")
      /\ (existsSync "deployment-manifest.yaml" = false ->
          existsSync "deployment-manifest.yml" = true ->
          findManifestFile DEPLOYMENT_MANIFEST existsSync = Some "deployment-manifest.yml")).
Proof.
  unfold findManifestFile, searchPaths. split.
  - intros p -> Hp He. apply String.eqb_neq in Hp. rewrite Hp.
    cbn [app find]. now rewrite He.
  - intros Henv.
    assert (E : find existsSync
                  (match DEPLOYMENT_MANIFEST with
                   | Some p => if String.eqb p "" then [] else [p]
                   | None => []
                   end
                   ++ ["deployment-manifest.yaml"; "deployment-manifest.yml"])
                = find existsSync
                    ["deployment-manifest.yaml"; "deployment-manifest.yml"]).
    { destruct DEPLOYMENT_MANIFEST as [p|]; [|reflexivity].
      destruct (String.eqb p "") eqn:Ep; [reflexivity|].
      apply String.eqb_neq in Ep. cbn [app find].
      now rewrite (Henv p eq_refl Ep). }
    rewrite E. cbn [find]. split.
    + intros ->. reflexivity.
    + intros -> ->. reflexivity.
Qed.

Lemma records_prefix base d m st :
  validate d = Success (Some m) ->
  applyManifestOverrides base m = Ok st ->
  records_for "prefix" (overrides st) = 1.
Proof.
  intros H Hst.
  destruct (manifest_prefix is_url is_email d m H)
    as (a & rest & _ & Hp & _).
  refine (proj2 (override_effect m ["prefix"] _ _ Hp _ _ _ Hst)).
  - left. reflexivity.
  - discriminate.
Qed.

(** X12: a manifest file whose document is not an object (an empty file loads
    as [undefined]) is an error, reported at [root]: it is not taken for a
    missing manifest. *)
Theorem manifest_must_be_an_object path content document :
  locate = Some path ->
  readFileSync path = Some content ->
  yaml_load content = Some document ->
  is_object document = false ->
  loadManifest
  = Thrown (ValidationFailed
              ("  - root: " ++ errorMap (mkIssue invalid_type [] None)))
  /\ load
     = Thrown (ValidationFailed
                 ("  - root: " ++ errorMap (mkIssue invalid_type [] None))).
Proof.
  intros Hf Hr Hy Ho.
  assert (E : loadManifest
              = Thrown (ValidationFailed
                          ("  - root: "
                           ++ errorMap (mkIssue invalid_type [] None)))).
  { unfold loadDeploymentManifest. rewrite Hf, Hr, Hy.
    unfold safeParse, DeploymentManifestSchema.
    rewrite (parse_object_type is_url is_email _ _ _ Ho). reflexivity. }
  split; [exact E|]. unfold loadConfig. now rewrite E.
Qed.

(** X13: with a base configuration of the [SystemConfig] shape, [loadConfig]
    throws nothing but the errors of [loadDeploymentManifest]: the merge
    of a validated manifest never dereferences a missing group. *)
Theorem loadConfig_never_TypeError :
  SystemConfig_shape getConfig = true ->
  is_TypeError load = false.
Proof.
  intros Hb. unfold loadConfig, loadDeploymentManifest.
  destruct locate as [path|]; [|reflexivity].
  destruct (readFileSync path) as [content|]; [|reflexivity].
  destruct (yaml_load content) as [document|]; [|reflexivity].
  destruct (validate document) as [data|errors] eqn:Ev; [|reflexivity].
  destruct data as [m|]; [|reflexivity].
  destruct (truthy (Some m)); [|reflexivity].
  destruct (merge_completes is_url is_email getConfig document m Hb Ev)
    as (st & -> & _).
  reflexivity.
Qed.

(** X14: when [loadConfig] returns, its change log is empty exactly when no
    manifest file was found; with a manifest the result is the merge of the
    validated manifest, whose log holds at least the record of the prefix. *)
Theorem loadConfig_returns_base_or_merge resolved log :
  load = Returned (resolved, log) ->
  (locate = None /\ resolved = getConfig /\ log = [])
  \/ (exists path content document m st,
        locate = Some path
        /\ readFileSync path = Some content
        /\ yaml_load content = Some document
        /\ validate document = Success (Some m)
        /\ applyManifestOverrides getConfig m = Ok st
        /\ resolved = config st
        /\ log = overrides st
        /\ records_for "prefix" log = 1).
Proof.
  unfold loadConfig, loadDeploymentManifest. intros H.
  destruct locate as [path|] eqn:Ef.
  - right.
    destruct (readFileSync path) as [content|] eqn:Er; [|discriminate].
    destruct (yaml_load content) as [document|] eqn:Ey; [|discriminate].
    destruct (validate document) as [data|errors] eqn:Ev; [|discriminate].
    destruct (validated_object is_url is_email document data Ev) as (o & ->).
    cbn [truthy] in H.
    destruct (applyManifestOverrides getConfig (JObj o)) as [st|] eqn:Ea;
      [|discriminate].
    inversion H; subst. exists path, content, document, (JObj o), st.
    repeat (split; [assumption || reflexivity|]).
    eapply records_prefix; eauto.
  - left. inversion H; subst. auto.
Qed.

End LoaderProperties.

(* ================================================================= *)
(** * Further properties of the merge *)

(** ** Invariants of the change log *)

Lemma applyOverride_record q x st st' :
  applyOverride q x st = Ok st' ->
  assignPath q x (cfg st) = Ok (config st')
  /\ overrideCount st' = S (overrideCount st)
  /\ overrides st'
     = overrides st ++ [{| cpath := dotted q; oldValue := get_path q (cfg st);
                           newValue := Some x |}].
Proof.
  unfold applyOverride, cfg. intros H.
  destruct (readPath q (Some (config st))) as [old|] eqn:E; simpl in H;
    [|discriminate].
  apply readPath_get in E.
  destruct (assignPath q x (Some (config st))) as [c|]; simpl in H; [|discriminate].
  inversion H; subst; simpl. auto.
Qed.

Lemma getProp_defined v k x : getProp v k = Ok x -> v <> None.
Proof. destruct v; [discriminate|]. simpl. discriminate. Qed.

Lemma getProp_get v k x : getProp v k = Ok x -> get_path [k] v = x.
Proof.
  destruct v as [[]|]; simpl; intros H; inversion H; reflexivity.
Qed.

Lemma replacePipeline_record m st st' :
  replacePipeline m st = Ok st' ->
  get_path ["pipeline"] (Some m) <> None
  /\ overrideCount st' = S (overrideCount st)
  /\ overrides st'
     = overrides st ++ [{| cpath := "pipeline";
                           oldValue := get_path ["pipeline"] (cfg st);
                           newValue := get_path ["pipeline"] (Some m) |}].
Proof.
  unfold replacePipeline, cfg. intros H.
  destruct (getProp (Some (config st)) "pipeline") as [old|] eqn:Eo;
    cbn [bind] in H; [|discriminate].
  destruct (getProp (Some m) "pipeline") as [new|] eqn:En;
    cbn [bind] in H; [|discriminate].
  destruct (getProp new "enabled") as [enabled|] eqn:Ee;
    cbn [bind] in H; [|discriminate].
  apply getProp_get in Eo, En. apply getProp_defined in Ee.
  repeat match type of H with
         | bind ?e _ = Ok _ =>
             destruct e eqn:?; cbn [bind] in H; [|discriminate]
         end.
  inversion H; subst; cbn [overrideCount overrides logOverride].
  split; [exact Ee|]. split; reflexivity.
Qed.

Lemma count_kept_refl a : count_kept a a.
Proof. intros H. exact H. Qed.

Lemma count_kept_trans a b c : count_kept a b -> count_kept b c -> count_kept a c.
Proof. unfold count_kept. auto. Qed.

Lemma count_applyOverride q x : rel count_kept (applyOverride q x).
Proof.
  intros st st' H Hc. apply applyOverride_record in H as (_ & Hn & Hl).
  unfold counted in *. rewrite Hn, Hl, length_app, Hc. simpl. lia.
Qed.

Lemma count_overrideField m q : rel count_kept (overrideField m q).
Proof.
  intros st st' H. apply overrideField_inv in H as [[_ ->]|(x & _ & H)].
  - apply count_kept_refl.
  - eapply count_applyOverride; eauto.
Qed.

Lemma count_overrideFieldUnlessEmpty m q :
  rel count_kept (overrideFieldUnlessEmpty m q).
Proof.
  intros st st' H.
  apply overrideFieldUnlessEmpty_inv in H as [[_ ->]|(x & _ & _ & H)].
  - apply count_kept_refl.
  - eapply count_applyOverride; eauto.
Qed.

Lemma count_ensureGroup g init : rel count_kept (ensureGroup g init).
Proof.
  intros st st' H Hc. apply ensureGroup_inv in H as (Hl & Hn & _).
  unfold counted in *. now rewrite Hl, Hn.
Qed.

Lemma count_replacePipeline m : rel count_kept (replacePipeline m).
Proof.
  intros st st' H Hc. apply replacePipeline_record in H as (_ & Hn & Hl).
  unfold counted in *. rewrite Hn, Hl, length_app, Hc. simpl. lia.
Qed.

Ltac count_all :=
  first
    [ apply rel_seq; [apply count_kept_trans | count_all | count_all]
    | apply rel_whenDefined; [apply count_kept_refl | intros _; count_all]
    | apply rel_whenGuardrails; [apply count_kept_refl | intros _; count_all]
    | apply count_overrideField
    | apply count_overrideFieldUnlessEmpty
    | apply count_ensureGroup
    | apply count_replacePipeline ].

(** X15: the number that [applyManifestOverrides] reports in its summary line is
    the number of change records it has logged, whatever the base and the
    manifest. *)
Theorem overrideCount_is_log_length base m st :
  applyManifestOverrides base m = Ok st ->
  overrideCount st = List.length (overrides st).
Proof.
  intros H.
  assert (Hr : rel count_kept (overrideStatements m))
    by (unfold overrideStatements; count_all).
  apply (Hr _ _ H). reflexivity.
Qed.

Lemma sound_kept_refl m a : sound_kept m a a.
Proof. intros H. exact H. Qed.

Lemma sound_kept_trans m a b c :
  sound_kept m a b -> sound_kept m b c -> sound_kept m a c.
Proof. unfold sound_kept. auto. Qed.

Lemma sound_overrideField m q :
  mem_path q override_paths = true -> q <> ["logArchiveBucketName"] ->
  rel (sound_kept m) (overrideField m q).
Proof.
  intros Hin Hq st st' H. apply overrideField_inv in H as [[_ ->]|(x & Hx & H)].
  - apply sound_kept_refl.
  - apply applyOverride_record in H as (_ & _ & Hl). intros Hs.
    rewrite Hl. apply Forall_app. split; [exact Hs|]. constructor; [|constructor].
    split; [discriminate|]. right. exists q. cbn [cpath newValue].
    apply mem_path_In in Hin. repeat split; auto; try (intros E; contradiction).
Qed.

Lemma sound_overrideFieldUnlessEmpty m q :
  mem_path q override_paths = true ->
  rel (sound_kept m) (overrideFieldUnlessEmpty m q).
Proof.
  intros Hin st st' H.
  apply overrideFieldUnlessEmpty_inv in H as [[_ ->]|(x & Hx & He & H)].
  - apply sound_kept_refl.
  - apply applyOverride_record in H as (_ & _ & Hl). intros Hs.
    rewrite Hl. apply Forall_app. split; [exact Hs|]. constructor; [|constructor].
    split; [discriminate|]. right. exists q. cbn [cpath newValue].
    apply mem_path_In in Hin. repeat split; auto;
      try (intros _ E; inversion E; subst; discriminate).
Qed.

Lemma sound_ensureGroup m g init : rel (sound_kept m) (ensureGroup g init).
Proof.
  intros st st' H Hs. apply ensureGroup_inv in H as (Hl & _). now rewrite Hl.
Qed.

Lemma sound_replacePipeline m : rel (sound_kept m) (replacePipeline m).
Proof.
  intros st st' H Hs. apply replacePipeline_record in H as (Hd & _ & Hl).
  rewrite Hl. apply Forall_app. split; [exact Hs|]. constructor; [|constructor].
  split; [exact Hd|]. left. split; reflexivity.
Qed.

Ltac sound_all :=
  first
    [ apply rel_seq; [apply sound_kept_trans | sound_all | sound_all]
    | apply rel_whenDefined; [apply sound_kept_refl | intros _; sound_all]
    | apply rel_whenGuardrails; [apply sound_kept_refl | intros _; sound_all]
    | apply sound_overrideField; [reflexivity | discriminate]
    | apply sound_overrideFieldUnlessEmpty; reflexivity
    | apply sound_ensureGroup
    | apply sound_replacePipeline ].

Lemma log_justified base m st :
  applyManifestOverrides base m = Ok st ->
  Forall (justified m) (overrides st).
Proof.
  intros H.
  assert (Hr : rel (sound_kept m) (overrideStatements m))
    by (unfold overrideStatements; sound_all).
  apply (Hr _ _ H). constructor.
Qed.

(** X16: every change record is justified by the manifest, whatever the base:
    it names a field or the pipeline group that the manifest defines, and
    its new value is the value of the manifest there; the bucket name is
    never recorded with the empty string. *)
Theorem change_log_justified base m st :
  applyManifestOverrides base m = Ok st ->
  Forall (justified m) (overrides st).
Proof. apply log_justified. Qed.

Lemma dotted_distinct :
  forallb (fun q =>
    negb (String.eqb (dotted q) "pipeline")
    && forallb (fun q' =>
         implb (String.eqb (dotted q') (dotted q)) (path_eqb q' q))
         override_paths)
    override_paths = true.
Proof. vm_compute. reflexivity. Qed.

Lemma filter_none {A} (f : A -> bool) l :
  (forall a, In a l -> f a = false) -> filter f l = [].
Proof.
  induction l as [|a l IH]; intros H; simpl; [reflexivity|].
  rewrite (H a) by (now left). apply IH. intros b Hb. apply H. now right.
Qed.

(** X17: a field that the manifest omits gets no change record, and neither
    does the pipeline group when the manifest has none. *)
Theorem omitted_field_not_recorded base m st :
  applyManifestOverrides base m = Ok st ->
  (forall q, In q override_paths -> get_path q (Some m) = None ->
             records_for (dotted q) (overrides st) = 0)
  /\ (get_path ["pipeline"] (Some m) = None ->
      records_for "pipeline" (overrides st) = 0).
Proof.
  intros H. pose proof (log_justified base m st H) as Hj.
  rewrite Forall_forall in Hj.
  pose proof dotted_distinct as Hd. rewrite forallb_forall in Hd.
  split.
  - intros q Hq Hm. unfold records_for. rewrite filter_none; [reflexivity|].
    intros r Hr. destruct (String.eqb (cpath r) (dotted q)) eqn:E; [|reflexivity].
    exfalso. apply String.eqb_eq in E.
    destruct (Hj r Hr) as [Hn [[Hp _]|(q' & Hq' & Hc & Hv & _)]].
    + specialize (Hd q Hq). apply andb_prop in Hd as [Hd _].
      rewrite <- E, Hp in Hd. discriminate.
    + specialize (Hd q Hq). apply andb_prop in Hd as [_ Hd].
      rewrite forallb_forall in Hd. specialize (Hd q' Hq').
      rewrite <- Hc, E, String.eqb_refl in Hd. cbn [implb] in Hd.
      apply path_eqb_eq in Hd. subst. congruence.
  - intros Hm. unfold records_for. rewrite filter_none; [reflexivity|].
    intros r Hr. destruct (String.eqb (cpath r) "pipeline") eqn:E; [|reflexivity].
    exfalso. apply String.eqb_eq in E.
    destruct (Hj r Hr) as [Hn [[_ Hv]|(q' & Hq' & Hc & _)]].
    + congruence.
    + specialize (Hd q' Hq'). apply andb_prop in Hd as [Hd _].
      rewrite <- Hc, E in Hd. discriminate.
Qed.

(** ** The record of one field *)

Lemma records_of_app path l1 l2 :
  records_of path (l1 ++ l2) = records_of path l1 ++ records_of path l2.
Proof. unfold records_of. apply filter_app. Qed.

Lemma silent_refl q a : silent q a a.
Proof. reflexivity. Qed.

Lemma silent_trans q a b c : silent q a b -> silent q b c -> silent q a c.
Proof. unfold silent. congruence. Qed.

Lemma quiet_refl q a : quiet q a a.
Proof. split; reflexivity. Qed.

Lemma quiet_trans q a b c : quiet q a b -> quiet q b c -> quiet q a c.
Proof. unfold quiet, silent. intros [H1 H2] [H3 H4]. split; congruence. Qed.

Lemma quiet_then_logs q v a b c : quiet q a b -> logs q v b c -> logs q v a c.
Proof. unfold quiet, silent, logs. intros [H1 H2] H3. now rewrite H3, H2, H1. Qed.

Lemma logs_then_silent q v a b c : logs q v a b -> silent q b c -> logs q v a c.
Proof. unfold silent, logs. intros H1 H2. now rewrite H2, H1. Qed.

Lemma silent_applyOverride q q' x :
  String.eqb (dotted q') (dotted q) = false -> rel (silent q) (applyOverride q' x).
Proof.
  intros Hs st st' H. apply applyOverride_record in H as (_ & _ & Hl).
  unfold silent. rewrite Hl, records_of_app. unfold records_of at 2.
  cbn [filter cpath]. rewrite Hs. apply app_nil_r.
Qed.

Lemma silent_overrideField m q q' :
  String.eqb (dotted q') (dotted q) = false -> rel (silent q) (overrideField m q').
Proof.
  intros Hs st st' H. apply overrideField_inv in H as [[_ ->]|(x & _ & H)].
  - apply silent_refl.
  - eapply silent_applyOverride; eauto.
Qed.

Lemma silent_overrideFieldUnlessEmpty m q q' :
  String.eqb (dotted q') (dotted q) = false ->
  rel (silent q) (overrideFieldUnlessEmpty m q').
Proof.
  intros Hs st st' H.
  apply overrideFieldUnlessEmpty_inv in H as [[_ ->]|(x & _ & _ & H)].
  - apply silent_refl.
  - eapply silent_applyOverride; eauto.
Qed.

Lemma silent_ensureGroup q g init : rel (silent q) (ensureGroup g init).
Proof.
  intros st st' H. apply ensureGroup_inv in H as (Hl & _).
  unfold silent. now rewrite Hl.
Qed.

Lemma silent_replacePipeline m q :
  String.eqb "pipeline" (dotted q) = false -> rel (silent q) (replacePipeline m).
Proof.
  intros Hs st st' H. apply replacePipeline_record in H as (_ & _ & Hl).
  unfold silent. rewrite Hl, records_of_app. unfold records_of at 2.
  cbn [filter cpath]. rewrite Hs. apply app_nil_r.
Qed.

Lemma quiet_overrideField m q q' :
  diverge q q' = true -> String.eqb (dotted q') (dotted q) = false ->
  rel (quiet q) (overrideField m q').
Proof.
  intros Hd Hs st st' H. split.
  - exact (proj1 (untouched_overrideField m q q' Hd Hs st st' H)).
  - exact (silent_overrideField m q q' Hs st st' H).
Qed.

Lemma quiet_overrideFieldUnlessEmpty m q q' :
  diverge q q' = true -> String.eqb (dotted q') (dotted q) = false ->
  rel (quiet q) (overrideFieldUnlessEmpty m q').
Proof.
  intros Hd Hs st st' H. split.
  - exact (proj1 (untouched_overrideFieldUnlessEmpty m q q' Hd Hs st st' H)).
  - exact (silent_overrideFieldUnlessEmpty m q q' Hs st st' H).
Qed.

Lemma quiet_ensureGroup q g init :
  diverge q g = true -> rel (quiet q) (ensureGroup g init).
Proof.
  intros Hd st st' H. split.
  - exact (proj1 (untouched_ensureGroup q g init Hd st st' H)).
  - exact (silent_ensureGroup q g init st st' H).
Qed.

(** Creating an empty group leaves the fields below it undefined. *)
Lemma quiet_ensureGroup_inside q g :
  g <> [] -> extends q g = true -> rel (quiet q) (ensureGroup g (JObj [])).
Proof.
  intros Hg He st st' H. split; [|exact (silent_ensureGroup q g _ st st' H)].
  apply ensureGroup_inv in H as (_ & _ & [[_ ->]|[Hf Ha]]); [reflexivity|].
  apply extends_app in He as (r & Hr & ->).
  rewrite !get_path_app. rewrite (falsy_not_object _ _ Hf Hr).
  unfold cfg. rewrite (assignPath_same g _ _ _ Hg Ha).
  now apply get_path_empty_object.
Qed.

Lemma quiet_replacePipeline m q :
  diverge q ["pipeline"] = true -> String.eqb "pipeline" (dotted q) = false ->
  rel (quiet q) (replacePipeline m).
Proof.
  intros Hd Hs st st' H. split.
  - exact (proj1 (untouched_replacePipeline m q Hd Hs st st' H)).
  - exact (silent_replacePipeline m q Hs st st' H).
Qed.

Lemma logs_applyOverride q x : rel (logs q (Some x)) (applyOverride q x).
Proof.
  intros st st' H. apply applyOverride_record in H as (_ & _ & Hl).
  unfold logs. rewrite Hl, records_of_app. unfold records_of at 2.
  cbn [filter cpath]. now rewrite String.eqb_refl.
Qed.

Lemma logs_overrideField m q v :
  get_path q (Some m) = Some v -> rel (logs q (Some v)) (overrideField m q).
Proof.
  intros Hm st st' H. apply overrideField_inv in H as [[E _]|(x & E & H)].
  - congruence.
  - assert (x = v) by congruence. subst. eapply logs_applyOverride; eauto.
Qed.

Lemma logs_overrideFieldUnlessEmpty m q v :
  get_path q (Some m) = Some v -> v <> JStr "" ->
  rel (logs q (Some v)) (overrideFieldUnlessEmpty m q).
Proof.
  intros Hm Hv st st' H.
  apply overrideFieldUnlessEmpty_inv in H as [[[E|E] _]|(x & E & _ & H)];
    try congruence.
  assert (x = v) by congruence. subst. eapply logs_applyOverride; eauto.
Qed.

Lemma logs_whenDefined m g body q v :
  prefix_of g q = true -> get_path q (Some m) <> None ->
  rel (logs q v) body -> rel (logs q v) (whenDefined m g body).
Proof.
  intros Hp Hm Hb st st' H. unfold whenDefined in H.
  destruct (readPath g (Some m)) as [x|] eqn:E; simpl in H; [|discriminate].
  apply readPath_get in E.
  assert (Hg : get_path g (Some m) <> None) by (eapply prefix_defined; eauto).
  destruct x; [|congruence]. simpl in H. auto.
Qed.

Lemma logs_replacePipeline m :
  rel (logs ["pipeline"] (get_path ["pipeline"] (Some m))) (replacePipeline m).
Proof.
  intros st st' H. apply replacePipeline_record in H as (_ & _ & Hl).
  unfold logs. rewrite Hl, records_of_app. reflexivity.
Qed.

Ltac silent_all :=
  first
    [ apply rel_seq; [apply silent_trans | silent_all | silent_all]
    | apply rel_whenDefined; [apply silent_refl | intros _; silent_all]
    | apply rel_whenGuardrails; [apply silent_refl | intros _; silent_all]
    | apply silent_overrideField; reflexivity
    | apply silent_overrideFieldUnlessEmpty; reflexivity
    | apply silent_ensureGroup
    | apply silent_replacePipeline; reflexivity ].

Ltac quiet_all :=
  first
    [ apply rel_seq; [apply quiet_trans | quiet_all | quiet_all]
    | apply rel_whenDefined; [apply quiet_refl | intros _; quiet_all]
    | apply rel_whenGuardrails; [apply quiet_refl | intros _; quiet_all]
    | apply quiet_overrideField; reflexivity
    | apply quiet_overrideFieldUnlessEmpty; reflexivity
    | apply quiet_ensureGroup; reflexivity
    | apply quiet_ensureGroup_inside; [discriminate | reflexivity]
    | apply quiet_replacePipeline; reflexivity ].

Ltac logs_here :=
  first
    [ apply logs_overrideField; assumption
    | apply logs_overrideFieldUnlessEmpty; [assumption | auto]
    | apply logs_replacePipeline ].

Ltac logs_find :=
  first
    [ logs_here
    | eapply rel_seq2; [apply logs_then_silent | logs_find | silent_all]
    | eapply rel_seq2; [apply quiet_then_logs | quiet_all | logs_find]
    | apply logs_whenDefined; [reflexivity | congruence | logs_find] ].

Lemma field_record m q v :
  In q override_paths ->
  mem_path q guardrails_fields = false ->
  get_path q (Some m) = Some v ->
  (q = ["logArchiveBucketName"] -> v <> JStr "") ->
  rel (logs q (Some v)) (overrideStatements m).
Proof.
  intros Hin Hg Hm Hv. unfold override_paths, scalar_paths, list_paths in Hin.
  simpl in Hin.
  repeat (destruct Hin as [<- | Hin];
          [first [discriminate Hg | unfold overrideStatements; logs_find]|]).
  contradiction.
Qed.

Lemma pipeline_record m :
  get_path ["pipeline"] (Some m) <> None ->
  rel (logs ["pipeline"] (get_path ["pipeline"] (Some m))) (overrideStatements m).
Proof. intros Hm. unfold overrideStatements. logs_find. Qed.

(** X18: the log holds exactly one record for a field that the manifest
    overrides: it shows the value of the base as the old value and the
    value of the manifest as the new one.  (The three fields of the
    guardrails group are left out: when the group is created their old
    value is the default.)  Likewise for the pipeline group. *)
Theorem change_record_contents base m st :
  applyManifestOverrides base m = Ok st ->
  (forall q v,
     In q override_paths ->
     mem_path q guardrails_fields = false ->
     get_path q (Some m) = Some v ->
     (q = ["logArchiveBucketName"] -> v <> JStr "") ->
     records_of (dotted q) (overrides st)
     = [{| cpath := dotted q; oldValue := get_path q (Some base);
           newValue := Some v |}])
  /\ (get_path ["pipeline"] (Some m) <> None ->
      records_of "pipeline" (overrides st)
      = [{| cpath := "pipeline"; oldValue := get_path ["pipeline"] (Some base);
            newValue := get_path ["pipeline"] (Some m) |}]).
Proof.
  intros H. split.
  - intros q v Hin Hg Hm Hv.
    exact (field_record m q v Hin Hg Hm Hv _ _ H).
  - intros Hm. exact (pipeline_record m Hm _ _ H).
Qed.

(** ** The pipeline group of a validated manifest *)

Section ValidatedMerge.

Variable is_url : string -> bool.
Variable is_email : string -> bool.

Local Abbreviation zparse := (parse is_url is_email).
Local Abbreviation zfields := (parse_fields is_url is_email).
Local Abbreviation validate := (safeParse is_url is_email DeploymentManifestSchema).

Lemma object_literal_props (fs : list (string * parsed)) :
  merged_props fs
  = object_literal (map (fun kr => (fst kr, pvalue (snd kr))) fs).
Proof.
  induction fs as [|[k r] fs IH]; simpl; [reflexivity|].
  destruct (pvalue r); now rewrite IH.
Qed.

Lemma parse_refine s chk message rp p d :
  zparse (ZRefine s chk message rp) p d
  = match pstatus (zparse s p d) with
    | aborted => INVALID (pissues (zparse s p d))
    | _ =>
        if chk (pvalue (zparse s p d)) then zparse s p d
        else {| pstatus := dirty; pvalue := pvalue (zparse s p d);
                pissues := pissues (zparse s p d)
                           ++ [mkIssue custom (p ++ rp) (Some message)] |}
    end.
Proof. reflexivity. Qed.

Lemma refine_fixed s chk message rp p v v' :
  zparse (ZRefine s chk message rp) p v = OK v' -> zparse s p v = OK v'.
Proof.
  intros H.
  assert (Hv : pstatus (zparse (ZRefine s chk message rp) p v) = valid)
    by now rewrite H.
  apply refine_valid_inv in Hv as [Hi Hc].
  rewrite parse_refine, Hi, Hc in H. exact H.
Qed.

Lemma object_fixed sh p o :
  distinct_keys (ZObject sh) = true ->
  zparse (ZObject sh) p (Some (JObj o)) = OK (Some (JObj o)) ->
  (forall k fs, In (k, fs) sh ->
     zparse fs (p ++ [PKey k]) (assoc k o) = OK (assoc k o))
  /\ o = object_literal (map (fun ks => (fst ks, assoc (fst ks) o)) sh).
Proof.
  intros Hk H.
  assert (Hv : pstatus (zparse (ZObject sh) p (Some (JObj o))) = valid)
    by now rewrite H.
  assert (Hna : pstatus (zparse (ZObject sh) p (Some (JObj o))) <> aborted)
    by congruence.
  pose proof (object_value is_url is_email sh p o Hna) as Eo.
  rewrite H in Eo. cbn [pvalue OK] in Eo. injection Eo as Eo'.
  assert (Hf : forall k fs, In (k, fs) sh ->
             zparse fs (p ++ [PKey k]) (assoc k o) = OK (assoc k o)).
  { intros k fs Hin.
    pose proof (object_field_valid is_url is_email k fs sh p o Hin Hv) as Hs.
    pose proof (parse_valid_no_issue is_url is_email _ _ _ Hs) as Hi.
    pose proof (merged_props_assoc is_url is_email k sh p o Hk) as Ha.
    rewrite (In_shape_lookup k fs sh Hk Hin), <- Eo' in Ha.
    clear - Hs Hi Ha.
    destruct (zparse fs (p ++ [PKey k]) (assoc k o)) as [s v iss].
    cbn [pstatus pvalue pissues] in *. unfold OK. congruence. }
  split; [exact Hf|].
  etransitivity; [exact Eo'|].
  rewrite object_literal_props. unfold parse_fields. rewrite map_map.
  f_equal. apply map_ext_in. intros [k fs] Hin. cbn [fst snd].
  now rewrite (Hf k fs Hin).
Qed.

Lemma assoc_put_noop k v o : assoc k o = Some v -> assoc_put k v o = o.
Proof.
  induction o as [|[k' v'] o IH]; simpl; [discriminate|].
  destruct (String.eqb k k') eqn:E.
  - apply String.eqb_eq in E. subst. intros H. inversion H. reflexivity.
  - intros H. now rewrite IH.
Qed.

Lemma assignPath_noop q : forall x c,
  q <> [] -> get_path q (Some c) = Some x -> assignPath q x (Some c) = Ok c.
Proof.
  induction q as [|k q IH]; intros x c Hq H; [congruence|].
  destruct c as [| | | | |o]; try discriminate. cbn [get_path] in H.
  destruct q as [|k2 q].
  - cbn [get_path] in H. cbn [assignPath setProp]. now rewrite assoc_put_noop.
  - rewrite assignPath_cons2. cbn [getProp bind].
    destruct (assoc k o) as [child|] eqn:Ec; [|discriminate].
    rewrite (IH x child ltac:(discriminate) H). cbn [bind setProp].
    now rewrite assoc_put_noop.
Qed.

(** On a validated manifest, the object that [replacePipeline] builds is
    the pipeline group of the manifest itself. *)
Lemma replacePipeline_exact d m st st' :
  validate d = Success (Some m) ->
  replacePipeline m st = Ok st' ->
  exists o pl,
    config st = JObj o
    /\ get_path ["pipeline"] (Some m) = Some pl
    /\ config st' = JObj (assoc_put "pipeline" pl o).
Proof.
  intros Hv H.
  pose proof (replacePipeline_record m st st' H) as (Hd & _).
  destruct (get_path ["pipeline"] (Some m)) as [pl|] eqn:Epl; [clear Hd|congruence].
  assert (Hd : get_path ["pipeline"] (Some m) <> None) by congruence.
  pose proof (manifest_node is_url is_email d m ["pipeline"] _ Hv eq_refl Hd)
    as Hn.
  rewrite Epl in Hn. rewrite parse_optional_some in Hn.
  assert (Hs : pstatus (zparse PipelineConfigSchema (keys ["pipeline"]) (Some pl))
               = valid) by now rewrite Hn.
  pose proof (valid_document_object is_url is_email _ _ _ Hs) as Ho.
  destruct pl as [| | | | |po]; try discriminate. clear Hs Ho.
  unfold PipelineConfigSchema in Hn.
  match type of Hn with
  | zparse (ZObject ?sh) ?p _ = _ =>
      destruct (object_fixed sh p po eq_refl Hn) as [Hf Epo]
  end.
  (* the codecommit group *)
  pose proof (Hf "codecommit" _ ltac:(right; left; reflexivity)) as Hc.
  apply refine_fixed in Hc. apply refine_fixed in Hc.
  assert (Hs : pstatus (zparse (ZObject PipelineCodeCommitShape)
                          (keys ["pipeline"] ++ [PKey "codecommit"])
                          (assoc "codecommit" po)) = valid) by now rewrite Hc.
  pose proof (valid_document_object is_url is_email _ _ _ Hs) as Ho.
  destruct (assoc "codecommit" po) as [[| | | | |co]|] eqn:Ecc; try discriminate.
  clear Hs Ho.
  destruct (object_fixed PipelineCodeCommitShape _ co eq_refl Hc) as [_ Eco].
  (* the approval flag *)
  pose proof (Hf "requireApproval" _
                ltac:(right; right; right; left; reflexivity)) as Ha.
  assert (Era : exists b, assoc "requireApproval" po = Some (JBool b)).
  { destruct (assoc "requireApproval" po) as [x|]; [|discriminate Ha].
    rewrite parse_default_some, parse_optional_some in Ha.
    assert (Hs : pstatus (zparse ZBoolean
                            (keys ["pipeline"] ++ [PKey "requireApproval"])
                            (Some x)) = valid) by now rewrite Ha.
    apply boolean_valid_inv in Hs as (b & Eb & _). exists b. exact Eb. }
  destruct Era as (b & Era).
  clear Hf Hn Hc Ha.
  cbn [map fst snd PipelineConfigSchema PipelineCodeCommitShape] in Epo, Eco.
  (* the statement itself *)
  destruct (replacePipeline_inv m st st' H) as (_ & pl0 & old & new & Ha & _).
  apply assignPath_inv in Ha as (o & Ec & _).
  unfold cfg in Ec. injection Ec as Ec.
  destruct m as [| | | | |mo]; try discriminate. cbn [get_path] in Epl.
  unfold replacePipeline in H. rewrite Ec in H. cbn [getProp] in H.
  rewrite Epl in H.
  cbn [bind getProp] in H. rewrite Ecc in H. cbn [bind getProp] in H.
  rewrite Era in H. cbn [nullish_or] in H.
  rewrite <- Era in H. rewrite <- Eco in H. rewrite <- Ecc in H.
  rewrite <- Epo in H.
  cbn [logOverride config overrides overrideCount setProp bind] in H.
  rewrite Ec in H. cbn [setProp bind] in H.
  inversion H; subst. cbn [config].
  exists o, (JObj po). auto.
Qed.

Lemma pipeline_from_replacePipeline d m :
  validate d = Success (Some m) -> rel (pipeline_from m) (replacePipeline m).
Proof.
  intros Hv st st' H.
  destruct (replacePipeline_exact d m st st' Hv H) as (o & pl & _ & Epl & Ec).
  unfold pipeline_from, cfg. rewrite Ec, Epl. cbn [get_path].
  now rewrite assoc_put_same.
Qed.

Lemma pipeline_from_last m a b c : True -> pipeline_from m b c -> pipeline_from m a c.
Proof. intros _ H. exact H. Qed.

Lemma pipeline_from_whenDefined m body :
  get_path ["pipeline"] (Some m) <> None ->
  rel (pipeline_from m) body ->
  rel (pipeline_from m) (whenDefined m ["pipeline"] body).
Proof.
  intros Hm Hb st st' H. unfold whenDefined in H.
  destruct (readPath ["pipeline"] (Some m)) as [x|] eqn:E; simpl in H;
    [|discriminate].
  apply readPath_get in E. destruct x; [|congruence]. simpl in H. auto.
Qed.

Ltac last_statement :=
  first
    [ eapply rel_seq2; [apply pipeline_from_last | apply rel_any | last_statement]
    | apply pipeline_from_whenDefined;
      [assumption | eapply pipeline_from_replacePipeline; eassumption] ].

Lemma merged_pipeline d m :
  validate d = Success (Some m) ->
  get_path ["pipeline"] (Some m) <> None ->
  rel (pipeline_from m) (overrideStatements m).
Proof. intros Hv Hm. unfold overrideStatements. last_statement. Qed.

(** X19: the pipeline group of the resolved configuration is the pipeline group
    of the validated manifest, defaults included, whatever the base held:
    nothing of a base pipeline group survives. *)
Theorem pipeline_group_from_manifest base d m :
  SystemConfig_shape base = true ->
  validate d = Success (Some m) ->
  get_path ["pipeline"] (Some m) <> None ->
  exists st, applyManifestOverrides base m = Ok st
    /\ get_path ["pipeline"] (cfg st) = get_path ["pipeline"] (Some m).
Proof.
  intros Hb Hv Hm.
  destruct (merge_completes is_url is_email base d m Hb Hv) as (st & Hst & _).
  exists st. split; [exact Hst|].
  exact (merged_pipeline d m Hv Hm _ _ Hst).
Qed.

(** ** Merging twice *)

Lemma fixes_refl c a : fixes c a a.
Proof. intros H. auto. Qed.

Lemma fixes_trans c a b d' : fixes c a b -> fixes c b d' -> fixes c a d'.
Proof.
  intros H1 H2 Ha. destruct (H1 Ha) as [Hb Hl]. destruct (H2 Hb) as [Hd Hl'].
  auto.
Qed.

Lemma fixes_applyOverride c q x :
  q <> [] -> get_path q (Some c) = Some x -> rel (fixes c) (applyOverride q x).
Proof.
  intros Hq Hc st st' H Hs. apply applyOverride_record in H as (Ha & _ & Hl).
  unfold cfg in Ha, Hl. rewrite Hs in Ha, Hl.
  rewrite (assignPath_noop q x c Hq Hc) in Ha. injection Ha as Ha. split; [auto|].
  intros Hn. rewrite Hl. apply Forall_app. split; [exact Hn|].
  constructor; [|constructor]. unfold noop. cbn [oldValue newValue]. exact Hc.
Qed.

Lemma fixes_overrideField m c q :
  q <> [] ->
  (forall v, get_path q (Some m) = Some v -> get_path q (Some c) = Some v) ->
  rel (fixes c) (overrideField m q).
Proof.
  intros Hq Hc st st' H. apply overrideField_inv in H as [[_ ->]|(x & Hx & H)].
  - apply fixes_refl.
  - eapply fixes_applyOverride; eauto.
Qed.

Lemma fixes_overrideFieldUnlessEmpty m c q :
  q <> [] ->
  (forall v, get_path q (Some m) = Some v -> v <> JStr "" ->
             get_path q (Some c) = Some v) ->
  rel (fixes c) (overrideFieldUnlessEmpty m q).
Proof.
  intros Hq Hc st st' H.
  apply overrideFieldUnlessEmpty_inv in H as [[_ ->]|(x & Hx & He & H)].
  - apply fixes_refl.
  - eapply fixes_applyOverride; eauto. apply Hc; [exact Hx|].
    intros ->. discriminate.
Qed.

Lemma fixes_ensureGroup c g init :
  truthy (get_path g (Some c)) = true -> rel (fixes c) (ensureGroup g init).
Proof.
  intros Ht st st' H Hs. apply ensureGroup_inv in H as (_ & _ & [[_ ->]|[Hf _]]).
  - auto.
  - unfold cfg in Hf. rewrite Hs in Hf. congruence.
Qed.

Lemma fixes_replacePipeline d m c :
  validate d = Success (Some m) ->
  get_path ["pipeline"] (Some c) = get_path ["pipeline"] (Some m) ->
  rel (fixes c) (replacePipeline m).
Proof.
  intros Hv Hc st st' H Hs.
  destruct (replacePipeline_exact d m st st' Hv H) as (o & pl & Eo & Epl & Ec).
  apply replacePipeline_record in H as (_ & _ & Hl).
  assert (Eco : c = JObj o) by congruence.
  rewrite Epl, Eco in Hc. cbn [get_path] in Hc.
  rewrite (assoc_put_noop _ _ _ Hc) in Ec. split; [congruence|].
  intros Hn. rewrite Hl. apply Forall_app. split; [exact Hn|].
  constructor; [|constructor]. unfold noop, cfg. cbn [oldValue newValue].
  rewrite Eo, Epl. cbn [get_path]. exact Hc.
Qed.

Ltac fix_all Hv HF :=
  first
    [ apply rel_seq; [apply fixes_trans | fix_all Hv HF | fix_all Hv HF]
    | apply rel_whenDefined; [apply fixes_refl | intros ?; fix_all Hv HF]
    | apply rel_whenGuardrails; [apply fixes_refl | intros ?; fix_all Hv HF]
    | apply fixes_overrideField;
      [ discriminate
      | let v := fresh "v" in let Hm := fresh "Hm" in
        intros v Hm;
        match goal with
        | |- get_path ?q _ = _ => apply (HF q eq_refl v Hm); discriminate
        end ]
    | apply fixes_overrideFieldUnlessEmpty;
      [ discriminate
      | let v := fresh "v" in let Hm := fresh "Hm" in let Hn := fresh "Hn" in
        intros v Hm Hn;
        match goal with
        | |- get_path ?q _ = _ => apply (HF q eq_refl v Hm); intros _; exact Hn
        end ]
    | apply fixes_ensureGroup; auto
    | eapply fixes_replacePipeline; [exact Hv | auto] ].

(** X20: merging the same validated manifest into the resolved configuration
    changes nothing: the second merge returns the configuration it was
    given, and each of its records shows the same old and new value. *)
Theorem merge_idempotent base d m :
  SystemConfig_shape base = true ->
  validate d = Success (Some m) ->
  exists st st2,
    applyManifestOverrides base m = Ok st
    /\ applyManifestOverrides (config st) m = Ok st2
    /\ config st2 = config st
    /\ Forall noop (overrides st2).
Proof.
  intros Hb Hv.
  destruct (merge_completes is_url is_email base d m Hb Hv) as (st & Hst & Hs).
  destruct (merge_completes is_url is_email (config st) d m Hs Hv)
    as (st2 & Hst2 & _).
  exists st, st2. split; [exact Hst|]. split; [exact Hst2|].
  assert (HF : forall q, mem_path q override_paths = true ->
             forall v, get_path q (Some m) = Some v ->
                       (q = ["logArchiveBucketName"] -> v <> JStr "") ->
                       get_path q (Some (config st)) = Some v).
  { intros q Hq v Hm Hne. apply mem_path_In in Hq.
    exact (proj1 (override_effect m q v Hq Hm Hne _ _ Hst)). }
  assert (Hvpc : get_path ["vpc"] (Some m) <> None ->
                 truthy (get_path ["vpc"] (Some (config st))) = true).
  { intros Hm. exact (created_groups m ["vpc"] ltac:(simpl; tauto) Hm _ _ Hst). }
  assert (Hcf : get_path ["cognitoFederation"] (Some m) <> None ->
                truthy (get_path ["cognitoFederation"] (Some (config st))) = true).
  { intros Hm.
    exact (created_groups m ["cognitoFederation"] ltac:(simpl; tauto) Hm _ _ Hst). }
  assert (Hsaml : get_path ["cognitoFederation"; "customSAML"] (Some m) <> None ->
                  truthy (get_path ["cognitoFederation"; "customSAML"]
                                   (Some (config st))) = true).
  { intros Hm.
    exact (created_groups m ["cognitoFederation"; "customSAML"]
             ltac:(simpl; tauto) Hm _ _ Hst). }
  assert (Hoidc : get_path ["cognitoFederation"; "customOIDC"] (Some m) <> None ->
                  truthy (get_path ["cognitoFederation"; "customOIDC"]
                                   (Some (config st))) = true).
  { intros Hm.
    exact (created_groups m ["cognitoFederation"; "customOIDC"]
             ltac:(simpl; tauto) Hm _ _ Hst). }
  assert (Hbr : get_path guardrails_group (Some m) <> None ->
                truthy (get_path ["bedrock"] (Some (config st))) = true).
  { intros Hm.
    exact (created_guardrails m ["bedrock"] ltac:(simpl; tauto) Hm _ _ Hst). }
  assert (Hgr : get_path guardrails_group (Some m) <> None ->
                truthy (get_path ["bedrock"; "guardrails"] (Some (config st)))
                = true).
  { intros Hm.
    exact (created_guardrails m guardrails_group ltac:(simpl; tauto) Hm _ _ Hst). }
  assert (Hpl : get_path ["pipeline"] (Some m) <> None ->
                get_path ["pipeline"] (Some (config st))
                = get_path ["pipeline"] (Some m)).
  { intros Hm. exact (merged_pipeline d m Hv Hm _ _ Hst). }
  assert (Hr : rel (fixes (config st)) (overrideStatements m)).
  { unfold guardrails_group in *. unfold overrideStatements. fix_all Hv HF. }
  destruct (Hr _ _ Hst2 eq_refl) as [Hc Hl]. split; [exact Hc|].
  apply Hl. constructor.
Qed.

End ValidatedMerge.

(** ** A base configuration without a [rag] group *)

Lemma readPath_without_rag k r c :
  get_path ["rag"] (Some c) = None -> readPath ("rag" :: k :: r) (Some c) = TypeError.
Proof.
  intros H. cbn [readPath]. destruct c as [| | | | |o]; try reflexivity.
  cbn [get_path] in H. cbn [getProp bind]. rewrite H. reflexivity.
Qed.

Lemma throws_seq_left s1 s2 :
  throws_without_rag s1 -> throws_without_rag (s1 >> s2).
Proof. intros H st Hs. unfold seq. now rewrite (H st Hs). Qed.

Lemma throws_seq_right s1 s2 :
  rel rag_stays_absent s1 -> throws_without_rag s2 ->
  throws_without_rag (s1 >> s2).
Proof.
  intros H1 H2 st Hs. unfold seq.
  destruct (s1 st) as [st1|] eqn:E; [|reflexivity]. cbn [bind].
  apply H2. exact (H1 _ _ E Hs).
Qed.

Lemma throws_whenDefined m g body :
  get_path g (Some m) <> None ->
  throws_without_rag body -> throws_without_rag (whenDefined m g body).
Proof.
  intros Hm Hb st Hs. unfold whenDefined.
  destruct (readPath g (Some m)) as [v|] eqn:E; [|reflexivity].
  apply readPath_get in E. cbn [bind]. destruct v; [|congruence].
  cbn [defined]. now apply Hb.
Qed.

Lemma throws_overrideField m k r :
  get_path ("rag" :: k :: r) (Some m) <> None ->
  throws_without_rag (overrideField m ("rag" :: k :: r)).
Proof.
  intros Hm st Hs. unfold overrideField.
  destruct (readPath ("rag" :: k :: r) (Some m)) as [v|] eqn:E; [|reflexivity].
  apply readPath_get in E. cbn [bind]. destruct v; [|congruence].
  unfold applyOverride. unfold cfg in Hs.
  now rewrite (readPath_without_rag k r _ Hs).
Qed.

Lemma absent_of_quiet s : rel (quiet ["rag"]) s -> rel rag_stays_absent s.
Proof. intros H st st' Hs Ha. destruct (H _ _ Hs) as [E _]. congruence. Qed.

Lemma absent_overrideField m k r :
  rel rag_stays_absent (overrideField m ("rag" :: k :: r)).
Proof.
  intros st st' H Ha. apply overrideField_inv in H as [[_ ->]|(x & _ & H)];
    [exact Ha|].
  exfalso. unfold applyOverride in H. unfold cfg in Ha.
  rewrite (readPath_without_rag k r _ Ha) in H. discriminate.
Qed.

Lemma rag_stays_absent_refl a : rag_stays_absent a a.
Proof. intros H. exact H. Qed.

Lemma rag_stays_absent_trans a b c :
  rag_stays_absent a b -> rag_stays_absent b c -> rag_stays_absent a c.
Proof. unfold rag_stays_absent. auto. Qed.

Ltac absent_all :=
  first
    [ apply rel_seq; [apply rag_stays_absent_trans | absent_all | absent_all]
    | apply rel_whenDefined;
      [apply rag_stays_absent_refl | intros _; absent_all]
    | apply rel_whenGuardrails;
      [apply rag_stays_absent_refl | intros _; absent_all]
    | apply absent_overrideField
    | apply absent_of_quiet; quiet_all ].

Ltac throw_find :=
  first
    [ apply throws_overrideField; congruence
    | apply throws_seq_left; throw_find
    | apply throws_seq_right; [absent_all | throw_find]
    | apply throws_whenDefined;
      [ eapply prefix_defined; [|eassumption]; reflexivity | throw_find ] ].

(** X21: the merge does not create the [rag] group: on a base configuration
    without one, a manifest that gives any field of the group makes
    [applyManifestOverrides] throw. *)
Theorem rag_group_required base m q :
  get_path ["rag"] (Some base) = None ->
  In q rag_paths ->
  get_path q (Some m) <> None ->
  applyManifestOverrides base m = TypeError.
Proof.
  intros Hb Hin Hm.
  assert (Ht : throws_without_rag (overrideStatements m)).
  { unfold rag_paths in Hin. cbn in Hin.
    repeat (destruct Hin as [<- | Hin];
            [unfold overrideStatements; throw_find|]).
    contradiction. }
  apply Ht. exact Hb.
Qed.

(** ** A guardrails group created by the merge *)

Lemma stays_missing_refl g a : stays_missing g a a.
Proof. intros H. exact H. Qed.

Lemma stays_missing_trans g a b c :
  stays_missing g a b -> stays_missing g b c -> stays_missing g a c.
Proof. unfold stays_missing. auto. Qed.

Lemma missing_of_quiet g s : rel (quiet g) s -> rel (stays_missing g) s.
Proof. intros H st st' Hs Ha. destruct (H _ _ Hs) as [E _]. congruence. Qed.

Lemma missing_then_defaulted g q v a b c :
  stays_missing g a b -> defaulted g q v b c -> defaulted g q v a c.
Proof. unfold stays_missing, defaulted. auto. Qed.

Lemma defaulted_then_keeps g q v a b c :
  defaulted g q v a b -> keeps q v b c -> defaulted g q v a c.
Proof. unfold defaulted. intros H1 [H2 _] Ha. auto. Qed.

Lemma defaulted_ensureGroup g r init v :
  g <> [] -> get_path r (Some init) = Some v ->
  rel (defaulted g (g ++ r) v) (ensureGroup g init).
Proof.
  intros Hg Hr st st' H Hf.
  apply ensureGroup_inv in H as (_ & _ & [[Ht _]|[_ Ha]]); [congruence|].
  rewrite get_path_app. unfold cfg. now rewrite (assignPath_same g _ _ _ Hg Ha).
Qed.

Lemma defaulted_whenGuardrails m body g q v :
  get_path guardrails_group (Some m) <> None ->
  rel (defaulted g q v) body -> rel (defaulted g q v) (whenGuardrails m body).
Proof.
  intros Hm Hb st st' H. unfold whenGuardrails in H.
  destruct (getProp (Some m) "bedrock") as [b|] eqn:E1; simpl in H; [|discriminate].
  destruct (optionalProp b "guardrails") as [x|] eqn:E2; simpl in H; [|discriminate].
  pose proof (guardrails_guard _ _ _ E1 E2) as Hg.
  unfold guardrails_group in Hm. destruct x; [|congruence]. simpl in H. auto.
Qed.

Lemma keeps_omitted m q v :
  get_path q (Some m) = None -> rel (keeps q v) (overrideField m q).
Proof.
  intros Hm st st' H. apply overrideField_inv in H as [[_ ->]|(x & E & _)].
  - apply keeps_refl.
  - congruence.
Qed.

Ltac keep_all' :=
  first
    [ apply rel_seq; [apply keeps_trans | keep_all' | keep_all']
    | apply rel_whenDefined; [apply keeps_refl | intros _; keep_all']
    | apply rel_whenGuardrails; [apply keeps_refl | intros _; keep_all']
    | apply keeps_omitted; assumption
    | keep_step ].

Ltac missing_all :=
  first
    [ apply rel_seq; [apply stays_missing_trans | missing_all | missing_all]
    | apply rel_whenDefined; [apply stays_missing_refl | intros _; missing_all]
    | apply missing_of_quiet; quiet_all ].

Ltac default_find :=
  first
    [ apply (defaulted_ensureGroup guardrails_group); [discriminate | reflexivity]
    | eapply rel_seq2; [apply defaulted_then_keeps | default_find | keep_all']
    | eapply rel_seq2; [apply missing_then_defaulted | missing_all | default_find]
    | apply defaulted_whenGuardrails; [assumption | default_find] ].

Lemma guardrails_default m k v :
  get_path guardrails_group (Some m) <> None ->
  get_path (guardrails_group ++ [k]) (Some m) = None ->
  get_path [k] (Some guardrailsDefaults) = Some v ->
  rel (defaulted guardrails_group (guardrails_group ++ [k]) v)
      (overrideStatements m).
Proof.
  intros Hg Hm Hd.
  assert (Hk : In (k, v) [("enabled", JBool false); ("identifier", JStr "");
                          ("version", JStr "")]).
  { cbn [get_path guardrailsDefaults assoc] in Hd.
    destruct (String.eqb k "enabled") eqn:E1;
      [apply String.eqb_eq in E1; inversion Hd; subst; simpl; tauto|].
    destruct (String.eqb k "identifier") eqn:E2;
      [apply String.eqb_eq in E2; inversion Hd; subst; simpl; tauto|].
    destruct (String.eqb k "version") eqn:E3;
      [apply String.eqb_eq in E3; inversion Hd; subst; simpl; tauto|].
    discriminate. }
  clear Hd. simpl in Hk. unfold guardrails_group in *. cbn [app] in *.
  repeat (destruct Hk as [Hk | Hk];
          [inversion Hk; subst; unfold overrideStatements; default_find|]).
  contradiction.
Qed.

Section GuardrailsDefaults.

Variable is_url : string -> bool.
Variable is_email : string -> bool.

Local Abbreviation validate := (safeParse is_url is_email DeploymentManifestSchema).

(** X22: when the manifest has a guardrails group and the base configuration has
    none, the group is created whole: each of [enabled], [identifier] and
    [version] resolves to the value of the manifest, or to its default
    [false], [""], [""] where the manifest omits it. *)
Theorem guardrails_created_with_defaults base d m :
  SystemConfig_shape base = true ->
  validate d = Success (Some m) ->
  get_path guardrails_group (Some m) <> None ->
  truthy (get_path guardrails_group (Some base)) = false ->
  exists st, applyManifestOverrides base m = Ok st /\
    forall k v,
      get_path [k] (Some guardrailsDefaults) = Some v ->
      get_path (guardrails_group ++ [k]) (cfg st)
      = Some match get_path (guardrails_group ++ [k]) (Some m) with
             | Some x => x
             | None => v
             end.
Proof.
  intros Hb Hv Hg Hf.
  destruct (merge_completes is_url is_email base d m Hb Hv) as (st & Hst & _).
  exists st. split; [exact Hst|]. intros k v Hd.
  destruct (get_path (guardrails_group ++ [k]) (Some m)) as [x|] eqn:Em.
  - assert (Hin : In (guardrails_group ++ [k]) override_paths).
    { cbn [get_path guardrailsDefaults assoc] in Hd.
      destruct (String.eqb k "enabled") eqn:E1;
        [apply String.eqb_eq in E1; subst; simpl; tauto|].
      destruct (String.eqb k "identifier") eqn:E2;
        [apply String.eqb_eq in E2; subst; simpl; tauto|].
      destruct (String.eqb k "version") eqn:E3;
        [apply String.eqb_eq in E3; subst; simpl; tauto|].
      discriminate. }
    refine (proj1 (override_effect m _ x Hin Em _ _ _ Hst)).
    intros E. exfalso. unfold guardrails_group in E. discriminate E.
  - exact (guardrails_default m k v Hg Em Hd _ _ Hst Hf).
Qed.

End GuardrailsDefaults.

(* ================================================================= *)
(** * The stack that the application deploys *)

Section Application.

Variable is_url : string -> bool.
Variable is_email : string -> bool.

Local Abbreviation validate := (safeParse is_url is_email DeploymentManifestSchema).

Lemma optionalProp_get v k :
  optionalProp v k = Ok (get_path [k] v).
Proof. destruct v as [[]|]; reflexivity. Qed.

Lemma getProp_object o k : getProp (Some (JObj o)) k = Ok (get_path [k] (Some (JObj o))).
Proof. reflexivity. Qed.

Lemma shaped_object c : SystemConfig_shape c = true -> exists o, c = JObj o.
Proof.
  intros H. unfold SystemConfig_shape in H.
  pose proof (groups_ok_object _ [] c H eq_refl) as Ho. cbn [get_path] in Ho.
  destruct c; try discriminate. eauto.
Qed.

(** What [deployStack] does on an object, in terms of paths. *)
Lemma deployStack_object o env :
  deployStack (JObj o) env
  = Ok (if truthy (get_path ["pipeline"; "enabled"] (Some (JObj o)))
           && negb (isPipelineDeployStep env)
        then PipelineStack
               {| interpolated := get_path ["prefix"] (Some (JObj o));
                  suffix := "ChatBotPipelineStack" |}
        else AwsGenAILLMChatbotStack
               {| interpolated := get_path ["prefix"] (Some (JObj o));
                  suffix := "GenAIChatBotStack" |}
               (truthy (get_path ["vpc"; "vpcId"] (Some (JObj o)))
                || negb (truthy (get_path ["vpc"] (Some (JObj o)))))).
Proof.
  unfold deployStack. rewrite !getProp_object. cbn [bind].
  rewrite !optionalProp_get. cbn [bind].
  change (get_path ["enabled"] (get_path ["pipeline"] (Some (JObj o))))
    with (get_path (["pipeline"] ++ ["enabled"]) (Some (JObj o))).
  change (get_path ["vpcId"] (get_path ["vpc"] (Some (JObj o))))
    with (get_path (["vpc"] ++ ["vpcId"]) (Some (JObj o))).
  cbn [app].
  destruct (truthy (get_path ["pipeline"; "enabled"] (Some (JObj o)))
            && negb (isPipelineDeployStep env)); reflexivity.
Qed.

(** X23: with a pipeline group in the validated manifest, the manifest alone
    decides what is deployed: the pipeline stack when the group is enabled
    and the run is not the deploy step of the pipeline, the chatbot stack
    otherwise; the stack is named after the prefix of the manifest. *)
Theorem deployment_follows_manifest base d m env :
  SystemConfig_shape base = true ->
  validate d = Success (Some m) ->
  get_path ["pipeline"] (Some m) <> None ->
  exists st enabled,
    applyManifestOverrides base m = Ok st
    /\ get_path ["pipeline"; "enabled"] (Some m) = Some (JBool enabled)
    /\ ((enabled && negb (isPipelineDeployStep env) = true
         /\ deployStack (config st) env
            = Ok (PipelineStack
                    {| interpolated := get_path ["prefix"] (Some m);
                       suffix := "ChatBotPipelineStack" |}))
        \/ (enabled && negb (isPipelineDeployStep env) = false
            /\ exists aspect,
                 deployStack (config st) env
                 = Ok (AwsGenAILLMChatbotStack
                         {| interpolated := get_path ["prefix"] (Some m);
                            suffix := "GenAIChatBotStack" |} aspect))).
Proof.
  intros Hb Hv Hp.
  destruct (merge_completes is_url is_email base d m Hb Hv) as (st & Hst & Hs).
  destruct (shaped_object _ Hs) as (o & Eo).
  (* the pipeline group and the prefix of the result are the manifest's *)
  assert (Hpl : get_path ["pipeline"] (cfg st) = get_path ["pipeline"] (Some m)).
  { exact (merged_pipeline is_url is_email d m Hv Hp _ _ Hst). }
  destruct (manifest_prefix is_url is_email d m Hv) as (a & rest & _ & Hpm & _).
  pose proof (proj1 (override_effect m ["prefix"] _ ltac:(left; reflexivity)
                       Hpm ltac:(discriminate) _ _ Hst)) as Hpc.
  (* the flag is a boolean *)
  assert (He : get_path ["pipeline"; "enabled"] (Some m) <> None).
  { pose proof (manifest_node is_url is_email d m ["pipeline"] _ Hv eq_refl Hp)
      as Hn.
    destruct (get_path ["pipeline"] (Some m)) as [pl|] eqn:Epl; [|congruence].
    rewrite parse_optional_some in Hn.
    assert (Hsv : pstatus (parse is_url is_email PipelineConfigSchema
                             (keys ["pipeline"]) (Some pl)) = valid)
      by now rewrite Hn.
    pose proof (valid_document_object is_url is_email _ _ _ Hsv) as Ho.
    destruct pl as [| | | | |po]; try discriminate.
    unfold PipelineConfigSchema in Hsv.
    assert (Hf : pstatus (parse is_url is_email ZBoolean
                            (keys ["pipeline"] ++ [PKey "enabled"])
                            (assoc "enabled" po)) = valid).
    { match type of Hsv with
      | pstatus (parse _ _ (ZObject ?sh) ?p _) = _ =>
          apply (object_field_valid is_url is_email "enabled" ZBoolean sh p po);
            [left; reflexivity | exact Hsv]
      end. }
    apply boolean_valid_inv in Hf as (b & Eb & _).
    change ["pipeline"; "enabled"] with (["pipeline"] ++ ["enabled"]).
    rewrite get_path_app, Epl. cbn [get_path]. congruence. }
  destruct (get_path ["pipeline"; "enabled"] (Some m)) as [e|] eqn:Ee;
    [clear He|congruence].
  destruct (manifest_boolean is_url is_email d m ["pipeline"; "enabled"] _ e
              Hv eq_refl eq_refl Ee) as (enabled & ->).
  exists st, enabled. split; [exact Hst|]. split; [reflexivity|].
  unfold cfg in Hpl, Hpc. rewrite Eo in *. rewrite deployStack_object.
  change ["pipeline"; "enabled"] with (["pipeline"] ++ ["enabled"]).
  rewrite get_path_app, Hpl, <- get_path_app. cbn [app]. rewrite Ee, Hpc, Hpm.
  cbn [truthy].
  destruct (enabled && negb (isPipelineDeployStep env)); [left|right]; eauto.
Qed.

(** X24: the [LambdaVpcAspect] is added to the chatbot stack when the resolved
    configuration has no vpc group or has a [vpcId]: in terms of the base
    and of the validated manifest, when neither has a vpc group, or when
    the [vpcId] of the manifest, else that of the base, is truthy.  So a
    manifest that gives a vpc group without [vpcId] to a base without a vpc
    group switches the aspect off. *)
Theorem lambda_vpc_aspect_rule base d m st env id aspect :
  SystemConfig_shape base = true ->
  validate d = Success (Some m) ->
  applyManifestOverrides base m = Ok st ->
  deployStack (config st) env = Ok (AwsGenAILLMChatbotStack id aspect) ->
  aspect
  = (truthy match get_path ["vpc"; "vpcId"] (Some m) with
            | Some vpcId => Some vpcId
            | None => get_path ["vpc"; "vpcId"] (Some base)
            end
     || (negb (defined (get_path ["vpc"] (Some m)))
         && negb (defined (get_path ["vpc"] (Some base))))).
Proof.
  intros Hb Hv Hst Hd.
  destruct (merge_completes is_url is_email base d m Hb Hv) as (st0 & Hst0 & Hs).
  assert (st0 = st) by congruence. subst st0.
  destruct (shaped_object _ Hs) as (o & Eo).
  (* the vpcId of the result *)
  assert (Hid : get_path ["vpc"; "vpcId"] (cfg st)
                = match get_path ["vpc"; "vpcId"] (Some m) with
                  | Some vpcId => Some vpcId
                  | None => get_path ["vpc"; "vpcId"] (Some base)
                  end).
  { destruct (get_path ["vpc"; "vpcId"] (Some m)) as [v|] eqn:Em.
    - refine (proj1 (override_effect m ["vpc"; "vpcId"] v _ Em _ _ _ Hst)).
      + simpl. tauto.
      + discriminate.
    - refine (proj2 (overrideStatements_framed m ["vpc"; "vpcId"] Em eq_refl
                       _ _ _ Hst) _).
      + intros _. reflexivity.
      + right. right. reflexivity. }
  (* the vpc group of the result *)
  assert (Hg : truthy (get_path ["vpc"] (cfg st))
               = defined (get_path ["vpc"] (Some m))
                 || defined (get_path ["vpc"] (Some base))).
  { destruct (get_path ["vpc"] (Some m)) as [v|] eqn:Em.
    - cbn [defined orb].
      refine (created_groups m ["vpc"] _ _ _ _ Hst); [simpl; tauto|congruence].
    - cbn [defined orb].
      assert (Hf : get_path ["vpc"] (cfg st) = get_path ["vpc"] (Some base)).
      { refine (proj2 (overrideStatements_framed m ["vpc"] Em eq_refl
                         _ _ _ Hst) _).
        + intros _. reflexivity.
        + right. right. reflexivity. }
      rewrite Hf. unfold SystemConfig_shape in Hb.
      pose proof (groups_ok_optional _ ["vpc"] base Hb eq_refl) as Ha.
      destruct (get_path ["vpc"] (Some base)) as [[]|]; try discriminate Ha;
        reflexivity. }
  unfold cfg in Hid, Hg. rewrite Eo in *. rewrite deployStack_object in Hd.
  destruct (truthy (get_path ["pipeline"; "enabled"] (Some (JObj o)))
            && negb (isPipelineDeployStep env)); [discriminate Hd|].
  assert (Ha : aspect
               = truthy (get_path ["vpc"; "vpcId"] (Some (JObj o)))
                 || negb (truthy (get_path ["vpc"] (Some (JObj o)))))
    by (inversion Hd; reflexivity).
  rewrite Ha, Hid, Hg. now rewrite negb_orb.
Qed.

End Application.

(* ================================================================= *)
(** * The extended revision of the merge *)

Lemma extended_sound_refl m a : Extended.sound_kept m a a.
Proof. intros H. exact H. Qed.

Lemma extended_sound_trans m a b c :
  Extended.sound_kept m a b -> Extended.sound_kept m b c ->
  Extended.sound_kept m a c.
Proof. unfold Extended.sound_kept. auto. Qed.

Lemma extended_sound_overrideField m q :
  mem_path q Extended.override_paths = true ->
  mem_path q Extended.sentinel_paths = false ->
  rel (Extended.sound_kept m) (overrideField m q).
Proof.
  intros Hin Hq st st' H. apply overrideField_inv in H as [[_ ->]|(x & Hx & H)].
  - apply extended_sound_refl.
  - apply applyOverride_record in H as (_ & _ & Hl). intros Hs.
    rewrite Hl. apply Forall_app. split; [exact Hs|]. constructor; [|constructor].
    split; [discriminate|]. right. exists q. cbn [cpath newValue].
    apply mem_path_In in Hin. repeat split; auto; try congruence.
Qed.

Lemma extended_sound_overrideFieldUnlessEmpty m q :
  mem_path q Extended.override_paths = true ->
  rel (Extended.sound_kept m) (overrideFieldUnlessEmpty m q).
Proof.
  intros Hin st st' H.
  apply overrideFieldUnlessEmpty_inv in H as [[_ ->]|(x & Hx & He & H)].
  - apply extended_sound_refl.
  - apply applyOverride_record in H as (_ & _ & Hl). intros Hs.
    rewrite Hl. apply Forall_app. split; [exact Hs|]. constructor; [|constructor].
    split; [discriminate|]. right. exists q. cbn [cpath newValue].
    apply mem_path_In in Hin. repeat split; auto;
      try (intros _ E; inversion E; subst; discriminate).
Qed.

Lemma extended_sound_ensureGroup m g init :
  rel (Extended.sound_kept m) (ensureGroup g init).
Proof.
  intros st st' H Hs. apply ensureGroup_inv in H as (Hl & _). now rewrite Hl.
Qed.

Lemma extended_sound_replacePipeline m :
  rel (Extended.sound_kept m) (replacePipeline m).
Proof.
  intros st st' H Hs. apply replacePipeline_record in H as (Hd & _ & Hl).
  rewrite Hl. apply Forall_app. split; [exact Hs|]. constructor; [|constructor].
  split; [exact Hd|]. left. split; reflexivity.
Qed.

Ltac extended_sound_all :=
  first
    [ apply rel_seq;
      [apply extended_sound_trans | extended_sound_all | extended_sound_all]
    | apply rel_whenDefined;
      [apply extended_sound_refl | intros _; extended_sound_all]
    | apply extended_sound_overrideField; reflexivity
    | apply extended_sound_overrideFieldUnlessEmpty; reflexivity
    | apply extended_sound_ensureGroup
    | apply extended_sound_replacePipeline ].

Lemma extended_log_justified base m st :
  Extended.applyManifestOverrides base m = Ok st ->
  Forall (Extended.justified m) (overrides st).
Proof.
  intros H.
  assert (Hr : rel (Extended.sound_kept m) (Extended.overrideStatements m))
    by (unfold Extended.overrideStatements; extended_sound_all).
  apply (Hr _ _ H). constructor.
Qed.

Lemma extended_dotted_distinct :
  forallb (fun q =>
    negb (String.eqb (dotted q) "pipeline")
    && forallb (fun q' =>
         implb (String.eqb (dotted q') (dotted q)) (path_eqb q' q))
         Extended.override_paths)
    Extended.override_paths = true.
Proof. vm_compute. reflexivity. Qed.

(** X25: in the extended revision too, the counter of the summary line is
    the number of change records, whatever the base and the manifest. *)
Theorem extended_overrideCount_is_log_length base m st :
  Extended.applyManifestOverrides base m = Ok st ->
  overrideCount st = List.length (overrides st).
Proof.
  intros H.
  assert (Hr : rel count_kept (Extended.overrideStatements m))
    by (unfold Extended.overrideStatements; count_all).
  apply (Hr _ _ H). reflexivity.
Qed.

(** X26: in the extended revision, every change record names a field (or
    the pipeline group) that the manifest defines and carries the value of
    the manifest as its new value, never the empty string for one of the
    four fields where it stands for "absent"; and a field that the manifest
    omits gets no record. *)
Theorem extended_log_sound base m st :
  Extended.applyManifestOverrides base m = Ok st ->
  Forall (Extended.justified m) (overrides st)
  /\ (forall q, In q Extended.override_paths -> get_path q (Some m) = None ->
                records_for (dotted q) (overrides st) = 0).
Proof.
  intros H. pose proof (extended_log_justified base m st H) as Hj.
  split; [exact Hj|].
  rewrite Forall_forall in Hj.
  pose proof extended_dotted_distinct as Hd. rewrite forallb_forall in Hd.
  intros q Hq Hm. unfold records_for. rewrite filter_none; [reflexivity|].
  intros r Hr. destruct (String.eqb (cpath r) (dotted q)) eqn:E; [|reflexivity].
  exfalso. apply String.eqb_eq in E.
  destruct (Hj r Hr) as [Hn [[Hp _]|(q' & Hq' & Hc & Hv & _)]].
  - specialize (Hd q Hq). apply andb_prop in Hd as [Hd _].
    rewrite <- E, Hp in Hd. discriminate.
  - specialize (Hd q Hq). apply andb_prop in Hd as [_ Hd].
    rewrite forallb_forall in Hd. specialize (Hd q' Hq').
    rewrite <- Hc, E, String.eqb_refl in Hd. cbn [implb] in Hd.
    apply path_eqb_eq in Hd. subst. congruence.
Qed.

(** Creating an empty group leaves the fields below it undefined. *)
Lemma untouched_ensureGroup_inside q g :
  g <> [] -> extends q g = true -> rel (untouched q) (ensureGroup g (JObj [])).
Proof.
  intros Hg He st st' H. destruct (quiet_ensureGroup_inside q g Hg He st st' H)
    as [Hv _].
  split; [exact Hv|]. apply ensureGroup_inv in H as (Hl & _). now rewrite Hl.
Qed.

Ltac extended_untouched_all :=
  first
    [ apply rel_seq;
      [apply untouched_trans | extended_untouched_all | extended_untouched_all]
    | apply rel_whenDefined;
      [apply untouched_refl | intros _; extended_untouched_all]
    | apply untouched_sentinel; assumption
    | apply untouched_overrideField; reflexivity
    | apply untouched_overrideFieldUnlessEmpty; reflexivity
    | apply untouched_ensureGroup; reflexivity
    | apply untouched_ensureGroup_inside; [discriminate | reflexivity]
    | apply untouched_replacePipeline; reflexivity ].

(** X27: in the extended revision, the empty string stands for "absent" in
    four fields ([cloudfrontLogBucketArn], [logArchiveBucketName],
    [bedrock.roleArn], [llms.huggingfaceApiSecretArn]): when the manifest
    gives one of them as [""], the merge leaves the base value of the field
    and records nothing for it. *)
Theorem extended_empty_string_is_absent base m st q :
  Extended.applyManifestOverrides base m = Ok st ->
  In q Extended.sentinel_paths ->
  get_path q (Some m) = Some (JStr "") ->
  get_path q (cfg st) = get_path q (Some base)
  /\ records_for (dotted q) (overrides st) = 0.
Proof.
  intros H Hin Hm.
  assert (Hr : rel (untouched q) (Extended.overrideStatements m)).
  { simpl in Hin.
    repeat (destruct Hin as [<- | Hin];
            [unfold Extended.overrideStatements; extended_untouched_all|]).
    contradiction. }
  exact (Hr _ _ H).
Qed.

Ltac extended_set_find :=
  first
    [ set_here
    | eapply rel_seq2; [apply sets_then_keeps | extended_set_find | keep_all]
    | eapply rel_seq2; [apply keeps_then_sets | keep_all | extended_set_find]
    | apply sets_whenDefined; [reflexivity | assumption | extended_set_find] ].

(** X28: in the extended revision, every field that the manifest gives
    (other than one of the four fields given as [""]) resolves to the value
    of the manifest, under exactly one change record. *)
Theorem extended_field_overridden base m st q v :
  Extended.applyManifestOverrides base m = Ok st ->
  In q Extended.override_paths ->
  get_path q (Some m) = Some v ->
  (mem_path q Extended.sentinel_paths = true -> v <> JStr "") ->
  get_path q (cfg st) = Some v
  /\ records_for (dotted q) (overrides st) = 1.
Proof.
  intros H Hin Hm Hv.
  assert (Hr : rel (sets q v) (Extended.overrideStatements m)).
  { unfold Extended.override_paths in Hin. simpl in Hin.
    repeat (destruct Hin as [<- | Hin];
            [unfold Extended.overrideStatements; extended_set_find|]).
    contradiction. }
  exact (Hr _ _ H).
Qed.

(** ** Groups that the extended revision does not create *)

Lemma readPath_without a k r c :
  get_path [a] (Some c) = None -> readPath (a :: k :: r) (Some c) = TypeError.
Proof.
  intros H. cbn [readPath]. destruct c as [| | | | |o]; try reflexivity.
  cbn [get_path] in H. cbn [getProp bind]. rewrite H. reflexivity.
Qed.

Lemma throws_without_left g s1 s2 :
  throws_without g s1 -> throws_without g (s1 >> s2).
Proof. intros H st Hs. unfold seq. now rewrite (H st Hs). Qed.

Lemma throws_without_right g s1 s2 :
  rel (stays_absent g) s1 -> throws_without g s2 ->
  throws_without g (s1 >> s2).
Proof.
  intros H1 H2 st Hs. unfold seq.
  destruct (s1 st) as [st1|] eqn:E; [|reflexivity]. cbn [bind].
  apply H2. exact (H1 _ _ E Hs).
Qed.

Lemma throws_without_whenDefined g m p body :
  get_path p (Some m) <> None ->
  throws_without g body -> throws_without g (whenDefined m p body).
Proof.
  intros Hm Hb st Hs. unfold whenDefined.
  destruct (readPath p (Some m)) as [v|] eqn:E; [|reflexivity].
  apply readPath_get in E. cbn [bind]. destruct v; [|congruence].
  cbn [defined]. now apply Hb.
Qed.

Lemma throws_without_overrideField m a k r :
  get_path (a :: k :: r) (Some m) <> None ->
  throws_without [a] (overrideField m (a :: k :: r)).
Proof.
  intros Hm st Hs. unfold overrideField.
  destruct (readPath (a :: k :: r) (Some m)) as [v|] eqn:E; [|reflexivity].
  apply readPath_get in E. cbn [bind]. destruct v; [|congruence].
  unfold applyOverride. unfold cfg in Hs.
  now rewrite (readPath_without a k r _ Hs).
Qed.

Lemma throws_without_overrideFieldUnlessEmpty m a k r v :
  get_path (a :: k :: r) (Some m) = Some v -> v <> JStr "" ->
  throws_without [a] (overrideFieldUnlessEmpty m (a :: k :: r)).
Proof.
  intros Hm Hv st Hs. unfold overrideFieldUnlessEmpty.
  destruct (readPath (a :: k :: r) (Some m)) as [x|] eqn:E; [|reflexivity].
  apply readPath_get in E. cbn [bind]. rewrite Hm in E. subst x.
  destruct (is_empty_string v) eqn:Ee.
  - exfalso. apply Hv. destruct v as [| | |x| |]; try discriminate.
    destruct x; [reflexivity | discriminate].
  - unfold applyOverride. unfold cfg in Hs.
    now rewrite (readPath_without a k r _ Hs).
Qed.

Lemma stays_absent_refl g a : stays_absent g a a.
Proof. intros H. exact H. Qed.

Lemma stays_absent_trans g a b c :
  stays_absent g a b -> stays_absent g b c -> stays_absent g a c.
Proof. unfold stays_absent. auto. Qed.

Lemma stays_absent_quiet g s : rel (quiet g) s -> rel (stays_absent g) s.
Proof. intros H st st' Hs Ha. destruct (H _ _ Hs) as [E _]. congruence. Qed.

Lemma stays_absent_overrideField m a k r :
  rel (stays_absent [a]) (overrideField m (a :: k :: r)).
Proof.
  intros st st' H Ha. apply overrideField_inv in H as [[_ ->]|(x & _ & H)];
    [exact Ha|].
  exfalso. unfold applyOverride in H. unfold cfg in Ha.
  rewrite (readPath_without a k r _ Ha) in H. discriminate.
Qed.

Lemma stays_absent_overrideFieldUnlessEmpty m a k r :
  rel (stays_absent [a]) (overrideFieldUnlessEmpty m (a :: k :: r)).
Proof.
  intros st st' H Ha.
  apply overrideFieldUnlessEmpty_inv in H as [[_ ->]|(x & _ & _ & H)];
    [exact Ha|].
  exfalso. unfold applyOverride in H. unfold cfg in Ha.
  rewrite (readPath_without a k r _ Ha) in H. discriminate.
Qed.

Ltac stays_absent_all :=
  first
    [ apply rel_seq;
      [apply stays_absent_trans | stays_absent_all | stays_absent_all]
    | apply rel_whenDefined;
      [apply stays_absent_refl | intros _; stays_absent_all]
    | apply stays_absent_overrideField
    | apply stays_absent_overrideFieldUnlessEmpty
    | apply stays_absent_quiet; quiet_all ].

Ltac throws_find Hm Hv :=
  first
    [ apply throws_without_overrideField; rewrite Hm; discriminate
    | eapply throws_without_overrideFieldUnlessEmpty;
      [exact Hm | apply Hv; reflexivity]
    | apply throws_without_left; throws_find Hm Hv
    | apply throws_without_right; [stays_absent_all | throws_find Hm Hv]
    | apply throws_without_whenDefined;
      [ eapply prefix_defined; [|rewrite Hm; discriminate]; reflexivity
      | throws_find Hm Hv ] ].

(** X30: the extended revision does not create the groups [llms] and
    [rag]: on a base configuration without one of the two, a manifest that
    gives a field of that group (other than [llms.huggingfaceApiSecretArn]
    as the empty string) makes [applyManifestOverrides] throw. *)
Theorem extended_group_required base m a q v :
  a = "llms" \/ a = "rag" ->
  get_path [a] (Some base) = None ->
  In q (filter (prefix_of [a]) Extended.override_paths) ->
  get_path q (Some m) = Some v ->
  (mem_path q Extended.sentinel_paths = true -> v <> JStr "") ->
  Extended.applyManifestOverrides base m = TypeError.
Proof.
  intros Ha Hb Hin Hm Hv.
  assert (Ht : throws_without [a] (Extended.overrideStatements m)).
  { destruct Ha as [-> | ->]; cbn in Hin;
      repeat (destruct Hin as [<- | Hin];
              [unfold Extended.overrideStatements; throws_find Hm Hv|]);
      contradiction. }
  apply Ht. exact Hb.
Qed.

Lemma extended_count_sample :
  overrideCount (Extended.merged extended_base extended_override)
  = List.length (overrides (Extended.merged extended_base extended_override)).
Proof.
  apply (extended_overrideCount_is_log_length extended_base extended_override).
  vm_compute. reflexivity.
Defined.

Lemma extended_log_sample :
  Forall (Extended.justified extended_override)
         (overrides (Extended.merged extended_base extended_override))
  /\ (forall q, In q Extended.override_paths ->
                get_path q (Some extended_override) = None ->
                records_for (dotted q)
                  (overrides (Extended.merged extended_base extended_override))
                = 0).
Proof.
  apply (extended_log_sound extended_base extended_override).
  vm_compute. reflexivity.
Defined.

Lemma extended_role_kept :
  get_path ["bedrock"; "roleArn"]
           (cfg (Extended.merged extended_base extended_override))
  = get_path ["bedrock"; "roleArn"] (Some extended_base)
  /\ records_for (dotted ["bedrock"; "roleArn"])
       (overrides (Extended.merged extended_base extended_override)) = 0.
Proof.
  apply (extended_empty_string_is_absent extended_base extended_override).
  - vm_compute. reflexivity.
  - simpl. tauto.
  - reflexivity.
Defined.

Lemma extended_retention_overridden :
  get_path ["logRetention"]
           (cfg (Extended.merged extended_base extended_override))
  = Some (JNum (30 # 1))
  /\ records_for (dotted ["logRetention"])
       (overrides (Extended.merged extended_base extended_override)) = 1.
Proof.
  apply (extended_field_overridden extended_base extended_override).
  - vm_compute. reflexivity.
  - simpl. tauto.
  - reflexivity.
  - intros _. discriminate.
Defined.

Lemma extended_llms_required :
  Extended.applyManifestOverrides extended_base_without_llms
    extended_override_llms = TypeError.
Proof.
  apply (extended_group_required extended_base_without_llms
           extended_override_llms "llms" ["llms"; "rateLimitPerIP"]
           (JNum (100 # 1))).
  - left. reflexivity.
  - reflexivity.
  - simpl. tauto.
  - reflexivity.
  - intros _. discriminate.
Defined.

(* ================================================================= *)
(** * The further properties on sample documents *)

Lemma validation_idempotent_sample :
  safeParse accept_all accept_all DeploymentManifestSchema
    (Some (validated override_pipeline))
  = Success (Some (validated override_pipeline)).
Proof.
  apply (validation_idempotent accept_all accept_all (Some override_pipeline)).
  vm_compute. reflexivity.
Defined.

Lemma misspelled_key_ignored :
  safeParse accept_all accept_all DeploymentManifestSchema
    (Some override_misspelled)
  = safeParse accept_all accept_all DeploymentManifestSchema
      (Some override_same_waf).
Proof.
  apply (undeclared_keys_ignored accept_all accept_all).
  intros k Hk. simpl in Hk.
  repeat (destruct Hk as [<- | Hk]; [reflexivity|]). contradiction.
Defined.

Lemma validated_prefix_sample :
  exists a rest,
    get_path ["prefix"] (Some override_same_waf) = Some (JStr (String a rest))
    /\ get_path ["prefix"] (Some (validated override_same_waf))
       = Some (JStr (String a rest))
    /\ letter a = true
    /\ forallb prefix_char (chars rest) = true
    /\ String.length rest <= 15.
Proof.
  apply (validated_prefix accept_all accept_all (Some override_same_waf)).
  vm_compute. reflexivity.
Defined.

Lemma pipeline_defaults_sample :
  get_path ["pipeline"; "branch"] (Some (validated override_pipeline))
  = Some match get_path ["pipeline"; "branch"] (Some override_pipeline) with
         | Some branch => branch
         | None => JStr "main"
         end
  /\ get_path ["pipeline"; "requireApproval"] (Some (validated override_pipeline))
     = Some match get_path ["pipeline"; "requireApproval"]
                           (Some override_pipeline) with
            | Some flag => flag
            | None => JBool true
            end
  /\ get_path ["pipeline"; "codecommit"; "seedOnCreate"]
              (Some (validated override_pipeline))
     = Some match get_path ["pipeline"; "codecommit"; "seedOnCreate"]
                           (Some override_pipeline) with
            | Some flag => flag
            | None => JBool false
            end.
Proof.
  apply (pipeline_defaults accept_all accept_all (Some override_pipeline)).
  - vm_compute. reflexivity.
  - vm_compute. discriminate.
Defined.

Lemma guardrails_enabled_sample :
  exists identifier version,
    get_path ["bedrock"; "guardrails"; "identifier"]
             (Some (validated override_guardrails_on))
    = Some (JStr identifier)
    /\ identifier <> ""
    /\ get_path ["bedrock"; "guardrails"; "version"]
                (Some (validated override_guardrails_on))
       = Some (JStr version)
    /\ version <> "".
Proof.
  apply (guardrails_enabled_complete accept_all accept_all
           (Some override_guardrails_on)).
  - vm_compute. reflexivity.
  - vm_compute. reflexivity.
Defined.

Lemma saml_federation_sample :
  exists url,
    get_path ["cognitoFederation"; "customSAML"; "metadataDocumentUrl"]
             (Some (validated override_saml))
    = Some (JStr url)
    /\ accept_all url = true
    /\ String.prefix "https://" url = true.
Proof.
  apply (saml_federation_complete accept_all accept_all (Some override_saml)).
  - vm_compute. reflexivity.
  - vm_compute. reflexivity.
  - vm_compute. reflexivity.
Defined.

Lemma oidc_federation_sample :
  exists client secret issuer,
    get_path ["cognitoFederation"; "customOIDC"; "OIDCClient"]
             (Some (validated override_oidc))
    = Some (JStr client)
    /\ client <> ""
    /\ get_path ["cognitoFederation"; "customOIDC"; "OIDCSecret"]
                (Some (validated override_oidc))
       = Some (JStr secret)
    /\ regex_test re_secret_arn secret = true
    /\ get_path ["cognitoFederation"; "customOIDC"; "OIDCIssuerURL"]
                (Some (validated override_oidc))
       = Some (JStr issuer)
    /\ accept_all issuer = true
    /\ String.prefix "https://" issuer = true.
Proof.
  apply (oidc_federation_complete accept_all accept_all (Some override_oidc)).
  - vm_compute. reflexivity.
  - vm_compute. reflexivity.
  - vm_compute. reflexivity.
Defined.

Lemma federation_provider_sample :
  exists name,
    get_path ["cognitoFederation"; "customProviderName"]
             (Some (validated override_saml))
    = Some (JStr name)
    /\ name <> ""
    /\ String.length name <= 32.
Proof.
  apply (federation_provider_named accept_all accept_all (Some override_saml)).
  - vm_compute. reflexivity.
  - vm_compute. reflexivity.
  - vm_compute. discriminate.
Defined.

Lemma rag_enabled_sample :
  get_path ["rag"; "engines"; "opensearch"; "enabled"]
           (Some (validated override_rag_on))
  = Some (JBool true)
  \/ get_path ["rag"; "engines"; "knowledgeBase"; "enabled"]
              (Some (validated override_rag_on))
     = Some (JBool true).
Proof.
  apply (rag_enabled_has_engine accept_all accept_all (Some override_rag_on)).
  - vm_compute. reflexivity.
  - vm_compute. reflexivity.
Defined.

Lemma new_repository_sample :
  (get_path ["pipeline"; "codecommit"; "createNew"]
            (Some (validated override_new_repository))
   = Some (JBool true)
   /\ get_path ["pipeline"; "codecommit"; "existingRepositoryName"]
               (Some (validated override_new_repository))
      = None
   /\ exists name,
        get_path ["pipeline"; "codecommit"; "newRepositoryName"]
                 (Some (validated override_new_repository))
        = Some (JStr name) /\ name <> "")
  \/ (truthy (get_path ["pipeline"; "codecommit"; "createNew"]
                       (Some (validated override_new_repository))) = false
      /\ exists name,
           get_path ["pipeline"; "codecommit"; "existingRepositoryName"]
                    (Some (validated override_new_repository))
           = Some (JStr name) /\ name <> "").
Proof.
  apply (pipeline_repository_named accept_all accept_all
           (Some override_new_repository)).
  - vm_compute. reflexivity.
  - vm_compute. discriminate.
Defined.

Lemma empty_manifest_file :
  loadDeploymentManifest None only_yaml read_any (loads_as None)
    accept_all accept_all no_message
  = Thrown (ValidationFailed
              ("  - root: " ++ no_message (mkIssue invalid_type [] None)))
  /\ loadConfig None only_yaml read_any (loads_as None) sample_base
       accept_all accept_all no_message
     = Thrown (ValidationFailed
                 ("  - root: " ++ no_message (mkIssue invalid_type [] None))).
Proof.
  apply (manifest_must_be_an_object None only_yaml read_any (loads_as None)
           sample_base accept_all accept_all no_message
           "deployment-manifest.yaml" "" None); reflexivity.
Defined.

Lemma loadConfig_sample_never_TypeError :
  is_TypeError
    (loadConfig None only_yaml read_any (loads_as (Some override_pipeline))
       sample_base accept_all accept_all no_message)
  = false.
Proof.
  apply (loadConfig_never_TypeError None only_yaml read_any
           (loads_as (Some override_pipeline)) sample_base
           accept_all accept_all no_message).
  reflexivity.
Defined.

Lemma loadConfig_sample_merge :
  (findManifestFile None only_yaml = None
   /\ config (merged sample_base (validated override_same_waf)) = sample_base
   /\ overrides (merged sample_base (validated override_same_waf)) = [])
  \/ (exists path content document m st,
        findManifestFile None only_yaml = Some path
        /\ read_any path = Some content
        /\ loads_as (Some override_same_waf) content = Some document
        /\ safeParse accept_all accept_all DeploymentManifestSchema document
           = Success (Some m)
        /\ applyManifestOverrides sample_base m = Ok st
        /\ config (merged sample_base (validated override_same_waf)) = config st
        /\ overrides (merged sample_base (validated override_same_waf))
           = overrides st
        /\ records_for "prefix"
             (overrides (merged sample_base (validated override_same_waf))) = 1).
Proof.
  apply (loadConfig_returns_base_or_merge None only_yaml read_any
           (loads_as (Some override_same_waf)) sample_base
           accept_all accept_all no_message).
  vm_compute. reflexivity.
Defined.

Lemma count_sample :
  overrideCount (merged sample_base (validated override_guardrails_on))
  = List.length (overrides (merged sample_base (validated override_guardrails_on))).
Proof.
  apply (overrideCount_is_log_length sample_base
           (validated override_guardrails_on)).
  vm_compute. reflexivity.
Defined.

Lemma justified_sample :
  Forall (justified (validated override_pipeline))
         (overrides (merged sample_base (validated override_pipeline))).
Proof.
  apply (change_log_justified sample_base (validated override_pipeline)).
  vm_compute. reflexivity.
Defined.

Lemma omitted_sample :
  (forall q, In q override_paths ->
             get_path q (Some (validated override_same_waf)) = None ->
             records_for (dotted q)
               (overrides (merged sample_base (validated override_same_waf))) = 0)
  /\ (get_path ["pipeline"] (Some (validated override_same_waf)) = None ->
      records_for "pipeline"
        (overrides (merged sample_base (validated override_same_waf))) = 0).
Proof.
  apply (omitted_field_not_recorded sample_base (validated override_same_waf)).
  vm_compute. reflexivity.
Defined.

Lemma record_contents_sample :
  (forall q v,
     In q override_paths ->
     mem_path q guardrails_fields = false ->
     get_path q (Some (validated override_pipeline)) = Some v ->
     (q = ["logArchiveBucketName"] -> v <> JStr "") ->
     records_of (dotted q)
       (overrides (merged sample_base (validated override_pipeline)))
     = [{| cpath := dotted q; oldValue := get_path q (Some sample_base);
           newValue := Some v |}])
  /\ (get_path ["pipeline"] (Some (validated override_pipeline)) <> None ->
      records_of "pipeline"
        (overrides (merged sample_base (validated override_pipeline)))
      = [{| cpath := "pipeline";
            oldValue := get_path ["pipeline"] (Some sample_base);
            newValue := get_path ["pipeline"] (Some (validated override_pipeline)) |}]).
Proof.
  apply (change_record_contents sample_base (validated override_pipeline)).
  vm_compute. reflexivity.
Defined.

Lemma pipeline_group_sample :
  exists st,
    applyManifestOverrides sample_base (validated override_new_repository) = Ok st
    /\ get_path ["pipeline"] (cfg st)
       = get_path ["pipeline"] (Some (validated override_new_repository)).
Proof.
  apply (pipeline_group_from_manifest accept_all accept_all sample_base
           (Some override_new_repository)).
  - reflexivity.
  - vm_compute. reflexivity.
  - vm_compute. discriminate.
Defined.

Lemma merge_twice_sample :
  exists st st2,
    applyManifestOverrides sample_base (validated override_guardrails_on) = Ok st
    /\ applyManifestOverrides (config st) (validated override_guardrails_on)
       = Ok st2
    /\ config st2 = config st
    /\ Forall noop (overrides st2).
Proof.
  apply (merge_idempotent accept_all accept_all sample_base
           (Some override_guardrails_on)).
  - reflexivity.
  - vm_compute. reflexivity.
Defined.

Lemma rag_required_sample :
  applyManifestOverrides base_without_rag (validated override_rag_on) = TypeError.
Proof.
  apply (rag_group_required base_without_rag (validated override_rag_on)
           ["rag"; "engines"; "knowledgeBase"; "enabled"]).
  - reflexivity.
  - vm_compute. tauto.
  - vm_compute. discriminate.
Defined.

Lemma guardrails_defaults_sample :
  exists st,
    applyManifestOverrides sample_base (validated override_guardrails_off) = Ok st
    /\ forall k v,
         get_path [k] (Some guardrailsDefaults) = Some v ->
         get_path (guardrails_group ++ [k]) (cfg st)
         = Some match get_path (guardrails_group ++ [k])
                               (Some (validated override_guardrails_off)) with
                | Some x => x
                | None => v
                end.
Proof.
  apply (guardrails_created_with_defaults accept_all accept_all sample_base
           (Some override_guardrails_off)).
  - reflexivity.
  - vm_compute. reflexivity.
  - vm_compute. discriminate.
  - reflexivity.
Defined.

Lemma deployment_sample :
  exists st enabled,
    applyManifestOverrides base_without_vpc (validated override_new_repository)
    = Ok st
    /\ get_path ["pipeline"; "enabled"] (Some (validated override_new_repository))
       = Some (JBool enabled)
    /\ ((enabled && negb (isPipelineDeployStep (Some "true")) = true
         /\ deployStack (config st) (Some "true")
            = Ok (PipelineStack
                    {| interpolated :=
                         get_path ["prefix"]
                                  (Some (validated override_new_repository));
                       suffix := "ChatBotPipelineStack" |}))
        \/ (enabled && negb (isPipelineDeployStep (Some "true")) = false
            /\ exists aspect,
                 deployStack (config st) (Some "true")
                 = Ok (AwsGenAILLMChatbotStack
                         {| interpolated :=
                              get_path ["prefix"]
                                       (Some (validated override_new_repository));
                            suffix := "GenAIChatBotStack" |} aspect))).
Proof.
  apply (deployment_follows_manifest accept_all accept_all base_without_vpc
           (Some override_new_repository)).
  - reflexivity.
  - vm_compute. reflexivity.
  - vm_compute. discriminate.
Defined.

Lemma aspect_switched_off :
  false
  = (truthy match get_path ["vpc"; "vpcId"] (Some (validated override_subnets)) with
            | Some vpcId => Some vpcId
            | None => get_path ["vpc"; "vpcId"] (Some base_without_vpc)
            end
     || (negb (defined (get_path ["vpc"] (Some (validated override_subnets))))
         && negb (defined (get_path ["vpc"] (Some base_without_vpc))))).
Proof.
  apply (lambda_vpc_aspect_rule accept_all accept_all base_without_vpc
           (Some override_subnets) (validated override_subnets)
           (merged base_without_vpc (validated override_subnets)) None
           {| interpolated := Some (JStr "prod-cb");
              suffix := "GenAIChatBotStack" |}).
  - reflexivity.
  - vm_compute. reflexivity.
  - vm_compute. reflexivity.
  - vm_compute. reflexivity.
Defined.

Lemma misspelled_vpc_key_stripped :
  get_path (["vpc"] ++ ["vpcID"]) (Some override_vpc_typo)
  = Some (JStr "vpc-0123abcd")
  /\ get_path ["vpc"; "s3VpcEndpointId"] (Some (validated override_vpc_typo))
     = Some (JStr "vpce-0123456789abcdef0")
  /\ get_path (["vpc"] ++ ["vpcID"]) (Some (validated override_vpc_typo)) = None.
Proof.
  split; [reflexivity|]. split; [vm_compute; reflexivity|].
  eapply (validated_keys_declared accept_all accept_all
            (Some override_vpc_typo) (validated override_vpc_typo) ["vpc"]).
  - vm_compute. reflexivity.
  - reflexivity.
  - reflexivity.
  - reflexivity.
Defined.
